(** * Single particle motion of an electron in a plane laser field

    A shallow embedding of the notebook [single_particle_laser.ipynb]:
    the phase grid, the gaussian pulse, the momenta, the numerically
    integrated trajectories and the analytic solutions.

    Number model.  The notebook computes with float64 arrays.  Here every
    float is idealised as a real number ([R]) and every one-dimensional
    array as a [list R]; [np.exp], [np.sin], [np.cos] and [np.sqrt] are
    the real functions [exp], [sin], [cos] and [sqrt], [pi] is [PI], and
    [scipy.special.erf] is the error function, defined below as an
    integral.  Rounding, overflow and the non-finite values of IEEE
    arithmetic are outside this model; its statements are made where the
    real-number reading of the code is meaningful ([tau <> 0]).

    The one place where the notebook leaves the real numbers, the
    division by [tau**2] at [tau == 0], is read on binary64 floats
    instead ([Float64]): the same cells over Rocq's primitive floats,
    with the elementary functions of the numeric library as a parameter.
    The same reading serves for parameters that are not finite.

    The last cell, "Plot all quantities", is read as the data it hands to
    the plotting library: the lines of each axes, with their abscissae,
    ordinates and format strings.

    Failing Python operations (an index out of range, a negative sample
    count, arrays of different shapes, on float64 a power of a Python
    float that overflows) are results of type [result]. *)

From Stdlib Require Floats Uint63 String.
From Stdlib Require Import Reals List ZArith Lra Lia.
Import ListNotations.
Import Stdlib.Strings.String.StringSyntax.

Open Scope R_scope.
Delimit Scope string_scope with string.
Bind Scope string_scope with String.string.

(** ** Exceptions *)

Inductive exn : Set :=
| ValueError
| IndexError
| OverflowError.

Inductive result (A : Type) : Type :=
| Ok (v : A)
| Raise (e : exn).

Arguments Ok {A} v.
Arguments Raise {A} e.

Definition bind {A B : Type} (r : result A) (k : A -> result B) : result B :=
  match r with
  | Ok v => k v
  | Raise e => Raise e
  end.

Notation "'do' v <- r ; k" := (bind r (fun v => k))
  (at level 10, v name, r at level 100, k at level 200).

(** ** One-dimensional arrays, whatever their elements *)

(** [arr[i]] for a literal, non-negative index. *)
Definition getitem {A : Type} (arr : list A) (i : nat) : result A :=
  match nth_error arr i with
  | Some v => Ok v
  | None => Raise IndexError
  end.

(** Elementwise binary operation on two arrays of one shape (every pair
    of arrays the notebook combines has the length of the grid). *)
Fixpoint map2 {A : Type} (f : A -> A -> A) (u v : list A) : list A :=
  match u, v with
  | p :: u', q :: v' => f p q :: map2 f u' v'
  | _, _ => []
  end.

(** [y[-1] = stop] *)
Definition set_last {A : Type} (y : list A) (stop : A) : list A :=
  match y with
  | [] => []
  | _ :: _ => removelast y ++ [stop]
  end.

(** ** Arrays of real numbers and the library operations on them *)

Definition ndarray : Type := list R.

(** [np.arange(0, num)] as floats. *)
Definition arange (num : nat) : ndarray := map INR (seq 0 num).

(** [np.linspace(start, stop, num)] with the default [endpoint=True], as
    numpy computes it: a negative [num] is refused; both ends are
    multiplied by [1.0]; the samples are [arange*step + start] with
    [step = (stop - start)/(num - 1)], or [arange/div*delta + start] when
    the step is zero; the last one is overwritten with [stop]; a single
    sample is [start]. *)
Definition linspace (start stop : R) (num : Z) : result ndarray :=
  if (num <? 0)%Z then Raise ValueError
  else
    let div := (num - 1)%Z in
    let start := start * 1 in
    let stop := stop * 1 in
    let delta := stop - start in
    let y := arange (Z.to_nat num) in
    let y := if (0 <? div)%Z
             then
               let step := delta / IZR div in
               if Req_dec_T step 0
               then map (fun v => v / IZR div * delta) y
               else map (fun v => v * step) y
             else map (fun v => v * delta) y in
    let y := map (fun v => v + start) y in
    Ok (if (1 <? num)%Z then set_last y stop else y).

(** [np.cumsum]: running sums, the first being the first element. *)
Fixpoint cumsum_from (acc : R) (y : ndarray) : ndarray :=
  match y with
  | [] => []
  | v :: y' => (acc + v) :: cumsum_from (acc + v) y'
  end.

Definition cumsum (y : ndarray) : ndarray :=
  match y with
  | [] => []
  | v :: y' => v :: cumsum_from v y'
  end.

(** [scipy.integrate.cumtrapz(y, initial=initial)] with the default unit
    spacing [dx = 1.0]: the running sum of [dx*(y[1:] + y[:-1])/2.0],
    with [initial] put in front. *)
Definition cumtrapz (y : ndarray) (initial : R) : ndarray :=
  initial :: cumsum (map2 (fun u v => 1 * (u + v) / 2) (tl y) (removelast y)).

(** ** The error function *)

Definition gauss (t : R) : R := exp (- (t * t)).

Definition gauss_integrable (lo hi : R) : Riemann_integrable gauss lo hi.
Proof.
  assert (Hc : continuity gauss).
  { unfold gauss.
    apply (continuity_comp (fun t => - (t * t)) exp).
    - apply continuity_opp.
      apply continuity_mult; apply derivable_continuous, derivable_id.
    - apply derivable_continuous, derivable_exp. }
  destruct (Rle_dec lo hi) as [Hle | Hgt].
  - apply continuity_implies_RiemannInt; [exact Hle | intros; apply Hc].
  - apply RiemannInt_P1, continuity_implies_RiemannInt;
      [lra | intros; apply Hc].
Defined.

(** [scipy.special.erf]: [erf(u) = 2/sqrt(pi) * integral_0^u exp(-t^2) dt]. *)
Definition erf (u : R) : R :=
  2 / sqrt PI * RiemannInt (gauss_integrable 0 u).

(** ** The notebook, cell by cell *)

(** "set up xi space" *)
Definition set_up_xi_space (tau : R) (Nint : Z) : result (ndarray * R) :=
  do xi <- linspace (4 * tau) (-4 * tau) Nint;
  do xi_2 <- getitem xi 2;
  do xi_1 <- getitem xi 1;
  let dxi := xi_2 - xi_1 in
  Ok (xi, dxi).

(** "define pulse": envelope [a_] and waveform [a]. *)
Definition define_pulse (a_0 tau xi0 : R) (xi : ndarray) : ndarray * ndarray :=
  let a_ := map (fun xi_i => a_0 * exp (- (xi_i - xi0) ^ 2 / tau ^ 2)) xi in
  let a := map2 Rmult a_ (map sin xi) in
  (a_, a).

(** [np.sqrt(1 + px**2 + pz**2)] on two arrays of one shape. *)
Definition lorentz_factor (px pz : ndarray) : ndarray :=
  map2 (fun p q => sqrt (1 + p ^ 2 + q ^ 2)) px pz.

(** "momenta in laser field" *)
Definition momenta (a : ndarray) : ndarray * ndarray * ndarray :=
  let px := a in
  let pz := map (fun p => 0.5 * p ^ 2) px in
  let gamma := lorentz_factor px pz in
  (px, pz, gamma).

(** "numerical solutions for x and z" *)
Definition numerical_solutions (px pz : ndarray) (dxi : R) : ndarray * ndarray :=
  let x := map (fun c => - c * dxi) (cumtrapz px 0) in
  let z := map (fun c => - c * dxi) (cumtrapz pz 0) in
  (x, z).

(** The closed form of the drift at one phase. *)
Definition zdrift_at (a_0 tau xi0 xi_i : R) : R :=
  - 0.125 * sqrt (PI / 2) * a_0 ^ 2 * tau
  * (erf (sqrt 2 * (xi_i - xi0) / tau) - 1).

(** "analytic solutions for x and z, and zdrift for gaussian pulse" *)
Definition analytic_solutions (a_0 tau xi0 : R) (xi a_ : ndarray)
  : ndarray * ndarray * ndarray :=
  let xan := map2 Rmult a_ (map cos xi) in
  let zdrift := map (zdrift_at a_0 tau xi0) xi in
  let zan :=
    map2 Rplus zdrift
      (map2 Rmult (map (fun e => 0.125 * e ^ 2) a_)
                  (map (fun xi_i => sin (2 * xi_i)) xi)) in
  (xan, zdrift, zan).

(** Every variable the notebook leaves behind. *)
Record notebook : Type := Notebook {
  xi : ndarray;
  dxi : R;
  a_ : ndarray;
  a : ndarray;
  px : ndarray;
  pz : ndarray;
  gamma : ndarray;
  x : ndarray;
  z : ndarray;
  xan : ndarray;
  zdrift : ndarray;
  zan : ndarray
}.

(** The cells in order.  [a_0], [tau] and [Nint] are the values edited at
    the top of the notebook, [xi0] the pulse centre (the notebook sets
    [xi0 = 0]). *)
Definition run (a_0 tau xi0 : R) (Nint : Z) : result notebook :=
  do g <- set_up_xi_space tau Nint;
  let '(xi, dxi) := g in
  let '(a_, a) := define_pulse a_0 tau xi0 xi in
  let '(px, pz, gamma) := momenta a in
  let '(x, z) := numerical_solutions px pz dxi in
  let '(xan, zdrift, zan) := analytic_solutions a_0 tau xi0 xi a_ in
  Ok (Notebook xi dxi a_ a px pz gamma x z xan zdrift zan).

(** The notebook as committed: [a_0 = 4], [tau = 5*2*pi], [Nint = 10000]. *)
Definition notebook_run : result notebook := run 4 (5 * 2 * PI) 0 10000.

(** ** The cell "Plot all quantities", as the data it hands to the plots *)

(** [u - v] on one-dimensional arrays: elementwise on arrays of one
    shape; an array of one element is broadcast; any other pair of shapes
    raises ValueError. *)
Definition subtract (u v : ndarray) : result ndarray :=
  if Nat.eqb (length u) (length v) then Ok (map2 Rminus u v)
  else
    match u, v with
    | [c], _ => Ok (map (fun w => c - w) v)
    | _, [c] => Ok (map (fun w => w - c) u)
    | _, _ => Raise ValueError
    end.

(** One line of a plot: abscissae, ordinates and format string. *)
Record line : Type := Line {
  xdata : ndarray;
  ydata : ndarray;
  fmt : String.string
}.

(** [Axes.plot(x1, y1, fmt1, x2, y2, fmt2, ...)]: one line for each
    triple; ValueError when the [x] and [y] of a triple differ in their
    first dimension. *)
Fixpoint plot (args : list (ndarray * ndarray * String.string))
  : result (list line) :=
  match args with
  | [] => Ok []
  | (xs, ys, f) :: rest =>
      if Nat.eqb (length xs) (length ys)
      then do ls <- plot rest; Ok (Line xs ys f :: ls)
      else Raise ValueError
  end.

(** The lines of the six axes of the figure: the four subplots and the
    twin axes of the first and the third. *)
Record figure : Type := Figure {
  ax1 : list line;
  ax1yy : list line;
  ax2 : list line;
  ax3 : list line;
  ax3yy : list line;
  ax4 : list line
}.

(** "Plot all quantities": the [plot] calls in order (titles, labels,
    legends and [plt.show()] carry no data). *)
Definition plot_all_quantities (nb : notebook) : result figure :=
  do l1 <- plot [(xi nb, x nb, "C0"%string); (xi nb, xan nb, "--C2"%string)];
  do l1yy <- plot [(xi nb, zdrift nb, "--k"%string);
                   (xi nb, z nb, "C1"%string);
                   (xi nb, zan nb, "--C3"%string)];
  do z_num <- subtract (z nb) (zdrift nb);
  do z_an <- subtract (zan nb) (zdrift nb);
  do l2 <- plot [(z_num, x nb, "k"%string); (z_an, xan nb, "r--"%string)];
  do l3 <- plot [(xi nb, px nb, "C0"%string)];
  do l3yy <- plot [(xi nb, pz nb, "C1"%string)];
  do l4 <- plot [(pz nb, px nb, "k"%string)];
  Ok (Figure l1 l1yy l2 l3 l3yy l4).

(** The notebook from its first cell to its last. *)
Definition run_and_plot (a_0 tau xi0 : R) (Nint : Z)
  : result (notebook * figure) :=
  do nb <- run a_0 tau xi0 Nint;
  do fig <- plot_all_quantities nb;
  Ok (nb, fig).

(** ** The same cells on float64

    Where the pulse duration is zero the real-number reading of the cells
    says nothing: the notebook divides by [tau**2].  IEEE arithmetic does
    give that division a value, so for this case the cells are read once
    more on binary64 floats, operation by operation in the order Python
    evaluates them.  On an array [x**2] is [x*x]; on the Python floats
    [tau] and [a_0] it is [float.__pow__], which raises OverflowError
    where the square overflows; the integer constants of the code are the
    floats they convert to. *)

Module Float64.

Import Stdlib.Floats.Floats.
Local Open Scope float_scope.

Definition ndarray : Type := list float.

(** The elementary functions of the numeric library, known here only by
    what IEEE 754 and C99 ask of them on a NaN: a NaN argument gives a
    NaN result.  [pow] is C's [pow], which Python calls for [**] on
    floats. *)
Record libm : Type := Libm {
  exp : float -> float;
  sin : float -> float;
  cos : float -> float;
  erf : float -> float;
  pow : float -> float -> float;
  exp_nan : exp nan = nan;
  erf_nan : erf nan = nan
}.

(** [numpy.pi] *)
Definition pi : float := 0x1.921fb54442d18p+1.

(** A Python integer as a float (exact below [2^53], rounded below
    [2^63]). *)
Definition of_int (n : Z) : float := of_uint63 (Uint63.of_Z n).

(** Python's [v ** 2] on a float, [float.__pow__] case by case: a NaN is
    returned as it is, an infinity gives [+inf], a zero gives [0.0];
    otherwise the sign is dropped, [1.0] gives [1.0], and the platform's
    [pow] is called, an infinite result of which raises OverflowError. *)
Definition pow2 (L : libm) (v : float) : result float :=
  if is_nan v then Ok v
  else if is_infinity v then Ok (abs v)
  else if v =? 0 then Ok 0
  else
    let iv := if v <? 0 then - v else v in
    if iv =? 1 then Ok 1
    else
      let ix := pow L iv 2 in
      if is_infinity ix then Raise OverflowError else Ok ix.

(** [np.arange(0, num)] as floats. *)
Definition arange (num : nat) : ndarray :=
  map (fun i => of_int (Z.of_nat i)) (seq 0 num).

(** [np.linspace(start, stop, num)] as numpy computes it: both ends are
    multiplied by [1.0], the samples are [arange*step + start], or
    [arange/div*delta + start] when the step is zero, and the last one
    is overwritten with [stop]. *)
Definition linspace (start stop : float) (num : Z) : result ndarray :=
  if (num <? 0)%Z then Raise ValueError
  else
    let div := (num - 1)%Z in
    let start := start * 1 in
    let stop := stop * 1 in
    let delta := stop - start in
    let y := arange (Z.to_nat num) in
    let y := if (0 <? div)%Z
             then
               let step := delta / of_int div in
               if step =? 0
               then map (fun v => v / of_int div * delta) y
               else map (fun v => v * step) y
             else map (fun v => v * delta) y in
    let y := map (fun v => v + start) y in
    Ok (if (1 <? num)%Z then set_last y stop else y).

(** [np.cumsum] *)
Fixpoint cumsum_from (acc : float) (y : ndarray) : ndarray :=
  match y with
  | [] => []
  | v :: y' => (acc + v) :: cumsum_from (acc + v) y'
  end.

Definition cumsum (y : ndarray) : ndarray :=
  match y with
  | [] => []
  | v :: y' => v :: cumsum_from v y'
  end.

(** [scipy.integrate.cumtrapz(y, initial=initial)], [dx = 1.0] *)
Definition cumtrapz (y : ndarray) (initial : float) : ndarray :=
  initial :: cumsum (map2 (fun u v => 1 * (u + v) / 2) (tl y) (removelast y)).

(** "set up xi space" *)
Definition set_up_xi_space (tau : float) (Nint : Z)
  : result (ndarray * float) :=
  do xi <- linspace (4 * tau) (-4 * tau) Nint;
  do xi_2 <- getitem xi 2;
  do xi_1 <- getitem xi 1;
  let dxi := xi_2 - xi_1 in
  Ok (xi, dxi).

(** "define pulse".  [tau**2] is the one scalar of the cell that can
    raise; the array operations around it cannot, so it is computed
    first. *)
Definition define_pulse (L : libm) (a_0 tau xi0 : float) (xi : ndarray)
  : result (ndarray * ndarray) :=
  do tau_2 <- pow2 L tau;
  let a_ :=
    map (fun xi_i =>
           a_0 * exp L (- ((xi_i - xi0) * (xi_i - xi0)) / tau_2)) xi in
  let a := map2 mul a_ (map (sin L) xi) in
  Ok (a_, a).

(** "momenta in laser field" *)
Definition momenta (a : ndarray) : ndarray * ndarray * ndarray :=
  let px := a in
  let pz := map (fun p => 0.5 * (p * p)) px in
  let gamma := map2 (fun p q => sqrt (1 + p * p + q * q)) px pz in
  (px, pz, gamma).

(** "numerical solutions for x and z" *)
Definition numerical_solutions (px pz : ndarray) (dxi : float)
  : ndarray * ndarray :=
  let x := map (fun c => - c * dxi) (cumtrapz px 0) in
  let z := map (fun c => - c * dxi) (cumtrapz pz 0) in
  (x, z).

(** "analytic solutions for x and z, and zdrift for gaussian pulse":
    [xan] first, then [a_0**2], which can raise, then the arrays
    [zdrift] and [zan]. *)
Definition analytic_solutions (L : libm) (a_0 tau xi0 : float)
  (xi a_ : ndarray) : result (ndarray * ndarray * ndarray) :=
  let xan := map2 mul a_ (map (cos L) xi) in
  do a_0_2 <- pow2 L a_0;
  let zdrift :=
    map (fun xi_i =>
           - 0.125 * sqrt (pi / 2) * a_0_2 * tau
           * (erf L (sqrt 2 * (xi_i - xi0) / tau) - 1)) xi in
  let zan :=
    map2 add zdrift
      (map2 mul (map (fun e => 0.125 * (e * e)) a_)
                (map (fun xi_i => sin L (2 * xi_i)) xi)) in
  Ok (xan, zdrift, zan).

(** Every variable the notebook leaves behind. *)
Record notebook : Type := Notebook {
  xi : ndarray;
  dxi : float;
  a_ : ndarray;
  a : ndarray;
  px : ndarray;
  pz : ndarray;
  gamma : ndarray;
  x : ndarray;
  z : ndarray;
  xan : ndarray;
  zdrift : ndarray;
  zan : ndarray
}.

(** The cells in order, with the numeric library [L]. *)
Definition run (L : libm) (a_0 tau xi0 : float) (Nint : Z)
  : result notebook :=
  do g <- set_up_xi_space tau Nint;
  let '(xi, dxi) := g in
  do p <- define_pulse L a_0 tau xi0 xi;
  let '(a_, a) := p in
  let '(px, pz, gamma) := momenta a in
  let '(x, z) := numerical_solutions px pz dxi in
  do s <- analytic_solutions L a_0 tau xi0 xi a_;
  let '(xan, zdrift, zan) := s in
  Ok (Notebook xi dxi a_ a px pz gamma x z xan zdrift zan).

(** [u - v] on one-dimensional arrays: elementwise on arrays of one
    shape; an array of one element is broadcast; any other pair of shapes
    raises ValueError. *)
Definition subtract (u v : ndarray) : result ndarray :=
  if Nat.eqb (length u) (length v) then Ok (map2 sub u v)
  else
    match u, v with
    | [c], _ => Ok (map (fun w => c - w) v)
    | _, [c] => Ok (map (fun w => w - c) u)
    | _, _ => Raise ValueError
    end.

(** One line of a plot: abscissae, ordinates and format string. *)
Record line : Type := Line {
  xdata : ndarray;
  ydata : ndarray;
  fmt : String.string
}.

(** [Axes.plot(x1, y1, fmt1, x2, y2, fmt2, ...)]: one line for each
    triple; ValueError when the [x] and [y] of a triple differ in their
    first dimension. *)
Fixpoint plot (args : list (ndarray * ndarray * String.string))
  : result (list line) :=
  match args with
  | [] => Ok []
  | (xs, ys, f) :: rest =>
      if Nat.eqb (length xs) (length ys)
      then do ls <- plot rest; Ok (Line xs ys f :: ls)
      else Raise ValueError
  end.

(** The lines of the six axes of the figure. *)
Record figure : Type := Figure {
  ax1 : list line;
  ax1yy : list line;
  ax2 : list line;
  ax3 : list line;
  ax3yy : list line;
  ax4 : list line
}.

(** "Plot all quantities" *)
Definition plot_all_quantities (nb : notebook) : result figure :=
  do l1 <- plot [(xi nb, x nb, "C0"%string); (xi nb, xan nb, "--C2"%string)];
  do l1yy <- plot [(xi nb, zdrift nb, "--k"%string);
                   (xi nb, z nb, "C1"%string);
                   (xi nb, zan nb, "--C3"%string)];
  do z_num <- subtract (z nb) (zdrift nb);
  do z_an <- subtract (zan nb) (zdrift nb);
  do l2 <- plot [(z_num, x nb, "k"%string); (z_an, xan nb, "r--"%string)];
  do l3 <- plot [(xi nb, px nb, "C0"%string)];
  do l3yy <- plot [(xi nb, pz nb, "C1"%string)];
  do l4 <- plot [(pz nb, px nb, "k"%string)];
  Ok (Figure l1 l1yy l2 l3 l3yy l4).

(** The notebook from its first cell to its last. *)
Definition run_and_plot (L : libm) (a_0 tau xi0 : float) (Nint : Z)
  : result (notebook * figure) :=
  do nb <- run L a_0 tau xi0 Nint;
  do fig <- plot_all_quantities nb;
  Ok (nb, fig).

(** A float that is [+0] or [-0]. *)
Definition zeroish (v : float) : Prop :=
  match Prim2SF v with
  | S754_zero _ => True
  | _ => False
  end.

(** A float that is a zero or NaN. *)
Definition zero_or_nan (v : float) : Prop :=
  match Prim2SF v with
  | S754_zero _ | S754_nan => True
  | _ => False
  end.

(** A library to run the cells with: the first terms of the series of
    each function, and the square for the one power the cells take. *)
Definition series_libm : libm :=
  {| exp := fun v => 1 + v + v * v / 2;
     sin := fun v => v - v * v * v / 6;
     cos := fun v => 1 - v * v / 2;
     erf := fun v => 2 / sqrt pi * (v - v * v * v / 3);
     pow := fun v _ => v * v;
     exp_nan := eq_refl;
     erf_nan := eq_refl |}.

End Float64.

(** ** Vocabulary of the statements *)

(** [arr[i]], read where the index is known to be in range. *)
Definition at_ (arr : ndarray) (i : nat) : R := nth i arr 0.

(** Partial sum [f 0 + ... + f (k-1)]. *)
Fixpoint psum (f : nat -> R) (k : nat) : R :=
  match k with
  | O => 0
  | S k' => psum f k' + f k'
  end.

(** Sample [i] of [np.linspace(start, stop, num)], for [num >= 2]. *)
Definition linspace_at (start stop : R) (num : Z) (i : nat) : R :=
  INR i * ((stop - start) / IZR (num - 1)) + start.

(** The uniform spacing of the grid [np.linspace(4*tau, -4*tau, Nint)]. *)
Definition spacing (tau : R) (Nint : Z) : R := - 8 * tau / IZR (Nint - 1).

(** The envelope at one phase. *)
Definition envelope_at (a_0 tau xi0 xi_i : R) : R :=
  a_0 * exp (- (xi_i - xi0) ^ 2 / tau ^ 2).

(** The constant in front of the drift formula, sign apart. *)
Definition drift_scale (a_0 tau : R) : R :=
  0.125 * sqrt (PI / 2) * a_0 ^ 2 * tau.

(** The drift formula with the value [e] in the place of the error
    function: [zdrift_at] is [zdrift_with] at [erf(sqrt(2)*(xi-xi0)/tau)]. *)
Definition zdrift_with (a_0 tau e : R) : R :=
  - 0.125 * sqrt (PI / 2) * a_0 ^ 2 * tau * (e - 1).

(** The area under the gaussian from 0 to [u]:
    [erf u = 2/sqrt(pi) * gauss_area u]. *)
Definition gauss_area (u : R) : R := RiemannInt (gauss_integrable 0 u).

(** The integrand [exp(-x^2*(1+t^2))/(1+t^2)] and its derivative in [x];
    the integral of the first over [0 <= t <= 1] is what the square of
    [gauss_area x] lacks to [pi/4]. *)
Definition kernel (x t : R) : R :=
  exp (- (x * x) * (1 + t * t)) * / (1 + t * t).

Definition kernel_dx (x t : R) : R :=
  - 2 * x * exp (- (x * x) * (1 + t * t)).

Definition kernel_integrable (x : R) : Riemann_integrable (kernel x) 0 1.
Proof.
  assert (Hs : continuity (fun t => 1 + t * t)).
  { apply (continuity_plus (fct_cte 1) (fun t => t * t)).
    - apply continuity_const. intros u v. reflexivity.
    - apply continuity_mult; apply derivable_continuous, derivable_id. }
  apply continuity_implies_RiemannInt; [lra |]. intros t _.
  apply (continuity_mult (fun t => exp (- (x * x) * (1 + t * t)))
                         (fun t => / (1 + t * t))).
  - apply (continuity_comp (fun t => - (x * x) * (1 + t * t)) exp).
    + apply (continuity_scal (fun t => 1 + t * t) (- (x * x))). exact Hs.
    + apply derivable_continuous, derivable_exp.
  - apply (continuity_inv (fun t => 1 + t * t)); [exact Hs |].
    intros v. nra.
Defined.

Definition kernel_dx_integrable (x : R) :
  Riemann_integrable (kernel_dx x) 0 1.
Proof.
  apply continuity_implies_RiemannInt; [lra |]. intros t _.
  apply (continuity_scal (fun t => exp (- (x * x) * (1 + t * t))) (- 2 * x)).
  apply (continuity_comp (fun t => - (x * x) * (1 + t * t)) exp).
  - apply (continuity_scal (fun t => 1 + t * t) (- (x * x))).
    apply (continuity_plus (fct_cte 1) (fun t => t * t)).
    + apply continuity_const. intros u v. reflexivity.
    + apply continuity_mult; apply derivable_continuous, derivable_id.
  - apply derivable_continuous, derivable_exp.
Defined.

Definition area_complement (x : R) : R := RiemannInt (kernel_integrable x).

(** [f] tends to [l] as its argument grows to plus infinity. *)
Definition tends_at_pinf (f : R -> R) (l : R) : Prop :=
  forall eps, 0 < eps -> exists M, forall u, M < u -> Rabs (f u - l) < eps.

(** [f] tends to [l] as its argument falls to minus infinity. *)
Definition tends_at_minf (f : R -> R) (l : R) : Prop :=
  forall eps, 0 < eps -> exists M, forall u, u < M -> Rabs (f u - l) < eps.

(** Products and powers with a zero factor. *)
Ltac vanish :=
  repeat (rewrite Rmult_0_l || rewrite Rmult_0_r || rewrite Rplus_0_r
          || rewrite Rplus_0_l || rewrite pow_i by lia);
  try reflexivity.

(** * Arrays: indexing lemmas *)

Section ArrayLemmas.

Context {A : Type}.

Lemma length_map2 (f : A -> A -> A) (u v : list A) :
  length (map2 f u v) = Nat.min (length u) (length v).
Proof.
  revert v; induction u as [| p u IH]; intros [| q v]; simpl; auto.
Qed.

Lemma nth_error_map2 (f : A -> A -> A) (u v : list A) (i : nat) (p q : A) :
  nth_error u i = Some p ->
  nth_error v i = Some q ->
  nth_error (map2 f u v) i = Some (f p q).
Proof.
  revert v i; induction u as [| p0 u IH]; intros [| q0 v] [| i]; simpl;
    try discriminate.
  - intros [= ->] [= ->]; reflexivity.
  - apply IH.
Qed.

Lemma nth_error_tl (l : list A) (i : nat) :
  nth_error (tl l) i = nth_error l (S i).
Proof. destruct l; [destruct i |]; reflexivity. Qed.

Lemma nth_error_removelast (l : list A) (i : nat) :
  (S i < length l)%nat -> nth_error (removelast l) i = nth_error l i.
Proof.
  intros Hi. rewrite removelast_firstn_len, nth_error_firstn.
  destruct (Nat.ltb_spec i (pred (length l))); [reflexivity | lia].
Qed.

Lemma length_removelast (l : list A) :
  length (removelast l) = pred (length l).
Proof.
  rewrite removelast_firstn_len, length_firstn. lia.
Qed.

Lemma length_set_last (y : list A) (stop : A) :
  length (set_last y stop) = length y.
Proof.
  destruct y as [| v y]; [reflexivity |].
  unfold set_last. rewrite length_app, length_removelast. simpl. lia.
Qed.

Lemma nth_error_set_last (y : list A) (stop : A) (i : nat) :
  nth_error (set_last y stop) i =
  if Nat.eqb (S i) (length y) then Some stop else nth_error y i.
Proof.
  destruct y as [| v y].
  - simpl. destruct i; reflexivity.
  - unfold set_last. set (l := v :: y).
    assert (Hl : length l = S (length y)) by reflexivity.
    rewrite nth_error_app, length_removelast, Hl. simpl pred.
    destruct (Nat.eqb_spec (S i) (S (length y))) as [He | Hne].
    + destruct (Nat.ltb_spec i (length y)); [lia |].
      replace (i - length y)%nat with 0%nat by lia. reflexivity.
    + destruct (Nat.ltb_spec i (length y)) as [Hlt | Hge].
      * apply nth_error_removelast. lia.
      * replace (nth_error l i) with (@None A)
          by (symmetry; apply nth_error_None; lia).
        destruct (i - length y)%nat as [| k] eqn:Hk; [lia |].
        simpl. destruct k; reflexivity.
Qed.

Lemma getitem_in_range (l : list A) (i : nat) (v : A) :
  nth_error l i = Some v -> getitem l i = Ok v.
Proof. intros H. unfold getitem. rewrite H. reflexivity. Qed.

Lemma getitem_out_of_range (l : list A) (i : nat) :
  (length l <= i)%nat -> getitem l i = Raise IndexError.
Proof.
  intros H. unfold getitem.
  replace (nth_error l i) with (@None A)
    by (symmetry; apply nth_error_None; exact H).
  reflexivity.
Qed.

(** Properties of every element. *)

Lemma Forall_removelast (P : A -> Prop) (l : list A) :
  Forall P l -> Forall P (removelast l).
Proof.
  induction l as [| v l IH]; intros H; [constructor |].
  inversion H as [| ? ? Hv Hl]; subst.
  destruct l as [| w l]; [constructor |].
  constructor; [exact Hv | apply IH; exact Hl].
Qed.

Lemma Forall_set_last (P : A -> Prop) (y : list A) (stop : A) :
  Forall P y -> P stop -> Forall P (set_last y stop).
Proof.
  intros Hy Hs. destruct y as [| v y]; [constructor |].
  unfold set_last. apply Forall_app. split.
  - apply Forall_removelast. exact Hy.
  - constructor; [exact Hs | constructor].
Qed.

Lemma Forall_map_all {B : Type} (P : A -> Prop) (f : B -> A) (l : list B) :
  (forall v, P (f v)) -> Forall P (map f l).
Proof.
  intros H. induction l; simpl; constructor; auto.
Qed.

(** Constant arrays. *)

Lemma map_Forall_const {B : Type} (f : A -> B) (c : B) (l : list A) :
  Forall (fun v => f v = c) l -> map f l = repeat c (length l).
Proof.
  induction 1 as [| v l Hv _ IH]; simpl; [reflexivity |].
  rewrite Hv, IH. reflexivity.
Qed.

Lemma map2_repeat_l (f : A -> A -> A) (c c' : A) (n : nat) (l : list A) :
  (forall v, f c v = c') -> length l = n -> map2 f (repeat c n) l = repeat c' n.
Proof.
  intros Hf. revert l. induction n as [| n IH]; intros [| v l] Hl;
    simpl in *; try discriminate; [reflexivity |].
  rewrite Hf, IH by lia. reflexivity.
Qed.

Lemma removelast_repeat (c : A) (n : nat) :
  removelast (repeat c (S n)) = repeat c n.
Proof.
  induction n as [| n IH]; [reflexivity |].
  change (repeat c (S (S n))) with (c :: repeat c (S n)).
  cbn [removelast]. rewrite IH. reflexivity.
Qed.

End ArrayLemmas.

Section RealArrayLemmas.

Lemma nth_error_in_range (l : ndarray) (i : nat) :
  (i < length l)%nat -> nth_error l i = Some (at_ l i).
Proof.
  intros Hi. unfold at_. apply nth_error_nth'. exact Hi.
Qed.

Lemma nth_error_at (l : ndarray) (i : nat) (v : R) :
  nth_error l i = Some v -> at_ l i = v.
Proof.
  intros H. unfold at_. apply nth_error_nth. exact H.
Qed.

Lemma length_arange (n : nat) : length (arange n) = n.
Proof. unfold arange. rewrite length_map, length_seq. reflexivity. Qed.

Lemma nth_error_arange (n i : nat) :
  (i < n)%nat -> nth_error (arange n) i = Some (INR i).
Proof.
  intros Hi. unfold arange. rewrite nth_error_map, nth_error_seq.
  destruct (Nat.ltb_spec i n); [reflexivity | lia].
Qed.

End RealArrayLemmas.

(** * The library operations *)

Section Linspace.

Variables start stop : R.

Lemma linspace_negative (num : Z) :
  (num < 0)%Z -> linspace start stop num = Raise ValueError.
Proof.
  intros Hn. unfold linspace.
  destruct (Z.ltb_spec num 0); [reflexivity | lia].
Qed.

Lemma linspace_length (num : Z) :
  (0 <= num)%Z ->
  exists l, linspace start stop num = Ok l /\ length l = Z.to_nat num.
Proof.
  intros Hn. unfold linspace.
  destruct (Z.ltb_spec num 0); [lia |].
  eexists; split; [reflexivity |].
  destruct (Z.ltb_spec 1 num); destruct (Z.ltb_spec 0 (num - 1));
    try destruct (Req_dec_T _ 0);
    rewrite ?length_set_last, !length_map, length_arange; reflexivity.
Qed.

(** The sample computed at the last index is [stop] already. *)
Lemma linspace_last (num : Z) :
  (2 <= num)%Z -> linspace_at start stop num (pred (Z.to_nat num)) = stop.
Proof.
  intros Hn. unfold linspace_at.
  rewrite INR_IZR_INZ.
  replace (Z.of_nat (pred (Z.to_nat num))) with (num - 1)%Z by lia.
  assert (Hd : IZR (num - 1) <> 0) by (apply not_0_IZR; lia).
  field. exact Hd.
Qed.

Lemma linspace_samples (num : Z) :
  (2 <= num)%Z ->
  exists l,
    linspace start stop num = Ok l /\
    length l = Z.to_nat num /\
    forall i, (i < Z.to_nat num)%nat ->
              nth_error l i = Some (linspace_at start stop num i).
Proof.
  intros Hn. unfold linspace.
  destruct (Z.ltb_spec num 0); [lia |].
  destruct (Z.ltb_spec 0 (num - 1)); [| lia].
  destruct (Z.ltb_spec 1 num); [| lia].
  assert (Hd : IZR (num - 1) <> 0) by (apply not_0_IZR; lia).
  eexists; split; [reflexivity |]. split.
  - destruct (Req_dec_T _ 0);
      rewrite length_set_last, !length_map, length_arange; reflexivity.
  - intros i Hi.
    rewrite nth_error_set_last.
    replace (length _) with (Z.to_nat num)
      by (destruct (Req_dec_T _ 0);
          rewrite !length_map, length_arange; reflexivity).
    destruct (Nat.eqb_spec (S i) (Z.to_nat num)) as [He | Hne].
    + f_equal. replace i with (pred (Z.to_nat num)) by lia.
      rewrite linspace_last by exact Hn. ring.
    + destruct (Req_dec_T _ 0);
        rewrite !nth_error_map, (nth_error_arange _ _ Hi); cbn [option_map];
        f_equal; unfold linspace_at; field; exact Hd.
Qed.

End Linspace.

Section Cumtrapz.

Lemma psum_ext (f g : nat -> R) (k : nat) :
  (forall i, (i < k)%nat -> f i = g i) -> psum f k = psum g k.
Proof.
  induction k as [| k IH]; intros H; simpl; [reflexivity |].
  rewrite IH, (H k) by (intros; try apply H; lia). reflexivity.
Qed.

Lemma psum_scal (c : R) (f : nat -> R) (k : nat) :
  psum (fun i => c * f i) k = c * psum f k.
Proof.
  induction k as [| k IH]; simpl; [ring | rewrite IH; ring].
Qed.

Lemma psum_shift (f : nat -> R) (k : nat) :
  psum f (S k) = f 0%nat + psum (fun i => f (S i)) k.
Proof.
  induction k as [| k IH]; [simpl; ring |].
  change (psum f (S (S k))) with (psum f (S k) + f (S k)).
  rewrite IH. simpl. ring.
Qed.

Lemma length_cumsum_from (acc : R) (y : ndarray) :
  length (cumsum_from acc y) = length y.
Proof.
  revert acc; induction y as [| v y IH]; intros acc; simpl;
    [reflexivity | rewrite IH; reflexivity].
Qed.

Lemma length_cumsum (y : ndarray) : length (cumsum y) = length y.
Proof.
  destruct y as [| v y]; simpl; [| rewrite length_cumsum_from]; reflexivity.
Qed.

Lemma nth_error_cumsum_from (acc : R) (y : ndarray) (k : nat) :
  (k < length y)%nat ->
  nth_error (cumsum_from acc y) k = Some (acc + psum (at_ y) (S k)).
Proof.
  revert acc k; induction y as [| v y IH]; intros acc k Hk; simpl in Hk;
    [lia |].
  destruct k as [| k].
  - simpl. unfold at_. simpl. f_equal. ring.
  - cbn [cumsum_from nth_error]. rewrite IH by lia.
    rewrite (psum_shift (at_ (v :: y)) (S k)). f_equal.
    unfold at_. cbn [nth]. ring.
Qed.

(** Element [k] of [np.cumsum(y)] is [y[0] + ... + y[k]]. *)
Lemma nth_error_cumsum (y : ndarray) (k : nat) :
  (k < length y)%nat ->
  nth_error (cumsum y) k = Some (psum (at_ y) (S k)).
Proof.
  destruct y as [| v y]; intros Hk; simpl in Hk; [lia |].
  destruct k as [| k].
  - simpl. unfold at_. simpl. f_equal. ring.
  - cbn [cumsum nth_error]. rewrite nth_error_cumsum_from by lia.
    rewrite (psum_shift (at_ (v :: y)) (S k)). reflexivity.
Qed.

Lemma length_cumtrapz (y : ndarray) (initial : R) :
  y <> [] -> length (cumtrapz y initial) = length y.
Proof.
  intros Hy. unfold cumtrapz. simpl.
  rewrite length_cumsum, length_map2, length_removelast.
  destruct y as [| v y]; [congruence | simpl; lia].
Qed.

(** Element [k >= 1] of the cumulative trapeze is the sum of the first
    [k] trapezes of unit width; element [0] is [initial]. *)
Lemma nth_error_cumtrapz (y : ndarray) (initial : R) (k : nat) :
  (S k < length y)%nat ->
  nth_error (cumtrapz y initial) (S k) =
  Some (psum (fun i => (at_ y i + at_ y (S i)) / 2) (S k)).
Proof.
  intros Hk. unfold cumtrapz. cbn [nth_error].
  rewrite nth_error_cumsum
    by (rewrite length_map2, length_removelast;
        destruct y; simpl in *; lia).
  f_equal. apply psum_ext. intros i Hi.
  apply nth_error_at.
  rewrite (nth_error_map2 _ _ _ _ (at_ y (S i)) (at_ y i)).
  - f_equal. field.
  - rewrite nth_error_tl. apply nth_error_in_range. lia.
  - rewrite nth_error_removelast by lia. apply nth_error_in_range. lia.
Qed.

(** One trajectory of the cell "numerical solutions for x and z":
    [-cumtrapz(p, initial=0.)*d] at index [k]. *)
Lemma trajectory_nth (p : ndarray) (d : R) (k : nat) :
  (k < length p)%nat ->
  nth_error (map (fun c => - c * d) (cumtrapz p 0)) k =
  Some (psum (fun i => - 0.5 * (at_ p i + at_ p (S i)) * d) k).
Proof.
  intros Hk. rewrite nth_error_map. destruct k as [| k].
  - simpl. f_equal. ring.
  - rewrite nth_error_cumtrapz by exact Hk. cbn [option_map]. f_equal.
    rewrite (psum_ext (fun i => - 0.5 * (at_ p i + at_ p (S i)) * d)
                      (fun i => - d * ((at_ p i + at_ p (S i)) / 2)))
      by (intros; cbv beta; nra).
    rewrite psum_scal. ring.
Qed.

Lemma trajectory_step (p : ndarray) (d : R) (k : nat) :
  psum (fun i => - 0.5 * (at_ p i + at_ p (S i)) * d) (S k)
  - psum (fun i => - 0.5 * (at_ p i + at_ p (S i)) * d) k
  = - 0.5 * (at_ p k + at_ p (S k)) * d.
Proof. simpl. lra. Qed.

End Cumtrapz.

(** The library operations on small inputs. *)

Example linspace_0_1_5 :
  exists l, linspace 0 1 5 = Ok l /\
            map (at_ l) [0; 1; 2; 3; 4]%nat = [0; 0.25; 0.5; 0.75; 1].
Proof.
  destruct (linspace_samples 0 1 5 ltac:(lia)) as (l & Hl & _ & Hnth).
  exists l. split; [exact Hl |].
  cbn [map].
  rewrite (nth_error_at _ _ _ (Hnth 0%nat ltac:(lia))).
  rewrite (nth_error_at _ _ _ (Hnth 1%nat ltac:(lia))).
  rewrite (nth_error_at _ _ _ (Hnth 2%nat ltac:(lia))).
  rewrite (nth_error_at _ _ _ (Hnth 3%nat ltac:(lia))).
  rewrite (nth_error_at _ _ _ (Hnth 4%nat ltac:(lia))).
  unfold linspace_at. simpl. repeat (f_equal; try lra).
Qed.

Example linspace_one_sample :
  linspace 3 7 1 = Ok [INR 0 * (7 * 1 - 3 * 1) + 3 * 1].
Proof. reflexivity. Qed.

Example linspace_no_sample : linspace 3 7 0 = Ok [].
Proof. reflexivity. Qed.

Example cumsum_1_2_4 : cumsum [1; 2; 4] = [1; 1 + 2; 1 + 2 + 4].
Proof. reflexivity. Qed.

Example cumtrapz_1_2_4 :
  map (at_ (cumtrapz [1; 2; 4] 0)) [0; 1; 2]%nat = [0; 1.5; 4.5].
Proof.
  unfold at_. simpl. repeat (f_equal; try lra).
Qed.

(** * The grid *)

Section Grid.

Variable tau : R.

Lemma grid_sample (Nint : Z) (i : nat) :
  (2 <= Nint)%Z ->
  linspace_at (4 * tau) (-4 * tau) Nint i = 4 * tau + INR i * spacing tau Nint.
Proof.
  intros Hn. unfold linspace_at, spacing.
  assert (Hd : IZR (Nint - 1) <> 0) by (apply not_0_IZR; lia).
  field. exact Hd.
Qed.

Lemma spacing_neg (Nint : Z) :
  (2 <= Nint)%Z -> 0 < tau -> spacing tau Nint < 0.
Proof.
  intros Hn Ht. unfold spacing.
  assert (Hd : 0 < IZR (Nint - 1)) by (apply IZR_lt; lia).
  assert (Hi : 0 < / IZR (Nint - 1)) by (apply Rinv_0_lt_compat; exact Hd).
  unfold Rdiv. nra.
Qed.

Lemma set_up_xi_space_ok (Nint : Z) :
  (3 <= Nint)%Z ->
  exists l,
    set_up_xi_space tau Nint = Ok (l, spacing tau Nint) /\
    length l = Z.to_nat Nint /\
    forall i, (i < Z.to_nat Nint)%nat ->
              nth_error l i = Some (4 * tau + INR i * spacing tau Nint).
Proof.
  intros Hn.
  destruct (linspace_samples (4 * tau) (-4 * tau) Nint) as (l & Hl & Hlen & Hnth);
    [lia |].
  exists l. split; [| split; [exact Hlen |]].
  - unfold set_up_xi_space. rewrite Hl. cbn [bind].
    rewrite (getitem_in_range l 2 _ (Hnth 2%nat ltac:(lia))). cbn [bind].
    rewrite (getitem_in_range l 1 _ (Hnth 1%nat ltac:(lia))). cbn [bind].
    do 2 f_equal. rewrite !grid_sample by lia. simpl INR. ring.
  - intros i Hi. rewrite (Hnth i Hi), grid_sample by lia. reflexivity.
Qed.

Lemma set_up_xi_space_short (Nint : Z) :
  (0 <= Nint < 3)%Z -> set_up_xi_space tau Nint = Raise IndexError.
Proof.
  intros Hn.
  destruct (linspace_length (4 * tau) (-4 * tau) Nint) as (l & Hl & Hlen);
    [lia |].
  unfold set_up_xi_space. rewrite Hl. cbn [bind].
  rewrite getitem_out_of_range by lia. reflexivity.
Qed.

Lemma set_up_xi_space_negative (Nint : Z) :
  (Nint < 0)%Z -> set_up_xi_space tau Nint = Raise ValueError.
Proof.
  intros Hn. unfold set_up_xi_space.
  rewrite linspace_negative by exact Hn. reflexivity.
Qed.

Lemma set_up_xi_space_inv (Nint : Z) (g : ndarray * R) :
  set_up_xi_space tau Nint = Ok g -> (3 <= Nint)%Z.
Proof.
  intros Hg.
  destruct (Z_lt_le_dec Nint 0) as [Hneg | Hpos].
  - rewrite set_up_xi_space_negative in Hg by exact Hneg. discriminate.
  - destruct (Z_lt_le_dec Nint 3) as [Hlt | Hge]; [| exact Hge].
    rewrite set_up_xi_space_short in Hg by lia. discriminate.
Qed.

End Grid.

(** * The run as a whole *)

Section Run.

Variables a_0 tau xi0 : R.
Variable Nint : Z.

(** The notebook's assignments, read off a finished run. *)
Lemma run_inv (nb : notebook) :
  run a_0 tau xi0 Nint = Ok nb ->
  set_up_xi_space tau Nint = Ok (xi nb, dxi nb) /\
  a_ nb = map (fun xi_i => a_0 * exp (- (xi_i - xi0) ^ 2 / tau ^ 2)) (xi nb) /\
  a nb = map2 Rmult (a_ nb) (map sin (xi nb)) /\
  px nb = a nb /\
  pz nb = map (fun p => 0.5 * p ^ 2) (px nb) /\
  gamma nb = lorentz_factor (px nb) (pz nb) /\
  x nb = map (fun c => - c * dxi nb) (cumtrapz (px nb) 0) /\
  z nb = map (fun c => - c * dxi nb) (cumtrapz (pz nb) 0) /\
  xan nb = map2 Rmult (a_ nb) (map cos (xi nb)) /\
  zdrift nb = map (zdrift_at a_0 tau xi0) (xi nb) /\
  zan nb = map2 Rplus (zdrift nb)
             (map2 Rmult (map (fun e => 0.125 * e ^ 2) (a_ nb))
                         (map (fun xi_i => sin (2 * xi_i)) (xi nb))).
Proof.
  unfold run.
  destruct (set_up_xi_space tau Nint) as [[l d] | e]; cbn [bind];
    [| discriminate].
  intros [= <-]. cbn. repeat split.
Qed.

(** The run completes as soon as the grid has three samples. *)
Lemma run_total :
  (3 <= Nint)%Z -> exists nb, run a_0 tau xi0 Nint = Ok nb.
Proof.
  intros Hn. destruct (set_up_xi_space_ok tau Nint Hn) as (l & Hl & _).
  unfold run. rewrite Hl. cbn. eexists; reflexivity.
Qed.

(** Every array has the length of the grid. *)
Lemma run_shapes (nb : notebook) :
  run a_0 tau xi0 Nint = Ok nb ->
  let n := length (xi nb) in
  (3 <= Nint)%Z /\ n = Z.to_nat Nint /\
  length (a_ nb) = n /\ length (a nb) = n /\ length (px nb) = n /\
  length (pz nb) = n /\ length (gamma nb) = n /\ length (x nb) = n /\
  length (z nb) = n /\ length (xan nb) = n /\ length (zdrift nb) = n /\
  length (zan nb) = n.
Proof.
  intros Hrun n.
  destruct (run_inv nb Hrun)
    as (Hg & Ha_ & Ha & Hpx & Hpz & Hgam & Hx & Hz & Hxan & Hzd & Hzan).
  pose proof (set_up_xi_space_inv _ _ _ Hg) as HN.
  destruct (set_up_xi_space_ok tau Nint HN) as (l & Hl & Hlen & _).
  rewrite Hl in Hg. injection Hg as Hxi Hdxi.
  assert (Hn : n = Z.to_nat Nint) by (unfold n; rewrite <- Hxi; exact Hlen).
  assert (L1 : length (a_ nb) = n) by (rewrite Ha_, length_map; reflexivity).
  assert (L2 : length (a nb) = n)
    by (rewrite Ha, length_map2, length_map, L1; fold n; lia).
  assert (L3 : length (px nb) = n) by (rewrite Hpx; exact L2).
  assert (L4 : length (pz nb) = n) by (rewrite Hpz, length_map; exact L3).
  assert (L5 : length (zdrift nb) = n) by (rewrite Hzd, length_map; reflexivity).
  assert (Hne : forall l0 : ndarray, length l0 = n -> l0 <> []).
  { intros l0 H0 ->. simpl in H0. lia. }
  repeat split; try assumption.
  - rewrite Hgam. unfold lorentz_factor. rewrite length_map2, L3, L4. lia.
  - rewrite Hx, length_map, length_cumtrapz by (apply Hne; exact L3). exact L3.
  - rewrite Hz, length_map, length_cumtrapz by (apply Hne; exact L4). exact L4.
  - rewrite Hxan, length_map2, length_map, L1. fold n. lia.
  - rewrite Hzan, !length_map2, !length_map, L5, L1. fold n. lia.
Qed.

(** Every array at one index, in terms of the phase at that index. *)
Lemma run_pointwise (nb : notebook) (i : nat) :
  run a_0 tau xi0 Nint = Ok nb ->
  (i < Z.to_nat Nint)%nat ->
  let xi_i := 4 * tau + INR i * spacing tau Nint in
  let e_i := envelope_at a_0 tau xi0 xi_i in
  let p_i := e_i * sin xi_i in
  dxi nb = spacing tau Nint /\
  nth_error (xi nb) i = Some xi_i /\
  nth_error (a_ nb) i = Some e_i /\
  nth_error (a nb) i = Some p_i /\
  nth_error (px nb) i = Some p_i /\
  nth_error (pz nb) i = Some (0.5 * p_i ^ 2) /\
  nth_error (gamma nb) i = Some (sqrt (1 + p_i ^ 2 + (0.5 * p_i ^ 2) ^ 2)) /\
  nth_error (xan nb) i = Some (e_i * cos xi_i) /\
  nth_error (zdrift nb) i = Some (zdrift_at a_0 tau xi0 xi_i) /\
  nth_error (zan nb) i =
    Some (zdrift_at a_0 tau xi0 xi_i + 0.125 * e_i ^ 2 * sin (2 * xi_i)).
Proof.
  intros Hrun Hi xi_i e_i p_i.
  destruct (run_shapes nb Hrun) as (HN & _).
  destruct (run_inv nb Hrun)
    as (Hg & Ha_ & Ha & Hpx & Hpz & Hgam & _ & _ & Hxan & Hzd & Hzan).
  destruct (set_up_xi_space_ok tau Nint HN) as (l & Hl & _ & Hnth).
  rewrite Hl in Hg. injection Hg as Hxi Hdxi.
  assert (Exi : nth_error (xi nb) i = Some xi_i)
    by (rewrite <- Hxi; apply Hnth; exact Hi).
  assert (Ee : nth_error (a_ nb) i = Some e_i)
    by (rewrite Ha_;
        apply (map_nth_error (fun v => a_0 * exp (- (v - xi0) ^ 2 / tau ^ 2)));
        exact Exi).
  assert (Ea : nth_error (a nb) i = Some p_i)
    by (rewrite Ha; apply nth_error_map2;
        [exact Ee | apply map_nth_error; exact Exi]).
  assert (Ep : nth_error (px nb) i = Some p_i) by (rewrite Hpx; exact Ea).
  assert (Eq : nth_error (pz nb) i = Some (0.5 * p_i ^ 2))
    by (rewrite Hpz; apply (map_nth_error (fun p => 0.5 * p ^ 2)); exact Ep).
  assert (Ez : nth_error (zdrift nb) i = Some (zdrift_at a_0 tau xi0 xi_i))
    by (rewrite Hzd; apply map_nth_error; exact Exi).
  repeat split; try assumption.
  - symmetry. exact Hdxi.
  - rewrite Hgam. unfold lorentz_factor.
    apply (nth_error_map2 (fun u v => sqrt (1 + u ^ 2 + v ^ 2)) _ _ _ _ _ Ep Eq).
  - rewrite Hxan. apply nth_error_map2; [exact Ee |].
    apply map_nth_error. exact Exi.
  - rewrite Hzan. apply (nth_error_map2 Rplus _ _ _ _ _ Ez).
    apply nth_error_map2.
    + apply (map_nth_error (fun e => 0.125 * e ^ 2)). exact Ee.
    + apply (map_nth_error (fun v => sin (2 * v))). exact Exi.
Qed.

End Run.

(** * The error function is increasing *)

Section Erf.

Lemma erf_0 : erf 0 = 0.
Proof. unfold erf. rewrite RiemannInt_P9. lra. Qed.

(** Chasles: the integral from [u] to [v]. *)
Lemma erf_diff (u v : R) :
  erf v - erf u = 2 / sqrt PI * RiemannInt (gauss_integrable u v).
Proof.
  unfold erf.
  rewrite <- (RiemannInt_P26 (gauss_integrable 0 u) (gauss_integrable u v)
                             (gauss_integrable 0 v)).
  lra.
Qed.

Lemma gauss_lower (u v t : R) :
  u < t < v -> exp (- (u * u + v * v)) <= gauss t.
Proof.
  intros [Hu Hv]. unfold gauss.
  assert (H : - (u * u + v * v) <= - (t * t))
    by (destruct (Rle_dec 0 t); nra).
  destruct H as [H | H]; [left; apply exp_increasing; exact H |].
  right; rewrite H; reflexivity.
Qed.

Lemma sqrt_PI_pos : 0 < sqrt PI.
Proof. apply sqrt_lt_R0, PI_RGT_0. Qed.

Lemma erf_increasing (u v : R) : u < v -> erf u < erf v.
Proof.
  intros Huv.
  apply Rlt_0_minus. rewrite erf_diff.
  assert (Hc : 0 < exp (- (u * u + v * v)) * (v - u))
    by (apply Rmult_lt_0_compat; [apply exp_pos | lra]).
  assert (Hint : exp (- (u * u + v * v)) * (v - u)
                 <= RiemannInt (gauss_integrable u v)).
  { rewrite <- (RiemannInt_P15 (RiemannInt_P14 u v (exp (- (u * u + v * v))))).
    apply RiemannInt_P19; [lra |].
    intros t Ht. unfold fct_cte. apply gauss_lower; exact Ht. }
  apply Rmult_lt_0_compat; [| lra].
  apply Rdiv_lt_0_compat; [lra | apply sqrt_PI_pos].
Qed.

End Erf.

(** * The limits of the error function *)

Section ErfLimits.

Lemma gauss_even (t : R) : gauss (- t) = gauss t.
Proof. unfold gauss. f_equal. ring. Qed.

Lemma gauss_integral_nonneg (lo hi : R) :
  lo <= hi -> 0 <= RiemannInt (gauss_integrable lo hi).
Proof.
  intros H.
  rewrite <- (Rmult_0_l (hi - lo)).
  rewrite <- (RiemannInt_P15 (RiemannInt_P14 lo hi 0)).
  apply RiemannInt_P19; [exact H |].
  intros t _. unfold fct_cte, gauss. left. apply exp_pos.
Qed.

Lemma gauss_integral_le (lo hi c : R) :
  lo <= hi ->
  (forall t, lo < t < hi -> gauss t <= c) ->
  RiemannInt (gauss_integrable lo hi) <= c * (hi - lo).
Proof.
  intros H Hc.
  rewrite <- (RiemannInt_P15 (RiemannInt_P14 lo hi c)).
  apply RiemannInt_P19; [exact H |].
  intros t Ht. unfold fct_cte. apply Hc. exact Ht.
Qed.

Lemma gauss_chasles (p q r : R) :
  RiemannInt (gauss_integrable p q) + RiemannInt (gauss_integrable q r)
  = RiemannInt (gauss_integrable p r).
Proof. apply RiemannInt_P26. Qed.

Lemma gauss_continuity : continuity gauss.
Proof.
  unfold gauss.
  apply (continuity_comp (fun t => - (t * t)) exp).
  - apply continuity_opp.
    apply continuity_mult; apply derivable_continuous, derivable_id.
  - apply derivable_continuous, derivable_exp.
Qed.

Lemma gauss_integral_ge (lo hi c : R) :
  lo <= hi ->
  (forall t, lo < t < hi -> c <= gauss t) ->
  c * (hi - lo) <= RiemannInt (gauss_integrable lo hi).
Proof.
  intros H Hc.
  rewrite <- (RiemannInt_P15 (RiemannInt_P14 lo hi c)).
  apply RiemannInt_P19; [exact H |].
  intros t Ht. unfold fct_cte. apply Hc. exact Ht.
Qed.

Lemma gauss_near (x eps : R) :
  0 < eps ->
  exists alp, 0 < alp /\
    forall t, Rabs (t - x) < alp -> gauss x - eps <= gauss t <= gauss x + eps.
Proof.
  intros Heps.
  destruct (gauss_continuity x eps Heps) as [alp [Halp Hc]].
  exists alp. split; [exact Halp |].
  intros t Ht.
  destruct (Req_dec x t) as [<- | Hne]; [lra |].
  assert (H : Rabs (gauss t - gauss x) < eps).
  { apply (Hc t). split; [split; [exact I | exact Hne] | exact Ht]. }
  apply Rabs_def2 in H. lra.
Qed.

Lemma gauss_area_derivable (x : R) :
  derivable_pt_lim gauss_area x (gauss x).
Proof.
  intros eps Heps.
  destruct (gauss_near x (eps / 2) ltac:(lra)) as [alp [Halp Hc]].
  exists (mkposreal alp Halp). simpl. intros h Hh Hlt.
  assert (Hch : gauss_area (x + h) - gauss_area x
                = RiemannInt (gauss_integrable x (x + h))).
  { unfold gauss_area. rewrite <- (gauss_chasles 0 x (x + h)). ring. }
  rewrite Hch.
  destruct (Rlt_dec 0 h) as [Hpos | Hneg].
  - assert (H1 : RiemannInt (gauss_integrable x (x + h))
                 <= (gauss x + eps / 2) * (x + h - x)).
    { apply gauss_integral_le; [lra |]. intros t Ht. apply Hc.
      apply Rabs_def2 in Hlt. apply Rabs_def1; lra. }
    assert (H2 : (gauss x - eps / 2) * (x + h - x)
                 <= RiemannInt (gauss_integrable x (x + h))).
    { apply gauss_integral_ge; [lra |]. intros t Ht. apply Hc.
      apply Rabs_def2 in Hlt. apply Rabs_def1; lra. }
    set (I := RiemannInt (gauss_integrable x (x + h))) in *.
    assert (Hq : I = I / h * h) by (field; lra).
    set (q := I / h) in *.
    apply Rabs_def1; nra.
  - assert (Hh' : h < 0) by lra.
    assert (Hrev : RiemannInt (gauss_integrable x (x + h))
                   = - RiemannInt (gauss_integrable (x + h) x))
      by apply RiemannInt_P8.
    assert (H1 : RiemannInt (gauss_integrable (x + h) x)
                 <= (gauss x + eps / 2) * (x - (x + h))).
    { apply gauss_integral_le; [lra |]. intros t Ht. apply Hc.
      apply Rabs_def2 in Hlt. apply Rabs_def1; lra. }
    assert (H2 : (gauss x - eps / 2) * (x - (x + h))
                 <= RiemannInt (gauss_integrable (x + h) x)).
    { apply gauss_integral_ge; [lra |]. intros t Ht. apply Hc.
      apply Rabs_def2 in Hlt. apply Rabs_def1; lra. }
    rewrite Hrev.
    set (I := RiemannInt (gauss_integrable (x + h) x)) in *.
    assert (Hq : - I = - I / h * h) by (field; lra).
    set (q := - I / h) in *.
    apply Rabs_def1; nra.
Qed.

(** The fundamental theorem for a continuous derivative. *)
Lemma integral_of_derivative (F f : R -> R) (a b : R)
    (pr : Riemann_integrable f a b) :
  (forall t, derivable_pt_lim F t (f t)) ->
  continuity f ->
  RiemannInt pr = F b - F a.
Proof.
  intros HF Hc.
  exact (FTC_Riemann
           (mkC1 (c1 := F) (diff0 := fun t => exist _ (f t) (HF t)) Hc)
           pr).
Qed.

(** [exp d <= 1 + d + 2*d^2] for [d <= 1/2]. *)
Lemma exp_quadratic (d : R) :
  d <= / 2 -> 0 <= exp d - 1 - d <= 2 * (d * d).
Proof.
  intros Hd. split.
  - pose proof (exp_ineq1_le d). lra.
  - pose proof (exp_ineq1_le (- d)) as H.
    rewrite exp_Ropp in H.
    pose proof (exp_pos d) as Hp.
    assert (H1 : exp d * (1 - d) <= 1).
    { assert (Hx : exp d * / exp d = 1) by (field; lra).
      nra. }
    nra.
Qed.

Lemma kernel_remainder (x h t : R) :
  0 < t < 1 ->
  Rabs h <= 1 ->
  Rabs h * (4 * (2 * Rabs x + 1)) <= 1 ->
  Rabs (kernel (x + h) t - kernel x t - h * kernel_dx x t)
  <= (8 * ((2 * Rabs x + 1) * (2 * Rabs x + 1)) + 1) * (h * h).
Proof.
  intros Ht Hh1 Hh2.
  set (m := 2 * Rabs x + 1) in *.
  set (c := 1 + t * t).
  assert (Hc : 1 <= c <= 2) by (unfold c; nra).
  set (d := - c * (2 * x * h + h * h)).
  set (u := - (x * x) * c).
  assert (Hker1 : kernel (x + h) t = exp u * exp d * / c).
  { unfold kernel. fold c. rewrite <- exp_plus. f_equal. f_equal.
    unfold u, d. ring. }
  assert (Hker0 : kernel x t = exp u * / c) by reflexivity.
  assert (Hdx : kernel_dx x t = - 2 * x * exp u) by reflexivity.
  rewrite Hker1, Hker0, Hdx.
  assert (Hic : 0 < / c <= 1).
  { split; [apply Rinv_0_lt_compat; lra |].
    rewrite <- Rinv_1. apply Rinv_le_contravar; lra. }
  assert (Hcc : c * / c = 1) by (field; lra).
  set (r := exp d - 1 - d).
  assert (Hform : exp u * exp d * / c - exp u * / c - h * (- 2 * x * exp u)
                  = exp u * (r * / c - h * h)).
  { unfold r.
    replace (exp u * ((exp d - 1 - d) * / c - h * h))
      with (exp u * exp d * / c - exp u * / c
            - exp u * (d * / c + h * h)) by ring.
    replace (d * / c + h * h)
      with (- (2 * x * h) * (c * / c) + h * h * (1 - c * / c))
      by (unfold d; ring).
    rewrite Hcc. ring. }
  rewrite Hform.
  assert (Hu : 0 < exp u <= 1).
  { split; [apply exp_pos |].
    rewrite <- exp_0.
    assert (H : u <= 0) by (unfold u; nra).
    destruct H as [H | H]; [left; apply exp_increasing; exact H |].
    right. rewrite H. reflexivity. }
  pose proof (Rabs_pos h) as Hah. pose proof (Rabs_pos x) as Hax.
  assert (Hm : 1 <= m) by (unfold m; lra).
  assert (Hd : Rabs d <= 2 * Rabs h * m).
  { unfold d.
    replace (- c * (2 * x * h + h * h)) with (- c * h * (2 * x + h)) by ring.
    rewrite !Rabs_mult, Rabs_Ropp.
    rewrite (Rabs_right c) by lra.
    assert (H2 : Rabs (2 * x + h) <= m).
    { eapply Rle_trans; [apply Rabs_triang |].
      rewrite Rabs_mult, (Rabs_right 2) by lra. unfold m. lra. }
    pose proof (Rabs_pos (2 * x + h)) as H3.
    assert (H4 : c * Rabs (2 * x + h) <= 2 * m) by nra.
    replace (c * Rabs h * Rabs (2 * x + h))
      with (Rabs h * (c * Rabs (2 * x + h))) by ring.
    replace (2 * Rabs h * m) with (Rabs h * (2 * m)) by ring.
    apply Rmult_le_compat_l; assumption. }
  assert (Hd2 : d * d <= 4 * (h * h) * (m * m)).
  { replace (d * d) with (Rabs d * Rabs d)
      by (fold (Rsqr (Rabs d)); rewrite <- Rsqr_abs; reflexivity).
    replace (h * h) with (Rabs h * Rabs h)
      by (fold (Rsqr (Rabs h)); rewrite <- Rsqr_abs; reflexivity).
    pose proof (Rabs_pos d). nra. }
  assert (Hdh : d <= / 2).
  { pose proof (Rle_abs d). nra. }
  destruct (exp_quadratic d Hdh) as [Hr0 Hr1]. fold r in Hr0, Hr1.
  assert (Hhh : 0 <= h * h) by nra.
  assert (Hmm : 1 <= m * m) by nra.
  assert (Hrc : 0 <= r * / c <= 8 * (m * m) * (h * h)) by (split; nra).
  apply Rabs_le. split.
  - assert (- (h * h) <= exp u * (r * / c - h * h)) by nra. nra.
  - assert (exp u * (r * / c - h * h) <= r * / c) by nra. nra.
Qed.

Lemma one_plus_square_pos (t : R) : 0 < 1 + t * t.
Proof. nra. Qed.

Lemma continuity_square_shift : continuity (fun t => 1 + t * t).
Proof.
  apply (continuity_plus (fct_cte 1) (fun t => t * t)).
  - apply continuity_const. intros u v. reflexivity.
  - apply continuity_mult; apply derivable_continuous, derivable_id.
Qed.

Lemma continuity_inv_square_shift : continuity (fun t => / (1 + t * t)).
Proof.
  apply (continuity_inv (fun t => 1 + t * t)).
  - exact continuity_square_shift.
  - intros t. pose proof (one_plus_square_pos t). lra.
Qed.

Lemma continuity_exp_square_shift (x : R) :
  continuity (fun t => exp (- (x * x) * (1 + t * t))).
Proof.
  apply (continuity_comp (fun t => - (x * x) * (1 + t * t)) exp).
  - apply (continuity_scal (fun t => 1 + t * t) (- (x * x))).
    exact continuity_square_shift.
  - apply derivable_continuous, derivable_exp.
Qed.

Lemma kernel_dx_continuity (x : R) : continuity (kernel_dx x).
Proof.
  unfold kernel_dx.
  apply (continuity_scal (fun t => exp (- (x * x) * (1 + t * t))) (- 2 * x)).
  apply continuity_exp_square_shift.
Qed.

Lemma Rabs_le_between (v c : R) : Rabs v <= c -> - c <= v <= c.
Proof.
  intros H. pose proof (Rle_abs v) as H1. pose proof (Rle_abs (- v)) as H2.
  rewrite Rabs_Ropp in H2. lra.
Qed.

(** Integrals of functions that differ by a small remainder. *)
Lemma integral_remainder (f g d : R -> R) (a b h c : R)
    (prf : Riemann_integrable f a b) (prg : Riemann_integrable g a b)
    (prd : Riemann_integrable d a b) :
  a <= b ->
  (forall t, a < t < b -> Rabs (f t - g t - h * d t) <= c) ->
  Rabs (RiemannInt prf - RiemannInt prg - h * RiemannInt prd) <= c * (b - a).
Proof.
  intros Hab Hrem.
  pose (pr1 := RiemannInt_P10 (- 1) prf prg).
  pose (pr2 := RiemannInt_P10 (- h) pr1 prd).
  assert (Heq : RiemannInt prf - RiemannInt prg - h * RiemannInt prd
                = RiemannInt pr2).
  { rewrite (RiemannInt_P13 pr1 prd pr2), (RiemannInt_P13 prf prg pr1). ring. }
  rewrite Heq.
  apply Rabs_le. split.
  - replace (- (c * (b - a))) with (- c * (b - a)) by ring.
    rewrite <- (RiemannInt_P15 (RiemannInt_P14 a b (- c))).
    apply RiemannInt_P19; [exact Hab |].
    intros t Ht. unfold fct_cte.
    specialize (Hrem t Ht). apply Rabs_le_between in Hrem. lra.
  - rewrite <- (RiemannInt_P15 (RiemannInt_P14 a b c)).
    apply RiemannInt_P19; [exact Hab |].
    intros t Ht. unfold fct_cte.
    specialize (Hrem t Ht). apply Rabs_le_between in Hrem. lra.
Qed.

Lemma area_complement_derivable (x : R) :
  derivable_pt_lim area_complement x (RiemannInt (kernel_dx_integrable x)).
Proof.
  intros eps Heps.
  set (m := 2 * Rabs x + 1).
  set (K := 8 * (m * m) + 1).
  pose proof (Rabs_pos x) as Hax.
  assert (Hm : 1 <= m) by (unfold m; lra).
  assert (HK : 1 <= K) by (unfold K; nra).
  assert (Hdelta : 0 < Rmin (/ (4 * m)) (eps / K)).
  { apply Rmin_pos.
    - apply Rinv_0_lt_compat. lra.
    - apply Rdiv_lt_0_compat; lra. }
  exists (mkposreal _ Hdelta). simpl. intros h Hh Hlt.
  assert (H1 : Rabs h < / (4 * m))
    by (eapply Rlt_le_trans; [exact Hlt | apply Rmin_l]).
  assert (H2 : Rabs h < eps / K)
    by (eapply Rlt_le_trans; [exact Hlt | apply Rmin_r]).
  assert (Hinv : / (4 * m) * (4 * m) = 1) by (field; lra).
  assert (Hi4 : 0 < / (4 * m) <= / 4).
  { split; [apply Rinv_0_lt_compat; lra |].
    apply Rinv_le_contravar; lra. }
  pose proof (Rabs_pos h) as Hah.
  assert (Hrem : Rabs (area_complement (x + h) - area_complement x
                       - h * RiemannInt (kernel_dx_integrable x))
                 <= K * (h * h) * (1 - 0)).
  { unfold area_complement. apply integral_remainder; [lra |].
    intros t Ht. apply kernel_remainder; [exact Ht | lra |].
    fold m. nra. }
  set (D := RiemannInt (kernel_dx_integrable x)) in *.
  set (N := area_complement (x + h) - area_complement x - h * D) in *.
  replace ((area_complement (x + h) - area_complement x) / h - D) with (N / h)
    by (unfold N; field; exact Hh).
  unfold Rdiv. rewrite Rabs_mult, Rabs_inv.
  assert (Hahp : 0 < Rabs h) by (apply Rabs_pos_lt; exact Hh).
  assert (Hsq : h * h = Rabs h * Rabs h)
    by (fold (Rsqr (Rabs h)); rewrite <- Rsqr_abs; reflexivity).
  assert (HKe : eps / K * K = eps) by (field; lra).
  apply Rmult_lt_reg_r with (Rabs h); [exact Hahp |].
  rewrite Rmult_assoc, Rinv_l by lra. rewrite Rmult_1_r.
  rewrite Hsq in Hrem.
  assert (K * Rabs h < eps) by nra.
  nra.
Qed.

(** The derivative of the complement, evaluated. *)
Lemma kernel_dx_integral (x : R) :
  RiemannInt (kernel_dx_integrable x) = - 2 * gauss x * gauss_area x.
Proof.
  rewrite (integral_of_derivative
             (fun t => - 2 * gauss x * gauss_area (x * t)) (kernel_dx x)).
  - rewrite Rmult_1_r, Rmult_0_r.
    unfold gauss_area at 2. rewrite RiemannInt_P9. ring.
  - intros t.
    replace (kernel_dx x t)
      with (- 2 * gauss x * (gauss (x * t) * (0 * t + x * 1))).
    + apply (derivable_pt_lim_scal (fun t => gauss_area (x * t))).
      apply (derivable_pt_lim_comp (fun t => x * t) gauss_area).
      * apply (derivable_pt_lim_mult (fct_cte x) id).
        -- apply derivable_pt_lim_const.
        -- apply derivable_pt_lim_id.
      * apply gauss_area_derivable.
    + unfold kernel_dx, gauss.
      replace (exp (- (x * x) * (1 + t * t)))
        with (exp (- (x * x)) * exp (- (x * t * (x * t))))
        by (rewrite <- exp_plus; f_equal; ring).
      ring.
  - apply kernel_dx_continuity.
Qed.

Lemma area_complement_0 : area_complement 0 = PI / 4.
Proof.
  unfold area_complement.
  assert (Hint : Riemann_integrable (fun t => / (1 + t * t)) 0 1).
  { apply continuity_implies_RiemannInt; [lra |].
    intros t _. apply continuity_inv_square_shift. }
  rewrite (RiemannInt_P18 (kernel_integrable 0) Hint).
  - rewrite (integral_of_derivative atan (fun t => / (1 + t * t))).
    + rewrite atan_1, atan_0. lra.
    + intros t. replace (t * t) with (t ^ 2) by ring.
      apply derivable_pt_lim_atan.
    + exact continuity_inv_square_shift.
  - lra.
  - intros t _. unfold kernel.
    replace (- (0 * 0) * (1 + t * t)) with 0 by ring.
    rewrite exp_0. ring.
Qed.

Lemma integral_bounds (f : R -> R) (a b lo hi : R)
    (pr : Riemann_integrable f a b) :
  a <= b ->
  (forall t, a < t < b -> lo <= f t <= hi) ->
  lo * (b - a) <= RiemannInt pr <= hi * (b - a).
Proof.
  intros Hab Hf. split.
  - apply Rle_trans with (RiemannInt (RiemannInt_P14 a b lo));
      [rewrite RiemannInt_P15; lra |].
    apply RiemannInt_P19; [exact Hab |].
    intros t Ht. unfold fct_cte. apply Hf. exact Ht.
  - apply Rle_trans with (RiemannInt (RiemannInt_P14 a b hi));
      [| rewrite RiemannInt_P15; lra].
    apply RiemannInt_P19; [exact Hab |].
    intros t Ht. unfold fct_cte. apply Hf. exact Ht.
Qed.

Lemma area_complement_bounds (x : R) : 0 <= area_complement x <= gauss x.
Proof.
  assert (H : 0 * (1 - 0) <= area_complement x <= gauss x * (1 - 0)).
  { unfold area_complement. apply integral_bounds; [lra |].
    intros t _. unfold kernel, gauss.
    pose proof (one_plus_square_pos t) as Hc.
    assert (Hi : 0 < / (1 + t * t) <= 1).
    { split; [apply Rinv_0_lt_compat; exact Hc |].
      rewrite <- Rinv_1. apply Rinv_le_contravar; nra. }
    assert (He : exp (- (x * x) * (1 + t * t)) <= exp (- (x * x))).
    { assert (H : - (x * x) * (1 + t * t) <= - (x * x)) by nra.
      destruct H as [H | H]; [left; apply exp_increasing; exact H |].
      right. rewrite H. reflexivity. }
    pose proof (exp_pos (- (x * x) * (1 + t * t))).
    split; nra. }
  lra.
Qed.

(** The square of the area and its complement add up to [pi/4]. *)
Lemma area_complement_constant (x : R) :
  gauss_area x * gauss_area x + area_complement x = PI / 4.
Proof.
  set (F := fun x => gauss_area x * gauss_area x + area_complement x).
  assert (HF : forall x, derivable_pt_lim F x 0).
  { intros y.
    replace 0 with (gauss y * gauss_area y + gauss_area y * gauss y
                    + RiemannInt (kernel_dx_integrable y))
      by (rewrite kernel_dx_integral; ring).
    apply (derivable_pt_lim_plus (fun x => gauss_area x * gauss_area x)
                                 area_complement).
    - apply (derivable_pt_lim_mult gauss_area gauss_area);
        apply gauss_area_derivable.
    - apply area_complement_derivable. }
  pose (dF := fun y => exist (fun l => derivable_pt_lim F y l) 0 (HF y)
              : derivable_pt F y).
  assert (Hconst : constant F).
  { apply (null_derivative_1 F dF). intros y. reflexivity. }
  change (F x = PI / 4). rewrite (Hconst x 0).
  unfold F, gauss_area. rewrite RiemannInt_P9, area_complement_0. ring.
Qed.

(** The area under the gaussian is odd. *)
Lemma gauss_area_odd (x : R) : gauss_area (- x) = - gauss_area x.
Proof.
  set (F := fun x => gauss_area x + gauss_area (- x)).
  assert (HF : forall x, derivable_pt_lim F x 0).
  { intros y.
    replace 0 with (gauss y + gauss (- y) * Ropp 1)
      by (rewrite gauss_even; ring).
    apply (derivable_pt_lim_plus gauss_area (fun x => gauss_area (- x))).
    - apply gauss_area_derivable.
    - apply (derivable_pt_lim_comp (fun x => - x) gauss_area).
      + apply (derivable_pt_lim_opp id). apply derivable_pt_lim_id.
      + apply gauss_area_derivable. }
  pose (dF := fun y => exist (fun l => derivable_pt_lim F y l) 0 (HF y)
              : derivable_pt F y).
  assert (Hconst : constant F).
  { apply (null_derivative_1 F dF). intros y. reflexivity. }
  assert (H : F x = F 0) by apply Hconst.
  unfold F, gauss_area in H. rewrite Ropp_0, RiemannInt_P9 in H.
  unfold gauss_area. lra.
Qed.

Lemma erf_odd (u : R) : erf (- u) = - erf u.
Proof.
  unfold erf. fold (gauss_area (- u)). fold (gauss_area u).
  rewrite gauss_area_odd. ring.
Qed.

Lemma gauss_small (x : R) : 1 <= x -> gauss x <= / x.
Proof.
  intros Hx. unfold gauss. rewrite exp_Ropp.
  apply Rinv_le_contravar; [lra |].
  pose proof (exp_ineq1_le (x * x)). nra.
Qed.

(** Near plus infinity [erf] is within [4/pi * exp(-x^2)] of 1. *)
Lemma erf_near_1 (x : R) :
  0 <= x -> 1 - 4 / PI * gauss x <= erf x <= 1.
Proof.
  intros Hx.
  pose proof (area_complement_constant x) as Hc.
  pose proof (area_complement_bounds x) as Hb.
  pose proof (gauss_integral_nonneg 0 x Hx) as He. fold (gauss_area x) in He.
  pose proof sqrt_PI_pos as Hs.
  pose proof PI_RGT_0 as Hpi.
  assert (Hss : sqrt PI * sqrt PI = PI) by (apply sqrt_sqrt; lra).
  unfold erf. fold (gauss_area x).
  set (E := gauss_area x) in *. set (s := sqrt PI) in *.
  assert (Hdiv : 2 / s * E = 2 * E / s) by (field; lra).
  rewrite Hdiv.
  assert (H2E : 2 * E <= s) by nra.
  split.
  - apply Rmult_le_reg_r with s; [exact Hs |].
    replace (2 * E / s * s) with (2 * E) by (field; lra).
    assert (Hg : 4 / PI * gauss x * PI = 4 * gauss x) by (field; lra).
    (* (s - 2E)(s + 2E) = pi - 4 E^2 = 4 * complement <= 4 * gauss *)
    assert (H3 : (s - 2 * E) * (s + 2 * E) <= 4 * gauss x) by nra.
    assert (H4 : (s - 2 * E) * s <= 4 * gauss x) by nra.
    assert (H5 : 4 / PI * gauss x * s * s = 4 * gauss x)
      by (rewrite Rmult_assoc, Hss; exact Hg).
    assert (H6 : (s - 2 * E) * s <= 4 / PI * gauss x * s * s) by lra.
    assert (H7 : s - 2 * E <= 4 / PI * gauss x * s).
    { apply Rmult_le_reg_r with s; [exact Hs | lra]. }
    lra.
  - apply Rmult_le_reg_r with s; [exact Hs |].
    replace (2 * E / s * s) with (2 * E) by (field; lra). lra.
Qed.

Lemma erf_tends_at_pinf : tends_at_pinf erf 1.
Proof.
  intros eps Heps.
  pose proof PI_RGT_0 as Hpi.
  exists (Rmax 1 (4 / (PI * eps))). intros u Hu.
  assert (Hu1 : 1 < u) by (eapply Rle_lt_trans; [apply Rmax_l | exact Hu]).
  assert (Hu2 : 4 / (PI * eps) < u)
    by (eapply Rle_lt_trans; [apply Rmax_r | exact Hu]).
  destruct (erf_near_1 u ltac:(lra)) as [Hlo Hhi].
  pose proof (gauss_small u ltac:(lra)) as Hg.
  assert (Hsmall : 4 / PI * gauss u < eps).
  { assert (Hpe : 0 < PI * eps) by nra.
    assert (H1 : 4 < u * (PI * eps)).
    { apply Rmult_lt_reg_r with (/ (PI * eps));
        [apply Rinv_0_lt_compat; exact Hpe |].
      rewrite Rmult_assoc, Rinv_r by lra. lra. }
    assert (H2 : / u * u = 1) by (field; lra).
    assert (H3 : 0 < / u) by (apply Rinv_0_lt_compat; lra).
    assert (H4 : 4 * / u < PI * eps) by nra.
    assert (H5 : 4 / PI * gauss u * PI = 4 * gauss u) by (field; lra).
    apply Rmult_lt_reg_r with PI; [exact Hpi |]. nra. }
  apply Rabs_def1; lra.
Qed.

Lemma erf_tends_at_minf : tends_at_minf erf (Ropp 1).
Proof.
  intros eps Heps.
  destruct (erf_tends_at_pinf eps Heps) as [M HM].
  exists (- M). intros u Hu.
  specialize (HM (- u) ltac:(lra)).
  rewrite erf_odd in HM.
  replace (erf u - Ropp 1) with (- (- erf u - 1)) by ring.
  rewrite Rabs_Ropp. exact HM.
Qed.

End ErfLimits.

(** * The drift *)

Section Drift.

Variables a_0 tau xi0 : R.
Hypothesis tau_pos : 0 < tau.

Lemma drift_scale_nonneg : 0 <= drift_scale a_0 tau.
Proof.
  unfold drift_scale.
  assert (0 <= sqrt (PI / 2)) by apply sqrt_pos.
  pose proof (pow2_ge_0 a_0).
  assert (0 <= sqrt (PI / 2) * a_0 ^ 2) by (apply Rmult_le_pos; assumption).
  nra.
Qed.

Lemma drift_scale_pos : a_0 <> 0 -> 0 < drift_scale a_0 tau.
Proof.
  intros Ha. unfold drift_scale.
  assert (0 < sqrt (PI / 2))
    by (apply sqrt_lt_R0; pose proof PI_RGT_0; lra).
  assert (0 < a_0 ^ 2)
    by (simpl; rewrite Rmult_1_r; fold (Rsqr a_0); apply Rsqr_pos_lt; exact Ha).
  assert (0 < sqrt (PI / 2) * a_0 ^ 2) by (apply Rmult_lt_0_compat; assumption).
  nra.
Qed.

Lemma zdrift_at_scale (u : R) :
  zdrift_at a_0 tau xi0 u
  = - drift_scale a_0 tau * (erf (sqrt 2 * (u - xi0) / tau) - 1).
Proof. unfold zdrift_at, drift_scale. lra. Qed.

Lemma zdrift_with_scale (e : R) :
  zdrift_with a_0 tau e = - drift_scale a_0 tau * (e - 1).
Proof. unfold zdrift_with, drift_scale. lra. Qed.

Lemma zdrift_at_with (u : R) :
  zdrift_at a_0 tau xi0 u
  = zdrift_with a_0 tau (erf (sqrt 2 * (u - xi0) / tau)).
Proof. reflexivity. Qed.

(** The argument handed to [erf] grows with the phase. *)
Lemma erf_argument_increasing (u v : R) :
  u < v -> sqrt 2 * (u - xi0) / tau < sqrt 2 * (v - xi0) / tau.
Proof.
  intros Huv.
  assert (Hs : 0 < sqrt 2) by (apply sqrt_lt_R0; lra).
  assert (Hi : 0 < / tau) by (apply Rinv_0_lt_compat; exact tau_pos).
  unfold Rdiv. apply Rmult_lt_compat_r; [exact Hi |].
  apply Rmult_lt_compat_l; [exact Hs | lra].
Qed.

Lemma zdrift_at_antitone (u v : R) :
  u <= v -> zdrift_at a_0 tau xi0 v <= zdrift_at a_0 tau xi0 u.
Proof.
  intros Huv. rewrite !zdrift_at_scale.
  pose proof drift_scale_nonneg as Hc.
  assert (He : erf (sqrt 2 * (u - xi0) / tau)
               <= erf (sqrt 2 * (v - xi0) / tau)).
  { destruct Huv as [Hlt | ->]; [| lra].
    left. apply erf_increasing, erf_argument_increasing. exact Hlt. }
  nra.
Qed.

Lemma zdrift_at_strict (u v : R) :
  a_0 <> 0 -> u < v -> zdrift_at a_0 tau xi0 v < zdrift_at a_0 tau xi0 u.
Proof.
  intros Ha Huv. rewrite !zdrift_at_scale.
  pose proof (drift_scale_pos Ha) as Hc.
  pose proof (erf_increasing _ _ (erf_argument_increasing u v Huv)) as He.
  nra.
Qed.

(** An error bound on [erf] is one on the drift, scaled. *)
Lemma zdrift_at_close (l eps u : R) :
  0 < eps ->
  Rabs (erf (sqrt 2 * (u - xi0) / tau) - l) < eps / (drift_scale a_0 tau + 1) ->
  Rabs (zdrift_at a_0 tau xi0 u - zdrift_with a_0 tau l) < eps.
Proof.
  intros Heps Hclose.
  pose proof drift_scale_nonneg as Hc.
  rewrite zdrift_at_scale, zdrift_with_scale.
  set (c := drift_scale a_0 tau) in *.
  set (e := erf (sqrt 2 * (u - xi0) / tau)) in *.
  replace (- c * (e - 1) - - c * (l - 1)) with (- c * (e - l)) by ring.
  rewrite Rabs_mult, Rabs_Ropp, (Rabs_pos_eq _ Hc).
  pose proof (Rabs_pos (e - l)) as Hp.
  assert (Hq : eps / (c + 1) * (c + 1) = eps) by (field; lra).
  nra.
Qed.

Lemma zdrift_tends_at_pinf (l : R) :
  tends_at_pinf erf l ->
  tends_at_pinf (zdrift_at a_0 tau xi0) (zdrift_with a_0 tau l).
Proof.
  intros Herf eps Heps.
  pose proof drift_scale_nonneg as Hc.
  destruct (Herf (eps / (drift_scale a_0 tau + 1))) as [M HM];
    [apply Rdiv_lt_0_compat; lra |].
  assert (Hs : 0 < sqrt 2) by (apply sqrt_lt_R0; lra).
  exists (M * tau / sqrt 2 + xi0). intros u Hu.
  apply zdrift_at_close; [exact Heps |]. apply HM.
  replace M with (sqrt 2 * (M * tau / sqrt 2 + xi0 - xi0) / tau)
    by (field; lra).
  apply erf_argument_increasing. exact Hu.
Qed.

Lemma zdrift_tends_at_minf (l : R) :
  tends_at_minf erf l ->
  tends_at_minf (zdrift_at a_0 tau xi0) (zdrift_with a_0 tau l).
Proof.
  intros Herf eps Heps.
  pose proof drift_scale_nonneg as Hc.
  destruct (Herf (eps / (drift_scale a_0 tau + 1))) as [M HM];
    [apply Rdiv_lt_0_compat; lra |].
  assert (Hs : 0 < sqrt 2) by (apply sqrt_lt_R0; lra).
  exists (M * tau / sqrt 2 + xi0). intros u Hu.
  apply zdrift_at_close; [exact Heps |]. apply HM.
  replace M with (sqrt 2 * (M * tau / sqrt 2 + xi0 - xi0) / tau)
    by (field; lra).
  apply erf_argument_increasing. exact Hu.
Qed.

(** Ahead of the pulse the drift is 0; behind it, twice the scale. *)
Lemma zdrift_limit_pinf : tends_at_pinf (zdrift_at a_0 tau xi0) 0.
Proof.
  replace 0 with (zdrift_with a_0 tau 1) by (unfold zdrift_with; lra).
  apply zdrift_tends_at_pinf, erf_tends_at_pinf.
Qed.

Lemma zdrift_limit_minf :
  tends_at_minf (zdrift_at a_0 tau xi0)
                (0.25 * sqrt (PI / 2) * a_0 ^ 2 * tau).
Proof.
  replace (0.25 * sqrt (PI / 2) * a_0 ^ 2 * tau)
    with (zdrift_with a_0 tau (Ropp 1)) by (unfold zdrift_with; lra).
  apply zdrift_tends_at_minf, erf_tends_at_minf.
Qed.

End Drift.

(** * Zero pulse duration on float64 *)

Module Float64Facts.

Import Stdlib.Floats.Floats.
Import Float64.
Local Open Scope float_scope.

(** The library operations on small inputs. *)

Example float_linspace_0_1_5 : linspace 0 1 5 = Ok [0; 0.25; 0.5; 0.75; 1].
Proof. vm_compute. reflexivity. Qed.

Example float_linspace_descending : linspace 4 (-4) 3 = Ok [4; 0; -4].
Proof. vm_compute. reflexivity. Qed.

Example float_cumtrapz_1_2_4 : cumtrapz [1; 2; 4] 0 = [0; 1.5; 4.5].
Proof. vm_compute. reflexivity. Qed.

(** ** NaN and zero through the arithmetic operations *)

Lemma nan_unique (v : float) : Prim2SF v = S754_nan -> v = nan.
Proof. intros H. apply Prim2SF_inj. rewrite H. reflexivity. Qed.

Lemma mul_nan_l (v : float) : nan * v = nan.
Proof. apply Prim2SF_inj. rewrite mul_spec. reflexivity. Qed.

Lemma mul_nan_r (v : float) : v * nan = nan.
Proof.
  apply Prim2SF_inj. rewrite mul_spec. change (Prim2SF nan) with S754_nan.
  destruct (Prim2SF v); reflexivity.
Qed.

Lemma add_nan_l (v : float) : nan + v = nan.
Proof. apply Prim2SF_inj. rewrite add_spec. reflexivity. Qed.

Lemma sub_nan_l (v : float) : nan - v = nan.
Proof. apply Prim2SF_inj. rewrite sub_spec. reflexivity. Qed.

(** Case analysis on the classes of the operands. *)
Ltac by_classes :=
  cbn in *; intros; try contradiction; auto.

Lemma eqb_zero_zeroish (v : float) : (v =? 0) = true -> zeroish v.
Proof.
  rewrite eqb_spec. unfold zeroish.
  change (Prim2SF 0) with (S754_zero false).
  destruct (Prim2SF v) as [s | s | | s m e]; simpl; try discriminate; auto.
  all: destruct s; discriminate.
Qed.

Lemma zeroish_zero_or_nan (v : float) : zeroish v -> zero_or_nan v.
Proof. unfold zeroish, zero_or_nan. destruct (Prim2SF v); by_classes. Qed.

(** [q * s] is a zero or NaN as soon as [s] is: a finite [q] keeps a
    zero, an infinite [q] turns it into NaN. *)
Lemma mul_zero_or_nan (q s : float) : zero_or_nan s -> zero_or_nan (q * s).
Proof.
  unfold zero_or_nan. rewrite mul_spec.
  destruct (Prim2SF q), (Prim2SF s); by_classes.
Qed.

Lemma mul_zeroish (u v : float) : zeroish u -> zeroish v -> zeroish (u * v).
Proof.
  unfold zeroish. rewrite mul_spec.
  destruct (Prim2SF u), (Prim2SF v); by_classes.
Qed.

(** A finite non-zero constant times a zero is a zero. *)
Lemma mul_finite_zeroish (c v : float) (s : bool) (m : positive) (e : Z) :
  Prim2SF c = S754_finite s m e -> zeroish v -> zeroish (c * v).
Proof.
  unfold zeroish. rewrite mul_spec. intros ->.
  destruct (Prim2SF v); by_classes.
Qed.

Lemma mul_zeroish_finite (v c : float) (s : bool) (m : positive) (e : Z) :
  Prim2SF c = S754_finite s m e -> zeroish v -> zeroish (v * c).
Proof.
  unfold zeroish. rewrite mul_spec. intros ->.
  destruct (Prim2SF v); by_classes.
Qed.

Lemma div_zeroish_num (z d : float) : zeroish z -> zero_or_nan (z / d).
Proof.
  unfold zeroish, zero_or_nan. rewrite div_spec.
  destruct (Prim2SF z), (Prim2SF d); by_classes.
Qed.

Lemma add_zero_or_nan (y s : float) :
  zero_or_nan y -> zeroish s -> zero_or_nan (y + s).
Proof.
  unfold zeroish, zero_or_nan. rewrite add_spec.
  destruct (Prim2SF y) as [[] | | |], (Prim2SF s) as [[] | | |]; by_classes.
Qed.

Lemma sub_zero_or_nan (y s : float) :
  zero_or_nan y -> zeroish s -> zero_or_nan (y - s).
Proof.
  unfold zeroish, zero_or_nan. rewrite sub_spec.
  destruct (Prim2SF y) as [[] | | |], (Prim2SF s) as [[] | | |]; by_classes.
Qed.

Lemma sub_zeroish (u v : float) : zeroish u -> zeroish v -> zeroish (u - v).
Proof.
  unfold zeroish. rewrite sub_spec.
  destruct (Prim2SF u) as [[] | | |], (Prim2SF v) as [[] | | |]; by_classes.
Qed.

Lemma opp_zero_or_nan (v : float) : zero_or_nan v -> zero_or_nan (- v).
Proof.
  unfold zero_or_nan. rewrite opp_spec. destruct (Prim2SF v); by_classes.
Qed.

(** Zero or NaN divided by zero is NaN. *)
Lemma div_by_zero_nan (v t : float) : zero_or_nan v -> zeroish t -> v / t = nan.
Proof.
  unfold zeroish, zero_or_nan. intros Hv Ht. apply nan_unique.
  rewrite div_spec.
  destruct (Prim2SF v), (Prim2SF t); by_classes.
Qed.

(** ** All-NaN arrays through the running sums *)

Lemma cumsum_from_nan (n : nat) :
  cumsum_from nan (repeat nan n) = repeat nan n.
Proof.
  induction n as [| n IH]; [reflexivity |].
  cbn [repeat cumsum_from].
  change (nan + nan) with nan. rewrite IH. reflexivity.
Qed.

Lemma cumsum_nan (n : nat) : cumsum (repeat nan n) = repeat nan n.
Proof.
  destruct n as [| n]; [reflexivity |].
  cbn [repeat cumsum]. rewrite cumsum_from_nan. reflexivity.
Qed.

(** The cumulative trapeze of an all-NaN array: [initial], then NaN. *)
Lemma cumtrapz_nan (n : nat) (initial : float) :
  cumtrapz (repeat nan (S n)) initial = initial :: repeat nan n.
Proof.
  unfold cumtrapz. rewrite removelast_repeat. cbn [repeat tl].
  rewrite (map2_repeat_l _ nan nan n (repeat nan n));
    [| intros v; rewrite add_nan_l; reflexivity | apply repeat_length].
  rewrite cumsum_nan. reflexivity.
Qed.

Lemma length_arange_float (n : nat) : length (arange n) = n.
Proof. unfold arange. rewrite length_map, length_seq. reflexivity. Qed.

(** ** The cells at [tau == 0] *)

Section TauZero.

Variable L : libm.
Variables a_0 tau : float.
Hypothesis tau_zero : (tau =? 0) = true.

Lemma tau_zeroish : zeroish tau.
Proof. apply eqb_zero_zeroish. exact tau_zero. Qed.

Lemma start_zeroish : zeroish (4 * tau * 1).
Proof.
  eapply mul_zeroish_finite; [reflexivity |].
  eapply mul_finite_zeroish; [reflexivity | exact tau_zeroish].
Qed.

Lemma stop_zeroish : zeroish (-4 * tau * 1).
Proof.
  eapply mul_zeroish_finite; [reflexivity |].
  eapply mul_finite_zeroish; [reflexivity | exact tau_zeroish].
Qed.

(** Every sample of the grid is a zero or NaN, whichever way numpy
    multiplies. *)
Lemma linspace_zero_or_nan (Nint : Z) :
  (0 <= Nint)%Z ->
  exists l,
    linspace (4 * tau) (-4 * tau) Nint = Ok l /\
    length l = Z.to_nat Nint /\
    Forall zero_or_nan l.
Proof.
  intros Hn. unfold linspace.
  destruct (Z.ltb_spec Nint 0); [lia |].
  pose proof start_zeroish as Hstart.
  pose proof stop_zeroish as Hstop.
  pose proof (sub_zeroish _ _ Hstop Hstart) as Hdelta.
  eexists. split; [reflexivity |]. split.
  - destruct (1 <? Nint)%Z; destruct (0 <? Nint - 1)%Z;
      try destruct ((-4 * tau * 1 - 4 * tau * 1) / of_int (Nint - 1) =? 0);
      rewrite ?length_set_last, !length_map, length_arange_float; reflexivity.
  - assert (Hy : forall y : ndarray,
               Forall zero_or_nan y ->
               Forall zero_or_nan
                 (if (1 <? Nint)%Z
                  then set_last (map (fun v => v + 4 * tau * 1) y)
                                (-4 * tau * 1)
                  else map (fun v => v + 4 * tau * 1) y)).
    { intros y Hy.
      assert (Hm : Forall zero_or_nan (map (fun v => v + 4 * tau * 1) y)).
      { apply Forall_map. eapply Forall_impl; [| exact Hy].
        intros v Hv. cbv beta. apply add_zero_or_nan; assumption. }
      destruct (1 <? Nint)%Z; [| exact Hm].
      apply Forall_set_last; [exact Hm |].
      apply zeroish_zero_or_nan. exact Hstop. }
    apply Hy.
    destruct (0 <? Nint - 1)%Z.
    + destruct ((-4 * tau * 1 - 4 * tau * 1) / of_int (Nint - 1) =? 0).
      * apply Forall_map_all. intros v.
        apply mul_zero_or_nan, zeroish_zero_or_nan. exact Hdelta.
      * apply Forall_map_all. intros v.
        apply mul_zero_or_nan, div_zeroish_num. exact Hdelta.
    + apply Forall_map_all. intros v.
      apply mul_zero_or_nan, zeroish_zero_or_nan. exact Hdelta.
Qed.

(** [tau**2] at a zero [tau]: Python returns [0.0] without calling
    [pow]. *)
Lemma pow2_tau_zero : pow2 L tau = Ok 0.
Proof.
  unfold pow2, is_nan, is_infinity.
  assert (Hself : (tau =? tau) = true).
  { pose proof tau_zeroish as Hz. unfold zeroish in Hz.
    rewrite eqb_spec. destruct (Prim2SF tau); try contradiction.
    reflexivity. }
  assert (Hinf : (abs tau =? infinity) = false).
  { pose proof tau_zeroish as Hz. unfold zeroish in Hz.
    rewrite eqb_spec, abs_spec. destruct (Prim2SF tau); try contradiction.
    reflexivity. }
  rewrite Hself, Hinf, tau_zero. reflexivity.
Qed.

(** The argument of the exponential, [-(xi - xi0)**2/tau**2] with
    [xi0 = 0] and [tau**2 = 0.0]: the division gives NaN at a zero or
    NaN sample. *)
Lemma envelope_argument_nan (v : float) :
  zero_or_nan v -> - ((v - 0) * (v - 0)) / 0 = nan.
Proof.
  intros Hv.
  pose proof (sub_zero_or_nan v 0 Hv I) as Hd.
  apply div_by_zero_nan.
  - apply opp_zero_or_nan, mul_zero_or_nan. exact Hd.
  - exact I.
Qed.

(** The argument of the error function, [sqrt(2)*(xi - xi0)/tau]. *)
Lemma erf_argument_nan (v : float) :
  zero_or_nan v -> sqrt 2 * (v - 0) / tau = nan.
Proof.
  intros Hv.
  apply div_by_zero_nan; [| apply tau_zeroish].
  apply mul_zero_or_nan, sub_zero_or_nan; [assumption | exact I].
Qed.

Variable Nint : Z.
Hypothesis three_samples : (3 <= Nint)%Z.

(** The amplitude is one whose square [a_0**2] is a float. *)
Variable a_0_2 : float.
Hypothesis amplitude_squared : pow2 L a_0 = Ok a_0_2.

(** The run completes, and NaN fills every array downstream of the
    envelope; [x] and [z] keep their first element, which does not pass
    through the envelope. *)
Lemma run_tau_zero :
  exists nb x_0 z_0,
    run L a_0 tau 0 Nint = Ok nb /\
    let n := Z.to_nat Nint in
    length (xi nb) = n /\
    Forall zero_or_nan (xi nb) /\
    a_ nb = repeat nan n /\
    a nb = repeat nan n /\
    px nb = repeat nan n /\
    pz nb = repeat nan n /\
    gamma nb = repeat nan n /\
    x nb = x_0 :: repeat nan (n - 1) /\
    z nb = z_0 :: repeat nan (n - 1) /\
    xan nb = repeat nan n /\
    zdrift nb = repeat nan n /\
    zan nb = repeat nan n.
Proof.
  destruct (linspace_zero_or_nan Nint) as (l & Hl & Hlen & Hzn); [lia |].
  assert (H2 : exists v, nth_error l 2 = Some v).
  { destruct (nth_error l 2) eqn:E; [eauto |].
    apply nth_error_None in E. lia. }
  assert (H1 : exists v, nth_error l 1 = Some v).
  { destruct (nth_error l 1) eqn:E; [eauto |].
    apply nth_error_None in E. lia. }
  destruct H2 as [v2 H2]. destruct H1 as [v1 H1].
  set (n := Z.to_nat Nint) in *.
  assert (Ea_ : map (fun xi_i =>
                       a_0 * exp L (- ((xi_i - 0) * (xi_i - 0)) / 0))
                    l
                = repeat nan n).
  { rewrite <- Hlen. apply map_Forall_const.
    eapply Forall_impl; [| exact Hzn]. intros v Hv. cbv beta.
    rewrite (envelope_argument_nan v Hv), exp_nan.
    apply mul_nan_r. }
  assert (Ea : map2 mul (repeat nan n) (map (sin L) l) = repeat nan n).
  { apply map2_repeat_l; [apply mul_nan_l | rewrite length_map; exact Hlen]. }
  assert (Ezd : map (fun xi_i =>
                       - 0.125 * sqrt (pi / 2) * a_0_2 * tau
                       * (erf L (sqrt 2 * (xi_i - 0) / tau) - 1)) l
                = repeat nan n).
  { rewrite <- Hlen. apply map_Forall_const.
    eapply Forall_impl; [| exact Hzn]. intros v Hv. cbv beta.
    rewrite (erf_argument_nan v Hv), erf_nan, sub_nan_l.
    apply mul_nan_r. }
  destruct n as [| m] eqn:En; [lia |].
  eexists. exists (- 0 * (v2 - v1)), (- 0 * (v2 - v1)).
  split.
  - unfold run, set_up_xi_space. rewrite Hl. cbn [bind].
    unfold getitem. rewrite H2, H1. cbn [bind].
    unfold define_pulse. rewrite pow2_tau_zero. cbn [bind].
    unfold analytic_solutions. rewrite amplitude_squared. cbn [bind].
    reflexivity.
  - cbn [xi a_ a px pz gamma x z xan zdrift zan
         momenta numerical_solutions fst snd].
    rewrite Ea_, Ea, Ezd.
    rewrite !map_repeat.
    change (0.5 * (nan * nan)) with nan.
    rewrite (map2_repeat_l _ nan nan (S m) (repeat nan (S m)));
      [| intros v; cbv beta; change (1 + nan * nan) with nan;
         rewrite add_nan_l; reflexivity
       | apply repeat_length].
    rewrite (map2_repeat_l mul nan nan (S m) (map (cos L) l));
      [| apply mul_nan_l | rewrite length_map; exact Hlen].
    rewrite (map2_repeat_l add nan nan (S m));
      [| apply add_nan_l
       | rewrite (map2_repeat_l mul _ nan (S m));
         [apply repeat_length | intros v; apply mul_nan_l
          | rewrite length_map; exact Hlen] ].
    rewrite cumtrapz_nan. cbn [map]. rewrite map_repeat.
    change (- nan) with nan. rewrite mul_nan_l.
    replace (S m - 1)%nat with m by lia.
    repeat split; try reflexivity; assumption.
Qed.

End TauZero.

End Float64Facts.

(** * The claims *)

(** C1.  For every peak amplitude [a_0] and pulse duration [tau > 0] (and
    every sample count the notebook runs with, [Nint >= 3]) the run
    completes, [x] and [z] have the length of the grid, their first
    element is exactly zero, and element [k >= 1] is the partial sum over
    [i < k] of [-0.5*(p[i] + p[i+1])*dxi], with [p = px] for [x] and
    [p = pz] for [z]. *)
Theorem trajectories_cumulative_trapezoid (a_0 tau xi0 : R) (Nint : Z) :
  0 < tau ->
  (3 <= Nint)%Z ->
  exists nb,
    run a_0 tau xi0 Nint = Ok nb /\
    length (x nb) = Z.to_nat Nint /\
    length (z nb) = Z.to_nat Nint /\
    nth_error (x nb) 0 = Some 0 /\
    nth_error (z nb) 0 = Some 0 /\
    forall k, (1 <= k < Z.to_nat Nint)%nat ->
      nth_error (x nb) k =
        Some (psum (fun i => - 0.5 * (at_ (px nb) i + at_ (px nb) (S i))
                             * dxi nb) k) /\
      nth_error (z nb) k =
        Some (psum (fun i => - 0.5 * (at_ (pz nb) i + at_ (pz nb) (S i))
                             * dxi nb) k).
Proof.
  intros _ Hn.
  destruct (run_total a_0 tau xi0 Nint Hn) as [nb Hrun].
  exists nb. split; [exact Hrun |].
  destruct (run_shapes _ _ _ _ nb Hrun)
    as (_ & HN & _ & _ & Lpx & Lpz & _ & Lx & Lz & _).
  destruct (run_inv _ _ _ _ nb Hrun)
    as (_ & _ & _ & _ & _ & _ & Hx & Hz & _).
  rewrite HN in *.
  repeat split; try assumption.
  - rewrite Hx. simpl. f_equal. ring.
  - rewrite Hz. simpl. f_equal. ring.
  - rewrite Hx. apply trajectory_nth. lia.
  - rewrite Hz. apply trajectory_nth. lia.
Qed.

(** C1 on the notebook as committed. *)
Lemma trajectories_cumulative_trapezoid_witness :
  exists nb,
    notebook_run = Ok nb /\
    length (x nb) = Z.to_nat 10000 /\
    length (z nb) = Z.to_nat 10000 /\
    nth_error (x nb) 0 = Some 0 /\
    nth_error (z nb) 0 = Some 0 /\
    forall k, (1 <= k < Z.to_nat 10000)%nat ->
      nth_error (x nb) k =
        Some (psum (fun i => - 0.5 * (at_ (px nb) i + at_ (px nb) (S i))
                             * dxi nb) k) /\
      nth_error (z nb) k =
        Some (psum (fun i => - 0.5 * (at_ (pz nb) i + at_ (pz nb) (S i))
                             * dxi nb) k).
Proof.
  apply (trajectories_cumulative_trapezoid 4 (5 * 2 * PI) 0 10000).
  - pose proof PI_RGT_0. lra.
  - lia.
Defined.

(** C2.  For every [(a_0, tau, xi0)] with [tau <> 0] and every grid index
    [i]: [a_[i] = a_0*exp(-(xi[i]-xi0)^2/tau^2)], [xan[i] = a_[i]*cos(xi[i])],
    [zdrift[i] = -0.125*sqrt(pi/2)*a_0^2*tau*(erf(sqrt(2)*(xi[i]-xi0)/tau) - 1)]
    and [zan[i] = zdrift[i] + 0.125*a_[i]^2*sin(2*xi[i])]. *)
Theorem analytic_solutions_closed_form (a_0 tau xi0 : R) (Nint : Z) :
  tau <> 0 ->
  (3 <= Nint)%Z ->
  exists nb,
    run a_0 tau xi0 Nint = Ok nb /\
    forall i, (i < Z.to_nat Nint)%nat ->
      exists xi_i e_i zd_i,
        nth_error (xi nb) i = Some xi_i /\
        nth_error (a_ nb) i = Some e_i /\
        e_i = a_0 * exp (- (xi_i - xi0) ^ 2 / tau ^ 2) /\
        nth_error (xan nb) i = Some (e_i * cos xi_i) /\
        nth_error (zdrift nb) i = Some zd_i /\
        zd_i = - 0.125 * sqrt (PI / 2) * a_0 ^ 2 * tau
               * (erf (sqrt 2 * (xi_i - xi0) / tau) - 1) /\
        nth_error (zan nb) i = Some (zd_i + 0.125 * e_i ^ 2 * sin (2 * xi_i)).
Proof.
  intros _ Hn.
  destruct (run_total a_0 tau xi0 Nint Hn) as [nb Hrun].
  exists nb. split; [exact Hrun |]. intros i Hi.
  destruct (run_pointwise _ _ _ _ nb i Hrun Hi)
    as (_ & Exi & Ee & _ & _ & _ & _ & Exan & Ezd & Ezan).
  do 3 eexists.
  split; [exact Exi | split; [exact Ee | split; [reflexivity |]]].
  split; [exact Exan | split; [exact Ezd | split; [reflexivity |]]].
  exact Ezan.
Qed.

(** C2 on the notebook as committed ([xi0 = 0]). *)
Lemma analytic_solutions_closed_form_witness :
  exists nb,
    notebook_run = Ok nb /\
    forall i, (i < Z.to_nat 10000)%nat ->
      exists xi_i e_i zd_i,
        nth_error (xi nb) i = Some xi_i /\
        nth_error (a_ nb) i = Some e_i /\
        e_i = 4 * exp (- (xi_i - 0) ^ 2 / (5 * 2 * PI) ^ 2) /\
        nth_error (xan nb) i = Some (e_i * cos xi_i) /\
        nth_error (zdrift nb) i = Some zd_i /\
        zd_i = - 0.125 * sqrt (PI / 2) * 4 ^ 2 * (5 * 2 * PI)
               * (erf (sqrt 2 * (xi_i - 0) / (5 * 2 * PI)) - 1) /\
        nth_error (zan nb) i = Some (zd_i + 0.125 * e_i ^ 2 * sin (2 * xi_i)).
Proof.
  apply (analytic_solutions_closed_form 4 (5 * 2 * PI) 0 10000).
  - pose proof PI_RGT_0. lra.
  - lia.
Defined.

(** C3, as the code has it.  For every [a_0] and [tau > 0]: along the
    grid, whose phases fall with the index, [zdrift] does not fall
    ([zdrift[i] <= zdrift[j]] for [i <= j]); in other words it is
    non-increasing from the end of the descending grid back toward its
    start, that is as [xi] grows.  The closed form is non-increasing in the
    phase; [erf] tends to 1 at plus infinity and to -1 at minus infinity,
    the closed form tends to 0 at [xi = +inf] and to
    [0.25*sqrt(pi/2)*a_0^2*tau] at [xi = -inf], so that its net change
    from [xi = -inf] to [xi = +inf] is [-0.25*sqrt(pi/2)*a_0^2*tau]. *)
Theorem zdrift_monotone_total_variation (a_0 tau xi0 : R) (Nint : Z) :
  0 < tau ->
  (3 <= Nint)%Z ->
  exists nb,
    run a_0 tau xi0 Nint = Ok nb /\
    (forall i j, (i <= j < Z.to_nat Nint)%nat ->
       exists xi_i xi_j zd_i zd_j,
         nth_error (xi nb) i = Some xi_i /\
         nth_error (xi nb) j = Some xi_j /\
         nth_error (zdrift nb) i = Some zd_i /\
         nth_error (zdrift nb) j = Some zd_j /\
         xi_j <= xi_i /\
         zd_i <= zd_j) /\
    (forall u v, u <= v ->
       zdrift_at a_0 tau xi0 v <= zdrift_at a_0 tau xi0 u) /\
    tends_at_pinf erf 1 /\
    tends_at_minf erf (-1) /\
    exists zp zm,
      tends_at_pinf (zdrift_at a_0 tau xi0) zp /\
      tends_at_minf (zdrift_at a_0 tau xi0) zm /\
      zp = 0 /\
      zm = 0.25 * sqrt (PI / 2) * a_0 ^ 2 * tau /\
      zp - zm = - 0.25 * sqrt (PI / 2) * a_0 ^ 2 * tau.
Proof.
  intros Htau Hn.
  destruct (run_total a_0 tau xi0 Nint Hn) as [nb Hrun].
  exists nb. split; [exact Hrun |].
  split; [| split; [| split; [exact erf_tends_at_pinf | split]]].
  - intros i j Hij.
    destruct (run_pointwise _ _ _ _ nb i Hrun ltac:(lia))
      as (_ & Exi & _ & _ & _ & _ & _ & _ & Ezi & _).
    destruct (run_pointwise _ _ _ _ nb j Hrun ltac:(lia))
      as (_ & Exj & _ & _ & _ & _ & _ & _ & Ezj & _).
    do 4 eexists.
    split; [exact Exi | split; [exact Exj |]].
    split; [exact Ezi | split; [exact Ezj |]].
    assert (Hord : 4 * tau + INR j * spacing tau Nint
                   <= 4 * tau + INR i * spacing tau Nint).
    { pose proof (spacing_neg tau Nint ltac:(lia) Htau) as Hd.
      assert (Hle : INR i <= INR j) by (apply le_INR; lia).
      nra. }
    split; [exact Hord |].
    apply zdrift_at_antitone; assumption.
  - intros u v Huv. apply zdrift_at_antitone; assumption.
  - exact erf_tends_at_minf.
  - exists 0, (0.25 * sqrt (PI / 2) * a_0 ^ 2 * tau).
    split; [apply zdrift_limit_pinf; exact Htau |].
    split; [apply zdrift_limit_minf; exact Htau |].
    repeat split; lra.
Qed.

(** C3 on the notebook as committed. *)
Lemma zdrift_monotone_total_variation_witness :
  exists nb,
    notebook_run = Ok nb /\
    (forall i j, (i <= j < Z.to_nat 10000)%nat ->
       exists xi_i xi_j zd_i zd_j,
         nth_error (xi nb) i = Some xi_i /\
         nth_error (xi nb) j = Some xi_j /\
         nth_error (zdrift nb) i = Some zd_i /\
         nth_error (zdrift nb) j = Some zd_j /\
         xi_j <= xi_i /\
         zd_i <= zd_j) /\
    (forall u v, u <= v ->
       zdrift_at 4 (5 * 2 * PI) 0 v <= zdrift_at 4 (5 * 2 * PI) 0 u) /\
    tends_at_pinf erf 1 /\
    tends_at_minf erf (-1) /\
    exists zp zm,
      tends_at_pinf (zdrift_at 4 (5 * 2 * PI) 0) zp /\
      tends_at_minf (zdrift_at 4 (5 * 2 * PI) 0) zm /\
      zp = 0 /\
      zm = 0.25 * sqrt (PI / 2) * 4 ^ 2 * (5 * 2 * PI) /\
      zp - zm = - 0.25 * sqrt (PI / 2) * 4 ^ 2 * (5 * 2 * PI).
Proof.
  apply (zdrift_monotone_total_variation 4 (5 * 2 * PI) 0 10000).
  - pose proof PI_RGT_0. lra.
  - lia.
Defined.

(** C3, in the direction of falling phase: with [a_0 = 1], [tau = 1] and
    three samples the grid is [4, 0, -4]; from index 0 to index 1 the
    phase falls from 4 to 0 and [zdrift] strictly rises, so [zdrift] is
    not non-increasing as [xi] decreases. *)
Lemma zdrift_rises_as_xi_decreases :
  exists nb zd_0 zd_1,
    run 1 1 0 3 = Ok nb /\
    nth_error (xi nb) 0 = Some 4 /\
    nth_error (xi nb) 1 = Some 0 /\
    nth_error (zdrift nb) 0 = Some zd_0 /\
    nth_error (zdrift nb) 1 = Some zd_1 /\
    zd_0 < zd_1.
Proof.
  destruct (run_total 1 1 0 3 ltac:(lia)) as [nb Hrun].
  destruct (run_pointwise _ _ _ _ nb 0%nat Hrun ltac:(lia))
    as (_ & Ex0 & _ & _ & _ & _ & _ & _ & Ez0 & _).
  destruct (run_pointwise _ _ _ _ nb 1%nat Hrun ltac:(lia))
    as (_ & Ex1 & _ & _ & _ & _ & _ & _ & Ez1 & _).
  assert (H0 : 4 * 1 + INR 0 * spacing 1 3 = 4) by (simpl; lra).
  assert (H1 : 4 * 1 + INR 1 * spacing 1 3 = 0)
    by (unfold spacing; simpl; lra).
  rewrite H0 in Ex0, Ez0. rewrite H1 in Ex1, Ez1.
  exists nb, (zdrift_at 1 1 0 4), (zdrift_at 1 1 0 0).
  repeat split; try assumption.
  apply zdrift_at_strict; lra.
Qed.

(** C4.  For every waveform array [a] and every index [i]: the cell
    "momenta in laser field" returns [px] equal to [a] (so
    [px[i] = a[i]]), [pz] of the same length, and
    [pz[i] = 0.5*px[i]^2]. *)
Theorem momenta_px_pz (w : ndarray) :
  exists px pz gamma,
    momenta w = (px, pz, gamma) /\
    px = w /\
    length pz = length w /\
    forall i, (i < length w)%nat ->
      nth_error px i = Some (at_ w i) /\
      nth_error pz i = Some (0.5 * at_ px i ^ 2).
Proof.
  do 3 eexists. split; [reflexivity |].
  split; [reflexivity | split; [apply length_map |]].
  intros i Hi.
  pose proof (nth_error_in_range w i Hi) as Hw.
  split; [exact Hw |].
  apply (map_nth_error (fun p => 0.5 * p ^ 2)). exact Hw.
Qed.

(** C5.  For all arrays [px] and [pz] of one shape and every index [i]:
    the argument of the square root, [1 + px[i]^2 + pz[i]^2], is not
    negative, [gamma[i]] is its square root, and [gamma[i] >= 1]; the
    result has the shape of the inputs, with no failing case. *)
Theorem lorentz_factor_total_ge_1 (p q : ndarray) :
  length p = length q ->
  length (lorentz_factor p q) = length p /\
  forall i, (i < length p)%nat ->
    exists g,
      nth_error (lorentz_factor p q) i = Some g /\
      0 <= 1 + at_ p i ^ 2 + at_ q i ^ 2 /\
      g = sqrt (1 + at_ p i ^ 2 + at_ q i ^ 2) /\
      g * g = 1 + at_ p i ^ 2 + at_ q i ^ 2 /\
      1 <= g.
Proof.
  intros Hlen. split.
  - unfold lorentz_factor. rewrite length_map2. lia.
  - intros i Hi.
    assert (Harg : 1 <= 1 + at_ p i ^ 2 + at_ q i ^ 2)
      by (pose proof (pow2_ge_0 (at_ p i)); pose proof (pow2_ge_0 (at_ q i));
          lra).
    eexists. split; [| split; [| split; [reflexivity | split]]].
    + unfold lorentz_factor.
      apply (nth_error_map2 (fun u v => sqrt (1 + u ^ 2 + v ^ 2)) _ _ _
                            (at_ p i) (at_ q i)).
      * apply nth_error_in_range. exact Hi.
      * apply nth_error_in_range. lia.
    + lra.
    + apply sqrt_sqrt. lra.
    + rewrite <- sqrt_1 at 1. apply sqrt_le_1_alt. exact Harg.
Qed.

(** C5 on the arrays [px = [3, 0]] and [pz = [4.5, 0]]. *)
Lemma lorentz_factor_total_ge_1_witness :
  length [3; 0] = length [4.5; 0] /\
  length (lorentz_factor [3; 0] [4.5; 0]) = length [3; 0] /\
  forall i, (i < length [3; 0])%nat ->
    exists g,
      nth_error (lorentz_factor [3; 0] [4.5; 0]) i = Some g /\
      0 <= 1 + at_ [3; 0] i ^ 2 + at_ [4.5; 0] i ^ 2 /\
      g = sqrt (1 + at_ [3; 0] i ^ 2 + at_ [4.5; 0] i ^ 2) /\
      g * g = 1 + at_ [3; 0] i ^ 2 + at_ [4.5; 0] i ^ 2 /\
      1 <= g.
Proof.
  split; [reflexivity |].
  apply (lorentz_factor_total_ge_1 [3; 0] [4.5; 0]). reflexivity.
Defined.

(** C6, as the code has it.  For every [tau > 0] and [Nint >= 2] the
    grid has [Nint] linearly spaced samples, [xi[0] = 4*tau],
    [xi[Nint-1] = -4*tau], strictly decreasing, consecutive samples
    differing by one negative spacing; for [Nint >= 3] the cell returns
    that spacing as the scalar [dxi]; for [Nint = 2] reading [xi[2]]
    raises [IndexError] and the cell leaves no [dxi]. *)
Theorem grid_descending_uniform (tau : R) (Nint : Z) :
  0 < tau ->
  (2 <= Nint)%Z ->
  exists l,
    linspace (4 * tau) (-4 * tau) Nint = Ok l /\
    length l = Z.to_nat Nint /\
    nth_error l 0 = Some (4 * tau) /\
    nth_error l (Z.to_nat Nint - 1) = Some (-4 * tau) /\
    (forall i, (i < Z.to_nat Nint)%nat ->
       nth_error l i = Some (4 * tau + INR i * spacing tau Nint)) /\
    (forall i j, (i < j < Z.to_nat Nint)%nat -> at_ l j < at_ l i) /\
    spacing tau Nint < 0 /\
    (forall i, (S i < Z.to_nat Nint)%nat ->
       at_ l (S i) - at_ l i = spacing tau Nint) /\
    ((3 <= Nint)%Z -> set_up_xi_space tau Nint = Ok (l, spacing tau Nint)) /\
    (Nint = 2%Z -> set_up_xi_space tau Nint = Raise IndexError).
Proof.
  intros Htau Hn.
  destruct (linspace_samples (4 * tau) (-4 * tau) Nint Hn)
    as (l & Hl & Hlen & Hnth).
  pose proof (spacing_neg tau Nint Hn Htau) as Hd.
  assert (Hat : forall i, (i < Z.to_nat Nint)%nat ->
                  nth_error l i = Some (4 * tau + INR i * spacing tau Nint))
    by (intros i Hi; rewrite (Hnth i Hi), grid_sample by exact Hn;
        reflexivity).
  exists l. split; [exact Hl | split; [exact Hlen |]].
  split; [| split; [| split; [exact Hat |]]].
  - rewrite (Hat 0%nat) by lia. f_equal. change (INR 0) with 0. lra.
  - replace (Z.to_nat Nint - 1)%nat with (pred (Z.to_nat Nint)) by lia.
    rewrite (Hnth (pred (Z.to_nat Nint))) by lia. f_equal.
    rewrite (linspace_last _ _ _ Hn). lra.
  - split; [| split; [exact Hd | split; [| split]]].
    + intros i j Hij.
      rewrite (nth_error_at _ _ _ (Hat i ltac:(lia))).
      rewrite (nth_error_at _ _ _ (Hat j ltac:(lia))).
      assert (Hlt : INR i < INR j) by (apply lt_INR; lia).
      nra.
    + intros i Hi.
      rewrite (nth_error_at _ _ _ (Hat (S i) Hi)).
      rewrite (nth_error_at _ _ _ (Hat i ltac:(lia))).
      rewrite S_INR. ring.
    + intros H3.
      destruct (set_up_xi_space_ok tau Nint H3) as (l' & Hl' & _).
      unfold set_up_xi_space in Hl' |- *. rewrite Hl in Hl' |- *.
      cbn [bind] in Hl' |- *.
      destruct (getitem l 2) as [v2 | e2]; cbn [bind] in Hl' |- *;
        [| discriminate].
      destruct (getitem l 1) as [v1 | e1]; cbn [bind] in Hl' |- *;
        [| discriminate].
      injection Hl' as _ Hsp. rewrite Hsp. reflexivity.
    + intros ->. apply set_up_xi_space_short. lia.
Qed.

(** C6 on the grid of the notebook as committed. *)
Lemma grid_descending_uniform_witness :
  exists l,
    linspace (4 * (5 * 2 * PI)) (-4 * (5 * 2 * PI)) 10000 = Ok l /\
    length l = Z.to_nat 10000 /\
    nth_error l 0 = Some (4 * (5 * 2 * PI)) /\
    nth_error l (Z.to_nat 10000 - 1) = Some (-4 * (5 * 2 * PI)) /\
    (forall i, (i < Z.to_nat 10000)%nat ->
       nth_error l i
       = Some (4 * (5 * 2 * PI) + INR i * spacing (5 * 2 * PI) 10000)) /\
    (forall i j, (i < j < Z.to_nat 10000)%nat -> at_ l j < at_ l i) /\
    spacing (5 * 2 * PI) 10000 < 0 /\
    (forall i, (S i < Z.to_nat 10000)%nat ->
       at_ l (S i) - at_ l i = spacing (5 * 2 * PI) 10000) /\
    ((3 <= 10000)%Z ->
     set_up_xi_space (5 * 2 * PI) 10000
     = Ok (l, spacing (5 * 2 * PI) 10000)) /\
    (10000%Z = 2%Z ->
     set_up_xi_space (5 * 2 * PI) 10000 = Raise IndexError).
Proof.
  apply (grid_descending_uniform (5 * 2 * PI) 10000).
  - pose proof PI_RGT_0. lra.
  - lia.
Defined.

(** C6, at two samples: with [tau = 1] and [Nint = 2] the grid has the
    two samples [4] and [-4], index 2 is out of range, and
    [dxi = xi[2] - xi[1]] raises [IndexError]. *)
Lemma dxi_raises_at_two_samples :
  0 < 1 /\ (2 <= 2)%Z /\
  exists l,
    linspace (4 * 1) (-4 * 1) 2 = Ok l /\
    length l = 2%nat /\
    at_ l 0 = 4 /\
    at_ l 1 = -4 /\
    getitem l 2 = Raise IndexError /\
    set_up_xi_space 1 2 = Raise IndexError.
Proof.
  split; [lra | split; [lia |]].
  destruct (linspace_samples (4 * 1) (-4 * 1) 2 ltac:(lia))
    as (l & Hl & Hlen & Hnth).
  exists l. split; [exact Hl | split; [exact Hlen |]].
  rewrite (nth_error_at _ _ _ (Hnth 0%nat ltac:(lia))).
  rewrite (nth_error_at _ _ _ (Hnth 1%nat ltac:(lia))).
  unfold linspace_at. simpl.
  split; [lra | split; [lra | split]].
  - apply getitem_out_of_range. rewrite Hlen. simpl. lia.
  - apply set_up_xi_space_short. lia.
Qed.

(** C7.  With [a_0 = 0] and any [tau > 0], the arrays [a_], [a], [px],
    [pz], [xan], [zdrift] and [zan] are zero at every grid point and
    [gamma] is one at every grid point. *)
Theorem zero_amplitude_all_zero (tau xi0 : R) (Nint : Z) :
  0 < tau ->
  (3 <= Nint)%Z ->
  exists nb,
    run 0 tau xi0 Nint = Ok nb /\
    forall i, (i < Z.to_nat Nint)%nat ->
      nth_error (a_ nb) i = Some 0 /\
      nth_error (a nb) i = Some 0 /\
      nth_error (px nb) i = Some 0 /\
      nth_error (pz nb) i = Some 0 /\
      nth_error (xan nb) i = Some 0 /\
      nth_error (zdrift nb) i = Some 0 /\
      nth_error (zan nb) i = Some 0 /\
      nth_error (gamma nb) i = Some 1.
Proof.
  intros _ Hn.
  destruct (run_total 0 tau xi0 Nint Hn) as [nb Hrun].
  exists nb. split; [exact Hrun |]. intros i Hi.
  destruct (run_pointwise _ _ _ _ nb i Hrun Hi)
    as (_ & _ & Ee & Ea & Ep & Eq & Eg & Ex & Ez & Ezan).
  unfold envelope_at, zdrift_at in *.
  rewrite Ee, Ea, Ep, Eq, Eg, Ex, Ez, Ezan.
  repeat split; f_equal; vanish.
  apply sqrt_1.
Qed.

(** C7 with the pulse duration and sample count of the notebook. *)
Lemma zero_amplitude_all_zero_witness :
  exists nb,
    run 0 (5 * 2 * PI) 0 10000 = Ok nb /\
    forall i, (i < Z.to_nat 10000)%nat ->
      nth_error (a_ nb) i = Some 0 /\
      nth_error (a nb) i = Some 0 /\
      nth_error (px nb) i = Some 0 /\
      nth_error (pz nb) i = Some 0 /\
      nth_error (xan nb) i = Some 0 /\
      nth_error (zdrift nb) i = Some 0 /\
      nth_error (zan nb) i = Some 0 /\
      nth_error (gamma nb) i = Some 1.
Proof.
  apply (zero_amplitude_all_zero (5 * 2 * PI) 0 10000).
  - pose proof PI_RGT_0. lra.
  - lia.
Defined.

Module ZeroDuration.

Import Stdlib.Floats.Floats.
Import Float64 Float64Facts.
Local Open Scope float_scope.

(** The cells at [tau = 0.0] and three samples, evaluated: the grid is
    [0, 0, -0], every array downstream of the envelope is NaN, and the
    trajectories start at a zero. *)
Example run_tau_zero_three_samples :
  exists nb,
    run series_libm 4 0 0 3 = Ok nb /\
    xi nb = [0; 0; -0] /\
    dxi nb = -0 /\
    a_ nb = [nan; nan; nan] /\
    gamma nb = [nan; nan; nan] /\
    x nb = [0; nan; nan] /\
    z nb = [0; nan; nan].
Proof.
  eexists. split; [vm_compute; reflexivity |].
  repeat split.
Qed.

(** The same cells with an amplitude whose square overflows: the
    trajectories exist by then, and [a_0**2] raises in the cell of the
    analytic solutions, at any [tau]. *)
Example run_tau_zero_amplitude_overflow :
  pow2 series_libm 0x1p+665 = Raise OverflowError /\
  run series_libm 0x1p+665 0 0 3 = Raise OverflowError.
Proof. split; vm_compute; reflexivity. Qed.

(** C8.  When [tau == 0] (a float zero of either sign) no cell raises:
    [tau**2] is [0.0], not an error, and the run completes.  At every
    sample the division by [tau**2] in the envelope gives NaN, and NaN is
    the value of [a_], [a] (the waveform), [px], [pz] (the momenta),
    [gamma], [xan], [zdrift] and [zan] at every index, and of the
    trajectories [x] and [z] at every index after the first (their first
    element is [-0.0*dxi], which does not pass through the envelope).
    Read on binary64 floats, for every peak amplitude whose square
    [a_0**2] is a float (the analytic cell needs it at any [tau]), every
    sample count the notebook runs with, and every numeric library that
    maps NaN to NaN in [exp] and [erf]. *)
Theorem tau_zero_nan_propagates
  (L : libm) (a_0 tau a_0_2 : float) (Nint : Z) :
  (tau =? 0) = true ->
  (3 <= Nint)%Z ->
  pow2 L a_0 = Ok a_0_2 ->
  exists nb,
    run L a_0 tau 0 Nint = Ok nb /\
    pow2 L tau = Ok 0 /\
    forall i, (i < Z.to_nat Nint)%nat ->
      (exists xi_i,
         nth_error (xi nb) i = Some xi_i /\
         - ((xi_i - 0) * (xi_i - 0)) / 0 = nan) /\
      nth_error (a_ nb) i = Some nan /\
      nth_error (a nb) i = Some nan /\
      nth_error (px nb) i = Some nan /\
      nth_error (pz nb) i = Some nan /\
      nth_error (gamma nb) i = Some nan /\
      nth_error (xan nb) i = Some nan /\
      nth_error (zdrift nb) i = Some nan /\
      nth_error (zan nb) i = Some nan /\
      ((1 <= i)%nat ->
       nth_error (x nb) i = Some nan /\ nth_error (z nb) i = Some nan).
Proof.
  intros Htau Hn Hsq.
  destruct (run_tau_zero L a_0 tau Htau Nint Hn a_0_2 Hsq)
    as (nb & x_0 & z_0 & Hrun & Hlen & Hxi & Ha_ & Ha & Hpx & Hpz & Hg
        & Hx & Hz & Hxan & Hzd & Hzan).
  exists nb. split; [exact Hrun |].
  split; [apply pow2_tau_zero; exact Htau |].
  intros i Hi.
  assert (Hnan : nth_error (repeat nan (Z.to_nat Nint)) i = Some nan)
    by (apply nth_error_repeat; exact Hi).
  rewrite Ha_, Ha, Hpx, Hpz, Hg, Hxan, Hzd, Hzan, Hx, Hz.
  split; [| repeat split; try exact Hnan].
  - destruct (nth_error (xi nb) i) as [xi_i |] eqn:E.
    + exists xi_i. split; [reflexivity |].
      apply envelope_argument_nan.
      rewrite Forall_forall in Hxi. apply Hxi.
      eapply nth_error_In. exact E.
    + apply nth_error_None in E. lia.
  - destruct i as [| k]; [lia |]. apply nth_error_repeat. lia.
  - destruct i as [| k]; [lia |]. apply nth_error_repeat. lia.
Qed.

(** C8 on the notebook as committed but for [tau = 0.0], with the series
    library. *)
Lemma tau_zero_nan_propagates_witness :
  exists nb,
    run series_libm 4 0 0 10000 = Ok nb /\
    pow2 series_libm 0 = Ok 0 /\
    forall i, (i < Z.to_nat 10000)%nat ->
      (exists xi_i,
         nth_error (xi nb) i = Some xi_i /\
         - ((xi_i - 0) * (xi_i - 0)) / 0 = nan) /\
      nth_error (a_ nb) i = Some nan /\
      nth_error (a nb) i = Some nan /\
      nth_error (px nb) i = Some nan /\
      nth_error (pz nb) i = Some nan /\
      nth_error (gamma nb) i = Some nan /\
      nth_error (xan nb) i = Some nan /\
      nth_error (zdrift nb) i = Some nan /\
      nth_error (zan nb) i = Some nan /\
      ((1 <= i)%nat ->
       nth_error (x nb) i = Some nan /\ nth_error (z nb) i = Some nan).
Proof.
  apply (tau_zero_nan_propagates series_libm 4 0 16 10000).
  - reflexivity.
  - lia.
  - reflexivity.
Defined.

End ZeroDuration.

(** C9.  The cell computes [dxi = xi[2] - xi[1]]: on the grid that
    [np.linspace] returns, index 2 is in bounds exactly when [Nint >= 3],
    the cell completes exactly when [Nint >= 3], and then, for [tau > 0],
    [dxi = -8*tau/(Nint - 1)], the spacing of every pair of consecutive
    samples. *)
Theorem dxi_defined_iff_three_samples (tau : R) (Nint : Z) :
  (forall l, linspace (4 * tau) (-4 * tau) Nint = Ok l ->
             ((exists v, getitem l 2 = Ok v) <-> (3 <= Nint)%Z)) /\
  ((exists g, set_up_xi_space tau Nint = Ok g) <-> (3 <= Nint)%Z) /\
  ((3 <= Nint)%Z -> 0 < tau ->
   exists l,
     set_up_xi_space tau Nint = Ok (l, - 8 * tau / IZR (Nint - 1)) /\
     length l = Z.to_nat Nint /\
     forall i, (S i < Z.to_nat Nint)%nat ->
               at_ l (S i) - at_ l i = - 8 * tau / IZR (Nint - 1)).
Proof.
  split; [| split].
  - intros l Hl.
    assert (Hlen : length l = Z.to_nat Nint).
    { destruct (Z_lt_le_dec Nint 0) as [Hneg | Hpos].
      - rewrite linspace_negative in Hl by exact Hneg. discriminate.
      - destruct (linspace_length (4 * tau) (-4 * tau) Nint Hpos)
          as (l' & Hl' & Hlen').
        rewrite Hl in Hl'. injection Hl' as ->. exact Hlen'. }
    split.
    + intros [v Hv].
      destruct (Z_lt_le_dec Nint 3) as [Hlt | Hge]; [| exact Hge].
      rewrite getitem_out_of_range in Hv by lia. discriminate.
    + intros Hn. exists (at_ l 2). apply getitem_in_range.
      apply nth_error_in_range. lia.
  - split.
    + intros [g Hg]. exact (set_up_xi_space_inv _ _ _ Hg).
    + intros Hn. destruct (set_up_xi_space_ok tau Nint Hn) as (l & Hl & _).
      eexists; exact Hl.
  - intros Hn _.
    destruct (set_up_xi_space_ok tau Nint Hn) as (l & Hl & Hlen & Hnth).
    exists l. split; [exact Hl | split; [exact Hlen |]].
    intros i Hi.
    rewrite (nth_error_at _ _ _ (Hnth (S i) Hi)).
    rewrite (nth_error_at _ _ _ (Hnth i ltac:(lia))).
    rewrite S_INR. fold (spacing tau Nint). ring.
Qed.

(** C10.  For every [a_0] and [tau > 0] the step [dxi] is negative, every
    [pz[i]] is non-negative, every trapezoidal increment
    [z[k+1] - z[k] = -0.5*(pz[k] + pz[k+1])*dxi] is non-negative, and so
    [z[k+1] >= z[k]] for every [k]. *)
Theorem z_nondecreasing (a_0 tau xi0 : R) (Nint : Z) :
  0 < tau ->
  (3 <= Nint)%Z ->
  exists nb,
    run a_0 tau xi0 Nint = Ok nb /\
    dxi nb < 0 /\
    (forall i, (i < Z.to_nat Nint)%nat -> 0 <= at_ (pz nb) i) /\
    forall k, (S k < Z.to_nat Nint)%nat ->
      exists z_k z_k1,
        nth_error (z nb) k = Some z_k /\
        nth_error (z nb) (S k) = Some z_k1 /\
        z_k1 - z_k = - 0.5 * (at_ (pz nb) k + at_ (pz nb) (S k)) * dxi nb /\
        0 <= - 0.5 * (at_ (pz nb) k + at_ (pz nb) (S k)) * dxi nb /\
        z_k <= z_k1.
Proof.
  intros Htau Hn.
  destruct (run_total a_0 tau xi0 Nint Hn) as [nb Hrun].
  exists nb. split; [exact Hrun |].
  destruct (run_shapes _ _ _ _ nb Hrun)
    as (_ & HN & _ & _ & _ & Lpz & _).
  destruct (run_inv _ _ _ _ nb Hrun)
    as (_ & _ & _ & _ & _ & _ & _ & Hz & _).
  assert (Hd : dxi nb < 0).
  { destruct (run_pointwise _ _ _ _ nb 0%nat Hrun ltac:(lia)) as (-> & _).
    apply spacing_neg; [lia | exact Htau]. }
  assert (Hpz : forall i, (i < Z.to_nat Nint)%nat -> 0 <= at_ (pz nb) i).
  { intros i Hi.
    destruct (run_pointwise _ _ _ _ nb i Hrun Hi)
      as (_ & _ & _ & _ & _ & Eq & _).
    rewrite (nth_error_at _ _ _ Eq).
    match goal with |- 0 <= 0.5 * ?p ^ 2 => pose proof (pow2_ge_0 p) end.
    lra. }
  split; [exact Hd | split; [exact Hpz |]].
  intros k Hk.
  pose proof (Hpz k ltac:(lia)) as P0.
  pose proof (Hpz (S k) Hk) as P1.
  eexists; eexists.
  split; [rewrite Hz; apply trajectory_nth; lia |].
  split; [rewrite Hz; apply trajectory_nth; lia |].
  rewrite trajectory_step.
  assert (Hinc : 0 <= - 0.5 * (at_ (pz nb) k + at_ (pz nb) (S k)) * dxi nb)
    by nra.
  split; [reflexivity | split; [exact Hinc |]].
  pose proof (trajectory_step (pz nb) (dxi nb) k) as Hstep. lra.
Qed.

(** C10 on the notebook as committed. *)
Lemma z_nondecreasing_witness :
  exists nb,
    notebook_run = Ok nb /\
    dxi nb < 0 /\
    (forall i, (i < Z.to_nat 10000)%nat -> 0 <= at_ (pz nb) i) /\
    forall k, (S k < Z.to_nat 10000)%nat ->
      exists z_k z_k1,
        nth_error (z nb) k = Some z_k /\
        nth_error (z nb) (S k) = Some z_k1 /\
        z_k1 - z_k = - 0.5 * (at_ (pz nb) k + at_ (pz nb) (S k)) * dxi nb /\
        0 <= - 0.5 * (at_ (pz nb) k + at_ (pz nb) (S k)) * dxi nb /\
        z_k <= z_k1.
Proof.
  apply (z_nondecreasing 4 (5 * 2 * PI) 0 10000).
  - pose proof PI_RGT_0. lra.
  - lia.
Defined.

(** * Further properties of the cells *)

(** ** The grid and the pulse under reflection *)

Section Mirror.

Variable tau : R.
Variable Nint : Z.
Hypothesis three_samples : (3 <= Nint)%Z.

(** The phase at the mirrored index is the opposite phase. *)
Lemma grid_mirror (i : nat) :
  (i < Z.to_nat Nint)%nat ->
  4 * tau + INR (Z.to_nat Nint - 1 - i) * spacing tau Nint
  = - (4 * tau + INR i * spacing tau Nint).
Proof.
  intros Hi.
  rewrite minus_INR by lia. rewrite minus_INR by lia.
  rewrite (INR_IZR_INZ (Z.to_nat Nint)), Z2Nat.id by lia.
  unfold spacing.
  assert (Hd : IZR (Nint - 1) <> 0) by (apply not_0_IZR; lia).
  rewrite minus_IZR in *. simpl INR. field. exact Hd.
Qed.

End Mirror.

Lemma envelope_at_even (a_0 tau u : R) :
  envelope_at a_0 tau 0 (- u) = envelope_at a_0 tau 0 u.
Proof. unfold envelope_at. do 2 f_equal. unfold Rdiv. f_equal. ring. Qed.

Lemma envelope_at_bound (a_0 tau xi0 u : R) :
  Rabs (envelope_at a_0 tau xi0 u) <= Rabs a_0.
Proof.
  unfold envelope_at. rewrite Rabs_mult.
  set (e := exp _).
  assert (He : 0 < e <= 1).
  { split; [apply exp_pos |]. unfold e. rewrite <- exp_0.
    assert (H : - (u - xi0) ^ 2 / tau ^ 2 <= 0).
    { unfold Rdiv. pose proof (pow2_ge_0 (u - xi0)) as H1.
      pose proof (pow2_ge_0 tau) as H2.
      destruct (Req_dec (tau ^ 2) 0) as [Hz | Hnz].
      - rewrite Hz, Rinv_0. lra.
      - assert (0 < / tau ^ 2) by (apply Rinv_0_lt_compat; lra). nra. }
    destruct H as [H | H]; [left; apply exp_increasing; exact H |].
    right. rewrite H. reflexivity. }
  rewrite (Rabs_pos_eq e) by lra.
  pose proof (Rabs_pos a_0). nra.
Qed.

Lemma envelope_at_scal (c a_0 tau xi0 u : R) :
  envelope_at (c * a_0) tau xi0 u = c * envelope_at a_0 tau xi0 u.
Proof. unfold envelope_at. ring. Qed.

(** With [pz = px^2/2] the argument of the square root is a square. *)
Lemma sqrt_one_plus_half_square (p : R) :
  sqrt (1 + p ^ 2 + (0.5 * p ^ 2) ^ 2) = 1 + 0.5 * p ^ 2.
Proof.
  pose proof (pow2_ge_0 p) as Hp.
  replace (1 + p ^ 2 + (0.5 * p ^ 2) ^ 2)
    with ((1 + 0.5 * p ^ 2) * (1 + 0.5 * p ^ 2)) by (simpl; lra).
  apply sqrt_square. lra.
Qed.

Lemma zdrift_at_mirror (a_0 tau u : R) :
  zdrift_at a_0 tau 0 (- u) + zdrift_at a_0 tau 0 u
  = 0.25 * sqrt (PI / 2) * a_0 ^ 2 * tau.
Proof.
  unfold zdrift_at.
  replace (sqrt 2 * (- u - 0) / tau) with (- (sqrt 2 * (u - 0) / tau))
    by (unfold Rdiv; ring).
  rewrite erf_odd. lra.
Qed.

Lemma zdrift_at_scal (c a_0 tau xi0 u : R) :
  zdrift_at (c * a_0) tau xi0 u = c ^ 2 * zdrift_at a_0 tau xi0 u.
Proof.
  unfold zdrift_at. set (E := erf _ - 1). set (S := sqrt (PI / 2)).
  simpl pow. lra.
Qed.

(** [erf] stays strictly between its limits. *)
Lemma erf_lt_1 (u : R) : erf u < 1.
Proof.
  apply Rlt_le_trans with (erf (Rmax u 0 + 1)).
  - apply erf_increasing. pose proof (Rmax_l u 0). lra.
  - apply erf_near_1. pose proof (Rmax_r u 0). lra.
Qed.

Lemma erf_gt_m1 (u : R) : Ropp 1 < erf u.
Proof.
  pose proof (erf_lt_1 (- u)) as H. rewrite erf_odd in H. lra.
Qed.

Lemma zdrift_at_bounds (a_0 tau xi0 u : R) :
  0 < tau ->
  0 <= zdrift_at a_0 tau xi0 u <= 0.25 * sqrt (PI / 2) * a_0 ^ 2 * tau.
Proof.
  intros Htau.
  rewrite (zdrift_at_scale a_0 tau xi0 u).
  pose proof (drift_scale_nonneg a_0 tau Htau) as Hc.
  pose proof (erf_lt_1 (sqrt 2 * (u - xi0) / tau)) as H1.
  pose proof (erf_gt_m1 (sqrt 2 * (u - xi0) / tau)) as H2.
  replace (0.25 * sqrt (PI / 2) * a_0 ^ 2 * tau)
    with (2 * drift_scale a_0 tau) by (unfold drift_scale; lra).
  split; nra.
Qed.

Lemma erf_derivable (u : R) :
  derivable_pt_lim erf u (2 / sqrt PI * gauss u).
Proof.
  change erf with (mult_real_fct (2 / sqrt PI) gauss_area).
  apply derivable_pt_lim_scal, gauss_area_derivable.
Qed.

(** ** Partial sums under reflection *)

Section PartialSums.

Variable f : nat -> R.
Variable n : nat.

(** A sequence that changes sign under reflection. *)
Lemma psum_reflect_odd (k : nat) :
  (forall i, (i < n)%nat -> f (n - 1 - i) = - f i) ->
  (k <= n)%nat ->
  psum f (n - k) = psum f n + psum f k.
Proof.
  intros Hodd. induction k as [| k IH]; intros Hk.
  - rewrite Nat.sub_0_r. simpl. ring.
  - specialize (IH ltac:(lia)).
    replace (n - k)%nat with (S (n - S k)) in IH by lia.
    simpl in IH. simpl.
    replace (n - S k)%nat with (n - 1 - k)%nat in * by lia.
    rewrite (Hodd k) in IH by lia. lra.
Qed.

Lemma psum_odd_total :
  (forall i, (i < n)%nat -> f (n - 1 - i) = - f i) -> psum f n = 0.
Proof.
  intros Hodd.
  pose proof (psum_reflect_odd n Hodd (le_n n)) as H.
  rewrite Nat.sub_diag in H. simpl in H. lra.
Qed.

(** A sequence that is its own reflection. *)
Lemma psum_reflect_even (k : nat) :
  (forall i, (i < n)%nat -> f (n - 1 - i) = f i) ->
  (k <= n)%nat ->
  psum f (n - k) = psum f n - psum f k.
Proof.
  intros Heven. induction k as [| k IH]; intros Hk.
  - rewrite Nat.sub_0_r. simpl. ring.
  - specialize (IH ltac:(lia)).
    replace (n - k)%nat with (S (n - S k)) in IH by lia.
    simpl in IH. simpl.
    replace (n - S k)%nat with (n - 1 - k)%nat in * by lia.
    rewrite (Heven k) in IH by lia. lra.
Qed.

Lemma psum_bound (M : R) (k : nat) :
  (forall i, (i < k)%nat -> Rabs (f i) <= M) ->
  Rabs (psum f k) <= INR k * M.
Proof.
  induction k as [| k IH]; intros Hb.
  - simpl. rewrite Rabs_R0. lra.
  - rewrite S_INR. simpl.
    eapply Rle_trans; [apply Rabs_triang |].
    specialize (IH ltac:(intros; apply Hb; lia)).
    pose proof (Hb k ltac:(lia)). lra.
Qed.

Lemma psum_nonneg (k : nat) :
  (forall i, (i < k)%nat -> 0 <= f i) -> 0 <= psum f k.
Proof.
  induction k as [| k IH]; intros Hb; simpl; [lra |].
  specialize (IH ltac:(intros; apply Hb; lia)).
  pose proof (Hb k ltac:(lia)). lra.
Qed.

End PartialSums.

(** ** A finished run, index by index *)

Section RunFacts.

Variables a_0 tau xi0 : R.
Variable Nint : Z.
Variable nb : notebook.
Hypothesis finished : run a_0 tau xi0 Nint = Ok nb.

(** The trajectories as partial sums of trapezes. *)
Lemma run_trajectories (k : nat) :
  (k < Z.to_nat Nint)%nat ->
  nth_error (x nb) k
  = Some (psum (fun i => - 0.5 * (at_ (px nb) i + at_ (px nb) (S i))
                         * dxi nb) k) /\
  nth_error (z nb) k
  = Some (psum (fun i => - 0.5 * (at_ (pz nb) i + at_ (pz nb) (S i))
                         * dxi nb) k).
Proof.
  intros Hk.
  destruct (run_shapes _ _ _ _ nb finished)
    as (_ & HN & _ & _ & Lpx & Lpz & _).
  destruct (run_inv _ _ _ _ nb finished)
    as (_ & _ & _ & _ & _ & _ & Hx & Hz & _).
  rewrite HN in *.
  split; [rewrite Hx | rewrite Hz]; apply trajectory_nth; lia.
Qed.

(** Nothing exceeds what the peak amplitude allows. *)
Lemma run_bounds (i : nat) :
  (i < Z.to_nat Nint)%nat ->
  Rabs (at_ (a_ nb) i) <= Rabs a_0 /\
  Rabs (at_ (a nb) i) <= Rabs (at_ (a_ nb) i) /\
  Rabs (at_ (px nb) i) <= Rabs a_0 /\
  0 <= at_ (pz nb) i <= 0.5 * a_0 ^ 2 /\
  1 <= at_ (gamma nb) i <= 1 + 0.5 * a_0 ^ 2 /\
  Rabs (at_ (xan nb) i) <= Rabs a_0.
Proof.
  intros Hi.
  destruct (run_pointwise _ _ _ _ nb i finished Hi)
    as (_ & _ & Ee & Ea & Ep & Eq & Eg & Exan & _).
  rewrite (nth_error_at _ _ _ Ee), (nth_error_at _ _ _ Ea),
    (nth_error_at _ _ _ Ep), (nth_error_at _ _ _ Eq),
    (nth_error_at _ _ _ Eg), (nth_error_at _ _ _ Exan).
  rewrite sqrt_one_plus_half_square.
  set (xi_i := 4 * tau + INR i * spacing tau Nint).
  pose proof (envelope_at_bound a_0 tau xi0 xi_i) as He.
  set (e := envelope_at a_0 tau xi0 xi_i) in *.
  pose proof (Rabs_pos e) as He0.
  assert (Hs : Rabs (sin xi_i) <= 1)
    by (apply Rabs_le; pose proof (SIN_bound xi_i); lra).
  assert (Hc : Rabs (cos xi_i) <= 1)
    by (apply Rabs_le; pose proof (COS_bound xi_i); lra).
  pose proof (Rabs_pos (sin xi_i)) as Hs0.
  pose proof (Rabs_pos (cos xi_i)) as Hc0.
  assert (Hp : Rabs (e * sin xi_i) <= Rabs e) by (rewrite Rabs_mult; nra).
  assert (Hx : Rabs (e * cos xi_i) <= Rabs e) by (rewrite Rabs_mult; nra).
  assert (Hp2 : (e * sin xi_i) ^ 2 <= a_0 ^ 2).
  { rewrite <- (pow2_abs (e * sin xi_i)), <- (pow2_abs a_0).
    pose proof (Rabs_pos (e * sin xi_i)). simpl. nra. }
  pose proof (pow2_ge_0 (e * sin xi_i)) as Hp0.
  repeat split; lra.
Qed.

End RunFacts.

Section RunParity.

Variables a_0 tau : R.
Variable Nint : Z.
Variable nb : notebook.
Hypothesis finished : run a_0 tau 0 Nint = Ok nb.

(** With the pulse centred at [xi0 = 0], index [i] against its mirror
    image [Nint - 1 - i]. *)
Lemma run_parity (i : nat) :
  (i < Z.to_nat Nint)%nat ->
  let j := (Z.to_nat Nint - 1 - i)%nat in
  at_ (xi nb) j = - at_ (xi nb) i /\
  at_ (a_ nb) j = at_ (a_ nb) i /\
  at_ (a nb) j = - at_ (a nb) i /\
  at_ (px nb) j = - at_ (px nb) i /\
  at_ (pz nb) j = at_ (pz nb) i /\
  at_ (gamma nb) j = at_ (gamma nb) i /\
  at_ (xan nb) j = at_ (xan nb) i /\
  at_ (zdrift nb) j + at_ (zdrift nb) i
  = 0.25 * sqrt (PI / 2) * a_0 ^ 2 * tau /\
  at_ (zan nb) j + at_ (zan nb) i
  = 0.25 * sqrt (PI / 2) * a_0 ^ 2 * tau.
Proof.
  intros Hi j.
  destruct (run_shapes _ _ _ _ nb finished) as (Hn & _).
  assert (Hj : (j < Z.to_nat Nint)%nat) by (unfold j; lia).
  destruct (run_pointwise _ _ _ _ nb i finished Hi)
    as (_ & Exi & Ee & Ea & Ep & Eq & Eg & Exan & Ezd & Ezan).
  destruct (run_pointwise _ _ _ _ nb j finished Hj)
    as (_ & Exi' & Ee' & Ea' & Ep' & Eq' & Eg' & Exan' & Ezd' & Ezan').
  unfold j in Exi', Ee', Ea', Ep', Eq', Eg', Exan', Ezd', Ezan'.
  rewrite (grid_mirror tau Nint Hn i Hi) in *.
  fold j in Exi', Ee', Ea', Ep', Eq', Eg', Exan', Ezd', Ezan'.
  rewrite (nth_error_at _ _ _ Exi), (nth_error_at _ _ _ Ee),
    (nth_error_at _ _ _ Ea), (nth_error_at _ _ _ Ep),
    (nth_error_at _ _ _ Eq), (nth_error_at _ _ _ Eg),
    (nth_error_at _ _ _ Exan), (nth_error_at _ _ _ Ezd),
    (nth_error_at _ _ _ Ezan).
  rewrite (nth_error_at _ _ _ Exi'), (nth_error_at _ _ _ Ee'),
    (nth_error_at _ _ _ Ea'), (nth_error_at _ _ _ Ep'),
    (nth_error_at _ _ _ Eq'), (nth_error_at _ _ _ Eg'),
    (nth_error_at _ _ _ Exan'), (nth_error_at _ _ _ Ezd'),
    (nth_error_at _ _ _ Ezan').
  set (u := 4 * tau + INR i * spacing tau Nint).
  rewrite !envelope_at_even, !sin_neg, !cos_neg.
  pose proof (zdrift_at_mirror a_0 tau u) as Hm.
  replace (2 * - u) with (- (2 * u)) by ring. rewrite sin_neg.
  set (e := envelope_at a_0 tau 0 u) in *.
  repeat split; try ring; try lra.
  f_equal. ring.
Qed.

End RunParity.

(** ** The plots of a finished run *)

Example subtract_same_shape : subtract [5; 7] [1; 2] = Ok [5 - 1; 7 - 2].
Proof. reflexivity. Qed.

Example subtract_broadcast : subtract [5] [1; 2] = Ok [5 - 1; 5 - 2].
Proof. reflexivity. Qed.

Example subtract_mismatch : subtract [5; 7; 9] [1; 2] = Raise ValueError.
Proof. reflexivity. Qed.

Example plot_mismatch :
  plot [([1; 2], [3; 4], "k"%string); ([1; 2], [3], "r--"%string)]
  = Raise ValueError.
Proof. reflexivity. Qed.

Lemma subtract_same_length (u v : ndarray) :
  length u = length v -> subtract u v = Ok (map2 Rminus u v).
Proof.
  intros H. unfold subtract. rewrite H, Nat.eqb_refl. reflexivity.
Qed.

Lemma plot_same_length (args : list (ndarray * ndarray * String.string)) :
  Forall (fun t => length (fst (fst t)) = length (snd (fst t))) args ->
  plot args
  = Ok (map (fun t => Line (fst (fst t)) (snd (fst t)) (snd t)) args).
Proof.
  induction 1 as [| [[xs ys] f] rest H _ IH]; [reflexivity |].
  cbn [plot map fst snd] in *. rewrite H, Nat.eqb_refl, IH. reflexivity.
Qed.

Lemma plot_all_quantities_ok
    (a_0 tau xi0 : R) (Nint : Z) (nb : notebook) :
  run a_0 tau xi0 Nint = Ok nb ->
  plot_all_quantities nb =
  Ok (Figure
        [Line (xi nb) (x nb) "C0"; Line (xi nb) (xan nb) "--C2"]
        [Line (xi nb) (zdrift nb) "--k"; Line (xi nb) (z nb) "C1";
         Line (xi nb) (zan nb) "--C3"]
        [Line (map2 Rminus (z nb) (zdrift nb)) (x nb) "k";
         Line (map2 Rminus (zan nb) (zdrift nb)) (xan nb) "r--"]
        [Line (xi nb) (px nb) "C0"]
        [Line (xi nb) (pz nb) "C1"]
        [Line (pz nb) (px nb) "k"]).
Proof.
  intros Hrun.
  destruct (run_shapes _ _ _ _ nb Hrun)
    as (_ & _ & La_ & La & Lpx & Lpz & Lg & Lx & Lz & Lxan & Lzd & Lzan).
  unfold plot_all_quantities.
  repeat
    (first [ rewrite plot_same_length
               by (repeat constructor; cbn [fst snd];
                   rewrite ?length_map2; lia)
           | rewrite subtract_same_length by congruence ];
     cbn [bind]).
  reflexivity.
Qed.

(** ** Properties of the cells *)

(** X1.  In the cell "momenta in laser field", [pz = 0.5*px^2] makes the
    argument of the square root a perfect square: for every waveform and
    every index, [gamma[i] = 1 + pz[i]], so that [gamma - pz] is the
    constant 1. *)
Theorem gamma_is_one_plus_pz (w : ndarray) :
  exists px pz gamma,
    momenta w = (px, pz, gamma) /\
    length gamma = length w /\
    forall i, (i < length w)%nat ->
      nth_error gamma i = Some (1 + at_ pz i) /\
      at_ gamma i - at_ pz i = 1.
Proof.
  do 3 eexists. split; [reflexivity |].
  assert (Hlen : length (lorentz_factor w (map (fun p => 0.5 * p ^ 2) w))
                 = length w).
  { unfold lorentz_factor. rewrite length_map2, length_map. lia. }
  split; [exact Hlen |].
  intros i Hi.
  pose proof (nth_error_in_range w i Hi) as Ep.
  assert (Eq : nth_error (map (fun p => 0.5 * p ^ 2) w) i
               = Some (0.5 * at_ w i ^ 2))
    by (apply (map_nth_error (fun p => 0.5 * p ^ 2)); exact Ep).
  assert (Eg : nth_error (lorentz_factor w (map (fun p => 0.5 * p ^ 2) w)) i
               = Some (1 + at_ (map (fun p => 0.5 * p ^ 2) w) i)).
  { unfold lorentz_factor.
    rewrite (nth_error_map2 (fun u v => sqrt (1 + u ^ 2 + v ^ 2))
                            _ _ _ _ _ Ep Eq).
    rewrite (nth_error_at _ _ _ Eq), sqrt_one_plus_half_square. reflexivity. }
  split; [exact Eg |].
  rewrite (nth_error_at _ _ _ Eg). ring.
Qed.

(** X2.  For [tau <> 0] and at every index: the envelope never exceeds
    the peak amplitude, [|a_[i]| <= |a_0|]; the waveform stays inside the
    envelope, [|a[i]| <= |a_[i]|]; hence [|px[i]| <= |a_0|],
    [0 <= pz[i] <= 0.5*a_0^2], [1 <= gamma[i] <= 1 + 0.5*a_0^2] and
    [|xan[i]| <= |a_0|]. *)
Theorem pulse_bounded_by_amplitude (a_0 tau xi0 : R) (Nint : Z) :
  tau <> 0 ->
  (3 <= Nint)%Z ->
  exists nb,
    run a_0 tau xi0 Nint = Ok nb /\
    forall i, (i < Z.to_nat Nint)%nat ->
      Rabs (at_ (a_ nb) i) <= Rabs a_0 /\
      Rabs (at_ (a nb) i) <= Rabs (at_ (a_ nb) i) /\
      Rabs (at_ (px nb) i) <= Rabs a_0 /\
      0 <= at_ (pz nb) i <= 0.5 * a_0 ^ 2 /\
      1 <= at_ (gamma nb) i <= 1 + 0.5 * a_0 ^ 2 /\
      Rabs (at_ (xan nb) i) <= Rabs a_0.
Proof.
  intros _ Hn.
  destruct (run_total a_0 tau xi0 Nint Hn) as [nb Hrun].
  exists nb. split; [exact Hrun |].
  intros i Hi. apply (run_bounds a_0 tau xi0 Nint nb Hrun i Hi).
Qed.

(** X2 on the notebook as committed. *)
Lemma pulse_bounded_by_amplitude_witness :
  exists nb,
    notebook_run = Ok nb /\
    forall i, (i < Z.to_nat 10000)%nat ->
      Rabs (at_ (a_ nb) i) <= Rabs 4 /\
      Rabs (at_ (a nb) i) <= Rabs (at_ (a_ nb) i) /\
      Rabs (at_ (px nb) i) <= Rabs 4 /\
      0 <= at_ (pz nb) i <= 0.5 * 4 ^ 2 /\
      1 <= at_ (gamma nb) i <= 1 + 0.5 * 4 ^ 2 /\
      Rabs (at_ (xan nb) i) <= Rabs 4.
Proof.
  apply (pulse_bounded_by_amplitude 4 (5 * 2 * PI) 0 10000).
  - pose proof PI_RGT_0. lra.
  - lia.
Defined.

(** X3.  The grid [np.linspace(4*tau, -4*tau, Nint)] is symmetric about
    zero: the sample at index [Nint - 1 - i] is the opposite of the sample
    at index [i], for every [tau] and every [Nint >= 3]. *)
Theorem grid_symmetric (tau : R) (Nint : Z) :
  (3 <= Nint)%Z ->
  exists l d,
    set_up_xi_space tau Nint = Ok (l, d) /\
    forall i, (i < Z.to_nat Nint)%nat ->
      exists v,
        nth_error l i = Some v /\
        nth_error l (Z.to_nat Nint - 1 - i) = Some (- v).
Proof.
  intros Hn.
  destruct (set_up_xi_space_ok tau Nint Hn) as (l & Hl & _ & Hnth).
  exists l, (spacing tau Nint). split; [exact Hl |].
  intros i Hi. eexists. split; [apply Hnth; exact Hi |].
  rewrite Hnth by lia. f_equal. apply grid_mirror; assumption.
Qed.

(** X3 on the grid of the notebook as committed. *)
Lemma grid_symmetric_witness :
  exists l d,
    set_up_xi_space (5 * 2 * PI) 10000 = Ok (l, d) /\
    forall i, (i < Z.to_nat 10000)%nat ->
      exists v,
        nth_error l i = Some v /\
        nth_error l (Z.to_nat 10000 - 1 - i) = Some (- v).
Proof. apply (grid_symmetric (5 * 2 * PI) 10000). lia. Defined.

(** X4.  With the pulse centred at [xi0 = 0], as the notebook sets it,
    and [tau <> 0], every array has a parity under the reflection
    [i -> Nint - 1 - i] of the grid: [xi], [a] and [px] change sign;
    [a_], [pz], [gamma] and [xan] are unchanged; [zdrift] and [zan] at
    the two indices add up to [0.25*sqrt(pi/2)*a_0^2*tau]. *)
Theorem pulse_parity (a_0 tau : R) (Nint : Z) :
  tau <> 0 ->
  (3 <= Nint)%Z ->
  exists nb,
    run a_0 tau 0 Nint = Ok nb /\
    forall i, (i < Z.to_nat Nint)%nat ->
      let j := (Z.to_nat Nint - 1 - i)%nat in
      at_ (xi nb) j = - at_ (xi nb) i /\
      at_ (a_ nb) j = at_ (a_ nb) i /\
      at_ (a nb) j = - at_ (a nb) i /\
      at_ (px nb) j = - at_ (px nb) i /\
      at_ (pz nb) j = at_ (pz nb) i /\
      at_ (gamma nb) j = at_ (gamma nb) i /\
      at_ (xan nb) j = at_ (xan nb) i /\
      at_ (zdrift nb) j + at_ (zdrift nb) i
      = 0.25 * sqrt (PI / 2) * a_0 ^ 2 * tau /\
      at_ (zan nb) j + at_ (zan nb) i
      = 0.25 * sqrt (PI / 2) * a_0 ^ 2 * tau.
Proof.
  intros _ Hn.
  destruct (run_total a_0 tau 0 Nint Hn) as [nb Hrun].
  exists nb. split; [exact Hrun |].
  intros i Hi. apply (run_parity a_0 tau Nint nb Hrun i Hi).
Qed.

(** X4 on the notebook as committed. *)
Lemma pulse_parity_witness :
  exists nb,
    notebook_run = Ok nb /\
    forall i, (i < Z.to_nat 10000)%nat ->
      let j := (Z.to_nat 10000 - 1 - i)%nat in
      at_ (xi nb) j = - at_ (xi nb) i /\
      at_ (a_ nb) j = at_ (a_ nb) i /\
      at_ (a nb) j = - at_ (a nb) i /\
      at_ (px nb) j = - at_ (px nb) i /\
      at_ (pz nb) j = at_ (pz nb) i /\
      at_ (gamma nb) j = at_ (gamma nb) i /\
      at_ (xan nb) j = at_ (xan nb) i /\
      at_ (zdrift nb) j + at_ (zdrift nb) i
      = 0.25 * sqrt (PI / 2) * 4 ^ 2 * (5 * 2 * PI) /\
      at_ (zan nb) j + at_ (zan nb) i
      = 0.25 * sqrt (PI / 2) * 4 ^ 2 * (5 * 2 * PI).
Proof.
  apply (pulse_parity 4 (5 * 2 * PI) 10000).
  - pose proof PI_RGT_0. lra.
  - lia.
Defined.

(** X5.  With [xi0 = 0] and [tau <> 0] the waveform is odd about the
    middle of the grid, and the trapezes cancel in pairs: the numerical
    [x] is the same at index [k] and at index [Nint - 1 - k], and it is
    back at exactly 0 at the last index.  The numerical [z] at the two
    indices adds up to its final value [z[Nint-1]]. *)
Theorem trajectories_mirror (a_0 tau : R) (Nint : Z) :
  tau <> 0 ->
  (3 <= Nint)%Z ->
  exists nb,
    run a_0 tau 0 Nint = Ok nb /\
    nth_error (x nb) (Z.to_nat Nint - 1) = Some 0 /\
    forall k, (k < Z.to_nat Nint)%nat ->
      at_ (x nb) (Z.to_nat Nint - 1 - k) = at_ (x nb) k /\
      at_ (z nb) (Z.to_nat Nint - 1 - k) + at_ (z nb) k
      = at_ (z nb) (Z.to_nat Nint - 1).
Proof.
  intros _ Hn.
  destruct (run_total a_0 tau 0 Nint Hn) as [nb Hrun].
  exists nb. split; [exact Hrun |].
  pose proof (run_parity a_0 tau Nint nb Hrun) as Hpar.
  pose proof (run_trajectories a_0 tau 0 Nint nb Hrun) as Htr.
  set (n := (Z.to_nat Nint - 1)%nat) in *.
  set (fx := fun i => - 0.5 * (at_ (px nb) i + at_ (px nb) (S i)) * dxi nb)
    in *.
  set (fz := fun i => - 0.5 * (at_ (pz nb) i + at_ (pz nb) (S i)) * dxi nb)
    in *.
  assert (Hodd : forall i, (i < n)%nat -> fx (n - 1 - i)%nat = - fx i).
  { intros i Hi. unfold fx.
    destruct (Hpar i ltac:(lia)) as (_ & _ & _ & P0 & _).
    destruct (Hpar (S i) ltac:(lia)) as (_ & _ & _ & P1 & _).
    replace (S (n - 1 - i)) with (n - i)%nat by lia.
    replace (n - 1 - i)%nat with (n - S i)%nat by lia.
    rewrite P0, P1. ring. }
  assert (Heven : forall i, (i < n)%nat -> fz (n - 1 - i)%nat = fz i).
  { intros i Hi. unfold fz.
    destruct (Hpar i ltac:(lia)) as (_ & _ & _ & _ & P0 & _).
    destruct (Hpar (S i) ltac:(lia)) as (_ & _ & _ & _ & P1 & _).
    replace (S (n - 1 - i)) with (n - i)%nat by lia.
    replace (n - 1 - i)%nat with (n - S i)%nat by lia.
    rewrite P0, P1. ring. }
  split.
  - destruct (Htr n ltac:(lia)) as [Ex _]. rewrite Ex. f_equal.
    apply psum_odd_total. exact Hodd.
  - intros k Hk.
    destruct (Htr (n - k)%nat ltac:(lia)) as [Ex1 Ez1].
    destruct (Htr k ltac:(lia)) as [Ex2 Ez2].
    destruct (Htr n ltac:(lia)) as [_ Ez3].
    rewrite (nth_error_at _ _ _ Ex1), (nth_error_at _ _ _ Ex2),
      (nth_error_at _ _ _ Ez1), (nth_error_at _ _ _ Ez2),
      (nth_error_at _ _ _ Ez3).
    rewrite (psum_reflect_odd fx n k Hodd ltac:(lia)),
      (psum_odd_total fx n Hodd),
      (psum_reflect_even fz n k Heven ltac:(lia)).
    split; ring.
Qed.

(** X5 on the notebook as committed. *)
Lemma trajectories_mirror_witness :
  exists nb,
    notebook_run = Ok nb /\
    nth_error (x nb) (Z.to_nat 10000 - 1) = Some 0 /\
    forall k, (k < Z.to_nat 10000)%nat ->
      at_ (x nb) (Z.to_nat 10000 - 1 - k) = at_ (x nb) k /\
      at_ (z nb) (Z.to_nat 10000 - 1 - k) + at_ (z nb) k
      = at_ (z nb) (Z.to_nat 10000 - 1).
Proof.
  apply (trajectories_mirror 4 (5 * 2 * PI) 10000).
  - pose proof PI_RGT_0. lra.
  - lia.
Defined.

(** X6.  The analytic orbit is the figure of eight of the envelope: at
    every index [xan[i]^2 + px[i]^2 = a_[i]^2], and the analytic [z]
    leaves the drift by [zan[i] - zdrift[i] = 0.25*px[i]*xan[i]]. *)
Theorem analytic_orbit_figure_of_eight (a_0 tau xi0 : R) (Nint : Z) :
  tau <> 0 ->
  (3 <= Nint)%Z ->
  exists nb,
    run a_0 tau xi0 Nint = Ok nb /\
    forall i, (i < Z.to_nat Nint)%nat ->
      at_ (xan nb) i ^ 2 + at_ (px nb) i ^ 2 = at_ (a_ nb) i ^ 2 /\
      at_ (zan nb) i - at_ (zdrift nb) i
      = 0.25 * at_ (px nb) i * at_ (xan nb) i.
Proof.
  intros _ Hn.
  destruct (run_total a_0 tau xi0 Nint Hn) as [nb Hrun].
  exists nb. split; [exact Hrun |].
  intros i Hi.
  destruct (run_pointwise _ _ _ _ nb i Hrun Hi)
    as (_ & _ & Ee & _ & Ep & _ & _ & Exan & Ezd & Ezan).
  rewrite (nth_error_at _ _ _ Ee), (nth_error_at _ _ _ Ep),
    (nth_error_at _ _ _ Exan), (nth_error_at _ _ _ Ezd),
    (nth_error_at _ _ _ Ezan).
  set (u := 4 * tau + INR i * spacing tau Nint).
  set (e := envelope_at a_0 tau xi0 u).
  pose proof (sin2_cos2 u) as Hsc. unfold Rsqr in Hsc.
  rewrite sin_2a.
  split; simpl; nra.
Qed.

(** X6 on the notebook as committed. *)
Lemma analytic_orbit_figure_of_eight_witness :
  exists nb,
    notebook_run = Ok nb /\
    forall i, (i < Z.to_nat 10000)%nat ->
      at_ (xan nb) i ^ 2 + at_ (px nb) i ^ 2 = at_ (a_ nb) i ^ 2 /\
      at_ (zan nb) i - at_ (zdrift nb) i
      = 0.25 * at_ (px nb) i * at_ (xan nb) i.
Proof.
  apply (analytic_orbit_figure_of_eight 4 (5 * 2 * PI) 0 10000).
  - pose proof PI_RGT_0. lra.
  - lia.
Defined.

(** X7.  For [tau > 0] every element of [zdrift] lies between the two
    limits of the closed form: [0 <= zdrift[i] <=
    0.25*sqrt(pi/2)*a_0^2*tau]. *)
Theorem zdrift_between_limits (a_0 tau xi0 : R) (Nint : Z) :
  0 < tau ->
  (3 <= Nint)%Z ->
  exists nb,
    run a_0 tau xi0 Nint = Ok nb /\
    forall i, (i < Z.to_nat Nint)%nat ->
      0 <= at_ (zdrift nb) i <= 0.25 * sqrt (PI / 2) * a_0 ^ 2 * tau.
Proof.
  intros Htau Hn.
  destruct (run_total a_0 tau xi0 Nint Hn) as [nb Hrun].
  exists nb. split; [exact Hrun |].
  intros i Hi.
  destruct (run_pointwise _ _ _ _ nb i Hrun Hi)
    as (_ & _ & _ & _ & _ & _ & _ & _ & Ezd & _).
  rewrite (nth_error_at _ _ _ Ezd).
  apply zdrift_at_bounds. exact Htau.
Qed.

(** X7 on the notebook as committed. *)
Lemma zdrift_between_limits_witness :
  exists nb,
    notebook_run = Ok nb /\
    forall i, (i < Z.to_nat 10000)%nat ->
      0 <= at_ (zdrift nb) i
      <= 0.25 * sqrt (PI / 2) * 4 ^ 2 * (5 * 2 * PI).
Proof.
  apply (zdrift_between_limits 4 (5 * 2 * PI) 0 10000).
  - pose proof PI_RGT_0. lra.
  - lia.
Defined.

(** X8.  The constants of the drift formula fit the envelope: for
    [tau <> 0] the closed form [zdrift] is differentiable in the phase
    and its derivative is [-0.25*a_(xi)^2], minus the average of
    [pz = 0.5*a_^2*sin(xi)^2] over a cycle of the carrier. *)
Theorem zdrift_derivative (a_0 tau xi0 u : R) :
  tau <> 0 ->
  derivable_pt_lim (zdrift_at a_0 tau xi0) u
                   (- 0.25 * envelope_at a_0 tau xi0 u ^ 2).
Proof.
  intros Htau.
  set (K := - 0.125 * sqrt (PI / 2) * a_0 ^ 2 * tau).
  set (v := fun t : R => sqrt 2 * (t - xi0) / tau).
  assert (Hv : derivable_pt_lim v u (sqrt 2 / tau)).
  { unfold v.
    replace (sqrt 2 / tau) with (sqrt 2 / tau * (1 - 0)) by ring.
    apply derivable_pt_lim_ext
      with (f := mult_real_fct (sqrt 2 / tau) (id - fct_cte xi0)%F).
    - intros t. unfold mult_real_fct, minus_fct, id, fct_cte.
      field. exact Htau.
    - apply derivable_pt_lim_scal.
      apply derivable_pt_lim_minus;
        [apply derivable_pt_lim_id | apply derivable_pt_lim_const]. }
  assert (He : derivable_pt_lim (fun t => erf (v t) - 1) u
                 (2 / sqrt PI * gauss (v u) * (sqrt 2 / tau) - 0)).
  { apply (derivable_pt_lim_minus (comp erf v) (fct_cte 1)).
    - apply derivable_pt_lim_comp; [exact Hv | apply erf_derivable].
    - apply derivable_pt_lim_const. }
  assert (Hz : derivable_pt_lim (zdrift_at a_0 tau xi0) u
                 (K * (2 / sqrt PI * gauss (v u) * (sqrt 2 / tau) - 0))).
  { apply (derivable_pt_lim_scal (fun t => erf (v t) - 1) K). exact He. }
  replace (- 0.25 * envelope_at a_0 tau xi0 u ^ 2)
    with (K * (2 / sqrt PI * gauss (v u) * (sqrt 2 / tau) - 0));
    [exact Hz |].
  unfold K, envelope_at, gauss, v.
  pose proof sqrt_PI_pos as Hs.
  assert (H2 : sqrt 2 * sqrt 2 = 2) by (apply sqrt_sqrt; lra).
  assert (Hp : sqrt (PI / 2) * sqrt 2 = sqrt PI).
  { rewrite <- sqrt_mult by (pose proof PI_RGT_0; lra).
    f_equal. field. }
  replace (- (sqrt 2 * (u - xi0) / tau * (sqrt 2 * (u - xi0) / tau)))
    with (sqrt 2 * sqrt 2 * (- (u - xi0) ^ 2 / tau ^ 2))
    by (field; exact Htau).
  rewrite H2.
  replace (2 * (- (u - xi0) ^ 2 / tau ^ 2))
    with (- (u - xi0) ^ 2 / tau ^ 2 + - (u - xi0) ^ 2 / tau ^ 2) by ring.
  rewrite exp_plus.
  set (e := exp (- (u - xi0) ^ 2 / tau ^ 2)).
  assert (Hmain : sqrt (PI / 2) * tau
                  * (2 / sqrt PI * (e * e) * (sqrt 2 / tau) - 0)
                  = 2 * (e * e)).
  { replace (sqrt (PI / 2) * tau
             * (2 / sqrt PI * (e * e) * (sqrt 2 / tau) - 0))
      with (2 * (e * e) * ((sqrt (PI / 2) * sqrt 2) / sqrt PI) * (tau / tau))
      by (field; lra).
    rewrite Hp. unfold Rdiv. rewrite !Rinv_r by lra. ring. }
  set (X := 2 / sqrt PI * (e * e) * (sqrt 2 / tau) - 0) in *.
  set (S := sqrt (PI / 2)) in *.
  assert (Hm2 : a_0 * a_0 * (S * tau * X) = a_0 * a_0 * (2 * (e * e)))
    by (rewrite Hmain; reflexivity).
  simpl pow. lra.
Qed.

(** X8 for the pulse of the notebook as committed, at its centre. *)
Lemma zdrift_derivative_witness :
  derivable_pt_lim (zdrift_at 4 (5 * 2 * PI) 0) 0
                   (- 0.25 * envelope_at 4 (5 * 2 * PI) 0 0 ^ 2).
Proof.
  apply (zdrift_derivative 4 (5 * 2 * PI) 0 0).
  pose proof PI_RGT_0. lra.
Defined.

(** X9.  For [tau > 0] the numerical trajectories cannot outrun the peak
    momenta: with [travelled = xi[0] - xi[k] >= 0] the phase swept up to
    index [k], [|x[k]| <= |a_0|*travelled] and
    [0 <= z[k] <= 0.5*a_0^2*travelled]. *)
Theorem trajectories_bounded (a_0 tau xi0 : R) (Nint : Z) :
  0 < tau ->
  (3 <= Nint)%Z ->
  exists nb,
    run a_0 tau xi0 Nint = Ok nb /\
    forall k, (k < Z.to_nat Nint)%nat ->
      let travelled := at_ (xi nb) 0 - at_ (xi nb) k in
      0 <= travelled /\
      Rabs (at_ (x nb) k) <= Rabs a_0 * travelled /\
      0 <= at_ (z nb) k <= 0.5 * a_0 ^ 2 * travelled.
Proof.
  intros Htau Hn.
  destruct (run_total a_0 tau xi0 Nint Hn) as [nb Hrun].
  exists nb. split; [exact Hrun |].
  pose proof (run_bounds a_0 tau xi0 Nint nb Hrun) as Hb.
  intros k Hk travelled.
  destruct (run_pointwise _ _ _ _ nb 0%nat Hrun ltac:(lia))
    as (Hd & Exi0 & _).
  destruct (run_pointwise _ _ _ _ nb k Hrun Hk) as (_ & Exik & _).
  pose proof (spacing_neg tau Nint ltac:(lia) Htau) as Hs.
  assert (Ht : travelled = INR k * - dxi nb).
  { unfold travelled.
    rewrite (nth_error_at _ _ _ Exi0), (nth_error_at _ _ _ Exik), Hd.
    simpl INR. ring. }
  pose proof (pos_INR k) as Hk0.
  rewrite Ht.
  destruct (run_trajectories a_0 tau xi0 Nint nb Hrun k Hk) as [Ex Ez].
  rewrite (nth_error_at _ _ _ Ex), (nth_error_at _ _ _ Ez).
  rewrite Hd in *.
  split; [nra |].
  pose proof (Rabs_pos a_0) as Ha0.
  split; [| split].
  - replace (Rabs a_0 * (INR k * - spacing tau Nint))
      with (INR k * (Rabs a_0 * - spacing tau Nint)) by ring.
    apply psum_bound. intros i Hi.
    destruct (Hb i ltac:(lia)) as (_ & _ & P0 & _).
    destruct (Hb (S i) ltac:(lia)) as (_ & _ & P1 & _).
    replace (- 0.5 * (at_ (px nb) i + at_ (px nb) (S i)) * spacing tau Nint)
      with ((0.5 * - spacing tau Nint) * (at_ (px nb) i + at_ (px nb) (S i)))
      by lra.
    rewrite Rabs_mult, (Rabs_pos_eq (0.5 * - spacing tau Nint)) by lra.
    pose proof (Rabs_triang (at_ (px nb) i) (at_ (px nb) (S i))).
    nra.
  - apply psum_nonneg. intros i Hi.
    destruct (Hb i ltac:(lia)) as (_ & _ & _ & P0 & _).
    destruct (Hb (S i) ltac:(lia)) as (_ & _ & _ & P1 & _).
    nra.
  - replace (0.5 * a_0 ^ 2 * (INR k * - spacing tau Nint))
      with (INR k * (0.5 * a_0 ^ 2 * - spacing tau Nint)) by lra.
    eapply Rle_trans; [apply Rle_abs |].
    apply psum_bound. intros i Hi.
    destruct (Hb i ltac:(lia)) as (_ & _ & _ & P0 & _).
    destruct (Hb (S i) ltac:(lia)) as (_ & _ & _ & P1 & _).
    rewrite Rabs_pos_eq by nra.
    pose proof (pow2_ge_0 a_0). nra.
Qed.

(** X9 on the notebook as committed. *)
Lemma trajectories_bounded_witness :
  exists nb,
    notebook_run = Ok nb /\
    forall k, (k < Z.to_nat 10000)%nat ->
      let travelled := at_ (xi nb) 0 - at_ (xi nb) k in
      0 <= travelled /\
      Rabs (at_ (x nb) k) <= Rabs 4 * travelled /\
      0 <= at_ (z nb) k <= 0.5 * 4 ^ 2 * travelled.
Proof.
  apply (trajectories_bounded 4 (5 * 2 * PI) 0 10000).
  - pose proof PI_RGT_0. lra.
  - lia.
Defined.

(** X10.  The cells are homogeneous in the peak amplitude.  Running the
    notebook with [c*a_0] instead of [a_0] leaves the grid and [dxi] as
    they are, multiplies [a_], [px], [x] and [xan] by [c], and [pz], [z],
    [zdrift] and [zan] by [c^2], at every index. *)
Theorem amplitude_scaling (c a_0 tau xi0 : R) (Nint : Z) :
  tau <> 0 ->
  (3 <= Nint)%Z ->
  exists nb nc,
    run a_0 tau xi0 Nint = Ok nb /\
    run (c * a_0) tau xi0 Nint = Ok nc /\
    xi nc = xi nb /\
    dxi nc = dxi nb /\
    forall i, (i < Z.to_nat Nint)%nat ->
      at_ (a_ nc) i = c * at_ (a_ nb) i /\
      at_ (px nc) i = c * at_ (px nb) i /\
      at_ (x nc) i = c * at_ (x nb) i /\
      at_ (xan nc) i = c * at_ (xan nb) i /\
      at_ (pz nc) i = c ^ 2 * at_ (pz nb) i /\
      at_ (z nc) i = c ^ 2 * at_ (z nb) i /\
      at_ (zdrift nc) i = c ^ 2 * at_ (zdrift nb) i /\
      at_ (zan nc) i = c ^ 2 * at_ (zan nb) i.
Proof.
  intros _ Hn.
  destruct (run_total a_0 tau xi0 Nint Hn) as [nb Hb].
  destruct (run_total (c * a_0) tau xi0 Nint Hn) as [nc Hc].
  exists nb, nc. split; [exact Hb | split; [exact Hc |]].
  destruct (run_inv _ _ _ _ nb Hb) as (Gb & _).
  destruct (run_inv _ _ _ _ nc Hc) as (Gc & _).
  rewrite Gb in Gc. injection Gc as Hxi Hdxi.
  split; [symmetry; exact Hxi | split; [symmetry; exact Hdxi |]].
  assert (Hpt : forall i, (i < Z.to_nat Nint)%nat ->
            at_ (a_ nc) i = c * at_ (a_ nb) i /\
            at_ (px nc) i = c * at_ (px nb) i /\
            at_ (xan nc) i = c * at_ (xan nb) i /\
            at_ (pz nc) i = c ^ 2 * at_ (pz nb) i /\
            at_ (zdrift nc) i = c ^ 2 * at_ (zdrift nb) i /\
            at_ (zan nc) i = c ^ 2 * at_ (zan nb) i).
  { intros i Hi.
    destruct (run_pointwise _ _ _ _ nb i Hb Hi)
      as (_ & _ & Ee & _ & Ep & Eq & _ & Exan & Ezd & Ezan).
    destruct (run_pointwise _ _ _ _ nc i Hc Hi)
      as (_ & _ & Ee' & _ & Ep' & Eq' & _ & Exan' & Ezd' & Ezan').
    rewrite (nth_error_at _ _ _ Ee), (nth_error_at _ _ _ Ep),
      (nth_error_at _ _ _ Eq), (nth_error_at _ _ _ Exan),
      (nth_error_at _ _ _ Ezd), (nth_error_at _ _ _ Ezan).
    rewrite (nth_error_at _ _ _ Ee'), (nth_error_at _ _ _ Ep'),
      (nth_error_at _ _ _ Eq'), (nth_error_at _ _ _ Exan'),
      (nth_error_at _ _ _ Ezd'), (nth_error_at _ _ _ Ezan').
    rewrite envelope_at_scal, zdrift_at_scal.
    set (e := envelope_at a_0 tau xi0 _).
    set (zd := zdrift_at a_0 tau xi0 _).
    repeat split; simpl pow; try ring; lra. }
  intros i Hi.
  destruct (Hpt i Hi) as (P1 & P2 & P3 & P4 & P5 & P6).
  destruct (run_trajectories _ _ _ _ nb Hb i Hi) as [Exb Ezb].
  destruct (run_trajectories _ _ _ _ nc Hc i Hi) as [Exc Ezc].
  repeat split; try assumption.
  - rewrite (nth_error_at _ _ _ Exb), (nth_error_at _ _ _ Exc),
      <- psum_scal.
    apply psum_ext. intros j Hj.
    destruct (Hpt j ltac:(lia)) as (_ & Q0 & _).
    destruct (Hpt (S j) ltac:(lia)) as (_ & Q1 & _).
    rewrite Q0, Q1, Hdxi. lra.
  - rewrite (nth_error_at _ _ _ Ezb), (nth_error_at _ _ _ Ezc),
      <- psum_scal.
    apply psum_ext. intros j Hj.
    destruct (Hpt j ltac:(lia)) as (_ & _ & _ & Q0 & _).
    destruct (Hpt (S j) ltac:(lia)) as (_ & _ & _ & Q1 & _).
    rewrite Q0, Q1, Hdxi. lra.
Qed.

(** X10 on the notebook as committed, against the pulse of unit
    amplitude. *)
Lemma amplitude_scaling_witness :
  exists nb nc,
    run 1 (5 * 2 * PI) 0 10000 = Ok nb /\
    run (4 * 1) (5 * 2 * PI) 0 10000 = Ok nc /\
    xi nc = xi nb /\
    dxi nc = dxi nb /\
    forall i, (i < Z.to_nat 10000)%nat ->
      at_ (a_ nc) i = 4 * at_ (a_ nb) i /\
      at_ (px nc) i = 4 * at_ (px nb) i /\
      at_ (x nc) i = 4 * at_ (x nb) i /\
      at_ (xan nc) i = 4 * at_ (xan nb) i /\
      at_ (pz nc) i = 4 ^ 2 * at_ (pz nb) i /\
      at_ (z nc) i = 4 ^ 2 * at_ (z nb) i /\
      at_ (zdrift nc) i = 4 ^ 2 * at_ (zdrift nb) i /\
      at_ (zan nc) i = 4 ^ 2 * at_ (zan nb) i.
Proof.
  apply (amplitude_scaling 4 1 (5 * 2 * PI) 0 10000).
  - pose proof PI_RGT_0. lra.
  - lia.
Defined.

(** X12.  The second subplot draws [x] against [z - zdrift] and [xan]
    against [zan - zdrift].  For [tau <> 0] the abscissa of the analytic
    curve is [0.125*a_[i]^2*sin(2*xi[i])] at every index, the drift
    cancelling exactly, and never exceeds [0.125*a_0^2] in size; the
    abscissa of the numerical curve is [z[i] - zdrift[i]]. *)
Theorem drift_subtracted_orbit (a_0 tau xi0 : R) (Nint : Z) :
  tau <> 0 ->
  (3 <= Nint)%Z ->
  exists nb fig numeric analytic,
    run_and_plot a_0 tau xi0 Nint = Ok (nb, fig) /\
    ax2 fig = [numeric; analytic] /\
    ydata numeric = x nb /\
    ydata analytic = xan nb /\
    forall i, (i < Z.to_nat Nint)%nat ->
      nth_error (xdata numeric) i
      = Some (at_ (z nb) i - at_ (zdrift nb) i) /\
      nth_error (xdata analytic) i
      = Some (0.125 * at_ (a_ nb) i ^ 2 * sin (2 * at_ (xi nb) i)) /\
      Rabs (at_ (xdata analytic) i) <= 0.125 * a_0 ^ 2.
Proof.
  intros _ Hn.
  destruct (run_total a_0 tau xi0 Nint Hn) as [nb Hrun].
  pose proof (plot_all_quantities_ok _ _ _ _ nb Hrun) as Hplot.
  destruct (run_shapes _ _ _ _ nb Hrun)
    as (_ & HN & _ & _ & _ & _ & _ & _ & Lz & _ & Lzd & Lzan).
  eexists nb, _, _, _. split.
  { unfold run_and_plot. rewrite Hrun. cbn [bind]. rewrite Hplot.
    reflexivity. }
  cbn [ax2 xdata ydata]. split; [reflexivity |].
  split; [reflexivity | split; [reflexivity |]].
  intros i Hi. cbn [xdata].
  destruct (run_pointwise _ _ _ _ nb i Hrun Hi)
    as (_ & Exi & Ee & _ & _ & _ & _ & _ & Ezd & Ezan).
  assert (Ez : nth_error (z nb) i = Some (at_ (z nb) i))
    by (apply nth_error_in_range; lia).
  assert (E1 : nth_error (map2 Rminus (z nb) (zdrift nb)) i
               = Some (at_ (z nb) i - at_ (zdrift nb) i)).
  { rewrite (nth_error_at _ _ _ Ezd).
    apply (nth_error_map2 Rminus _ _ _ _ _ Ez Ezd). }
  assert (E2 : nth_error (map2 Rminus (zan nb) (zdrift nb)) i
               = Some (0.125 * at_ (a_ nb) i ^ 2 * sin (2 * at_ (xi nb) i))).
  { rewrite (nth_error_map2 Rminus _ _ _ _ _ Ezan Ezd).
    rewrite (nth_error_at _ _ _ Ee), (nth_error_at _ _ _ Exi).
    f_equal. ring. }
  split; [exact E1 | split; [exact E2 |]].
  rewrite (nth_error_at _ _ _ E2).
  rewrite (nth_error_at _ _ _ Ee), (nth_error_at _ _ _ Exi).
  set (u := 4 * tau + INR i * spacing tau Nint).
  pose proof (envelope_at_bound a_0 tau xi0 u) as He.
  set (e := envelope_at a_0 tau xi0 u) in *.
  assert (He2 : e ^ 2 <= a_0 ^ 2).
  { rewrite <- (pow2_abs e), <- (pow2_abs a_0).
    pose proof (Rabs_pos e). simpl. nra. }
  pose proof (pow2_ge_0 e) as He0.
  pose proof (SIN_bound (2 * u)) as Hs.
  apply Rabs_le. split; nra.
Qed.

(** X12 on the notebook as committed. *)
Lemma drift_subtracted_orbit_witness :
  exists nb fig numeric analytic,
    run_and_plot 4 (5 * 2 * PI) 0 10000 = Ok (nb, fig) /\
    ax2 fig = [numeric; analytic] /\
    ydata numeric = x nb /\
    ydata analytic = xan nb /\
    forall i, (i < Z.to_nat 10000)%nat ->
      nth_error (xdata numeric) i
      = Some (at_ (z nb) i - at_ (zdrift nb) i) /\
      nth_error (xdata analytic) i
      = Some (0.125 * at_ (a_ nb) i ^ 2 * sin (2 * at_ (xi nb) i)) /\
      Rabs (at_ (xdata analytic) i) <= 0.125 * 4 ^ 2.
Proof.
  apply (drift_subtracted_orbit 4 (5 * 2 * PI) 0 10000).
  - pose proof PI_RGT_0. lra.
  - lia.
Defined.

(** ** The cells on float64, whatever the parameters *)

Module Binary64.

Import Stdlib.Floats.Floats.
Import Float64 Float64Facts.
Local Open Scope float_scope.

Lemma float_length_cumsum_from (acc : float) (y : ndarray) :
  length (cumsum_from acc y) = length y.
Proof.
  revert acc; induction y as [| v y IH]; intros acc; simpl;
    [reflexivity | rewrite IH; reflexivity].
Qed.

Lemma float_length_cumtrapz (y : ndarray) (initial : float) :
  y <> [] -> length (cumtrapz y initial) = length y.
Proof.
  intros Hy. unfold cumtrapz, cumsum. cbn [length].
  destruct y as [| v y]; [congruence |].
  destruct (map2 _ _ _) as [| w t] eqn:E.
  - apply (f_equal (@length float)) in E.
    rewrite length_map2, length_removelast in E. simpl in *. lia.
  - cbn [length]. rewrite float_length_cumsum_from.
    apply (f_equal (@length float)) in E.
    rewrite length_map2, length_removelast in E. simpl in *. lia.
Qed.

Lemma float_linspace_length (start stop : float) (num : Z) :
  (0 <= num)%Z ->
  exists l, linspace start stop num = Ok l /\ length l = Z.to_nat num.
Proof.
  intros Hn. unfold linspace.
  destruct (Z.ltb_spec num 0); [lia |].
  eexists; split; [reflexivity |].
  destruct (1 <? num)%Z; destruct (0 <? num - 1)%Z;
    try destruct (_ =? 0);
    rewrite ?length_set_last, !length_map, length_arange_float; reflexivity.
Qed.

(** The one exception of [**]. *)
Lemma pow2_raises (L : libm) (v : float) (e : exn) :
  pow2 L v = Raise e -> e = OverflowError.
Proof.
  unfold pow2.
  destruct (is_nan v); [discriminate |].
  destruct (is_infinity v); [discriminate |].
  destruct (v =? 0); [discriminate |].
  destruct (_ =? 1); [discriminate |].
  destruct (is_infinity _); [| discriminate].
  intros [= <-]. reflexivity.
Qed.

Lemma pow2_nan (L : libm) : pow2 L nan = Ok nan.
Proof. reflexivity. Qed.

Section AnyInput.

Variable L : libm.
Variables a_0 tau xi0 : float.

Lemma float_grid_negative (Nint : Z) :
  (Nint < 0)%Z -> set_up_xi_space tau Nint = Raise ValueError.
Proof.
  intros Hn. unfold set_up_xi_space, linspace.
  destruct (Z.ltb_spec Nint 0); [reflexivity | lia].
Qed.

Lemma float_grid_short (Nint : Z) :
  (0 <= Nint < 3)%Z -> set_up_xi_space tau Nint = Raise IndexError.
Proof.
  intros Hn.
  destruct (float_linspace_length (4 * tau) (-4 * tau) Nint)
    as (l & Hl & Hlen); [lia |].
  unfold set_up_xi_space. rewrite Hl. cbn [bind].
  rewrite getitem_out_of_range by lia. reflexivity.
Qed.

Lemma float_grid_ok (Nint : Z) :
  (3 <= Nint)%Z ->
  exists l v2 v1,
    set_up_xi_space tau Nint = Ok (l, v2 - v1) /\
    length l = Z.to_nat Nint /\
    nth_error l 2 = Some v2 /\
    nth_error l 1 = Some v1.
Proof.
  intros Hn.
  destruct (float_linspace_length (4 * tau) (-4 * tau) Nint)
    as (l & Hl & Hlen); [lia |].
  assert (H2 : exists v, nth_error l 2 = Some v).
  { destruct (nth_error l 2) eqn:E; [eauto |].
    apply nth_error_None in E. lia. }
  assert (H1 : exists v, nth_error l 1 = Some v).
  { destruct (nth_error l 1) eqn:E; [eauto |].
    apply nth_error_None in E. lia. }
  destruct H2 as [v2 H2]. destruct H1 as [v1 H1].
  exists l, v2, v1. repeat split; try assumption.
  unfold set_up_xi_space. rewrite Hl. cbn [bind].
  rewrite (getitem_in_range l 2 v2 H2), (getitem_in_range l 1 v1 H1).
  reflexivity.
Qed.

(** [tau**2] raises in the cell "define pulse". *)
Lemma float_run_duration_overflow
    (Nint : Z) (l : ndarray) (d : float) (e : exn) :
  set_up_xi_space tau Nint = Ok (l, d) ->
  pow2 L tau = Raise e ->
  run L a_0 tau xi0 Nint = Raise e.
Proof.
  intros Hg Ht. unfold run. rewrite Hg. cbn [bind].
  unfold define_pulse. rewrite Ht. reflexivity.
Qed.

(** [a_0**2] raises in the cell of the analytic solutions. *)
Lemma float_run_amplitude_overflow
    (Nint : Z) (l : ndarray) (d tau_2 : float) (e : exn) :
  set_up_xi_space tau Nint = Ok (l, d) ->
  pow2 L tau = Ok tau_2 ->
  pow2 L a_0 = Raise e ->
  run L a_0 tau xi0 Nint = Raise e.
Proof.
  intros Hg Ht Ha. unfold run. rewrite Hg. cbn [bind].
  unfold define_pulse. rewrite Ht. cbn [bind].
  unfold analytic_solutions. rewrite Ha. reflexivity.
Qed.

(** The cells after the grid, when neither power raises. *)
Lemma float_run_unfold (Nint : Z) (l : ndarray) (d tau_2 a_0_2 : float) :
  set_up_xi_space tau Nint = Ok (l, d) ->
  pow2 L tau = Ok tau_2 ->
  pow2 L a_0 = Ok a_0_2 ->
  exists nb,
    run L a_0 tau xi0 Nint = Ok nb /\
    xi nb = l /\ dxi nb = d /\
    a_ nb =
      map (fun xi_i =>
             a_0 * exp L (- ((xi_i - xi0) * (xi_i - xi0)) / tau_2)) l /\
    a nb = map2 mul (a_ nb) (map (sin L) l) /\
    px nb = a nb /\
    pz nb = map (fun p => 0.5 * (p * p)) (px nb) /\
    gamma nb = map2 (fun p q => sqrt (1 + p * p + q * q)) (px nb) (pz nb) /\
    x nb = map (fun c => - c * d) (cumtrapz (px nb) 0) /\
    z nb = map (fun c => - c * d) (cumtrapz (pz nb) 0) /\
    xan nb = map2 mul (a_ nb) (map (cos L) l) /\
    zdrift nb =
      map (fun xi_i =>
             - 0.125 * sqrt (pi / 2) * a_0_2 * tau
             * (erf L (sqrt 2 * (xi_i - xi0) / tau) - 1)) l /\
    zan nb =
      map2 add (zdrift nb)
        (map2 mul (map (fun e => 0.125 * (e * e)) (a_ nb))
                  (map (fun xi_i => sin L (2 * xi_i)) l)).
Proof.
  intros Hg Ht Ha. unfold run. rewrite Hg. cbn [bind].
  unfold define_pulse. rewrite Ht. cbn [bind].
  unfold analytic_solutions. rewrite Ha. cbn [bind].
  eexists. split; [reflexivity |]. cbn. repeat split.
Qed.

(** Every array of a finished run has the length of the grid. *)
Lemma float_run_lengths (Nint : Z) (nb : notebook) :
  run L a_0 tau xi0 Nint = Ok nb ->
  (3 <= Nint)%Z /\
  let n := Z.to_nat Nint in
  length (xi nb) = n /\ length (a_ nb) = n /\ length (a nb) = n /\
  length (px nb) = n /\ length (pz nb) = n /\ length (gamma nb) = n /\
  length (x nb) = n /\ length (z nb) = n /\ length (xan nb) = n /\
  length (zdrift nb) = n /\ length (zan nb) = n.
Proof.
  intros Hrun.
  assert (Hn : (3 <= Nint)%Z).
  { destruct (Z_lt_le_dec Nint 0) as [Hneg | Hpos].
    - unfold run in Hrun. rewrite float_grid_negative in Hrun by exact Hneg.
      discriminate.
    - destruct (Z_lt_le_dec Nint 3) as [Hlt | Hge]; [| exact Hge].
      unfold run in Hrun. rewrite float_grid_short in Hrun by lia.
      discriminate. }
  split; [exact Hn |].
  destruct (float_grid_ok Nint Hn) as (l & v2 & v1 & Hg & Hlen & _).
  destruct (pow2 L tau) as [tau_2 | e] eqn:Ht;
    [| rewrite (float_run_duration_overflow Nint l _ e Hg Ht) in Hrun;
       discriminate].
  destruct (pow2 L a_0) as [a_0_2 | e] eqn:Ha;
    [| rewrite (float_run_amplitude_overflow Nint l _ _ e Hg Ht Ha) in Hrun;
       discriminate].
  destruct (float_run_unfold Nint l _ _ _ Hg Ht Ha)
    as (nb' & Hrun' & Hxi & Hd & Ha_ & Haa & Hpx & Hpz & Hgam & Hx & Hz
        & Hxan & Hzd & Hzan).
  rewrite Hrun in Hrun'. injection Hrun' as <-.
  intros n.
  assert (L0 : length (xi nb) = n) by (rewrite Hxi; exact Hlen).
  assert (L1 : length (a_ nb) = n)
    by (rewrite Ha_, length_map; exact Hlen).
  assert (L2 : length (a nb) = n)
    by (rewrite Haa, length_map2, length_map, L1, Hlen; fold n; lia).
  assert (L3 : length (px nb) = n) by (rewrite Hpx; exact L2).
  assert (L4 : length (pz nb) = n) by (rewrite Hpz, length_map; exact L3).
  assert (L5 : length (zdrift nb) = n)
    by (rewrite Hzd, length_map; exact Hlen).
  assert (Hne : forall l0 : ndarray, length l0 = n -> l0 <> []).
  { intros l0 H0 ->. simpl in H0. unfold n in H0. lia. }
  repeat split; try assumption.
  - rewrite Hgam, length_map2, L3, L4. lia.
  - rewrite Hx, length_map, float_length_cumtrapz by (apply Hne; exact L3).
    exact L3.
  - rewrite Hz, length_map, float_length_cumtrapz by (apply Hne; exact L4).
    exact L4.
  - rewrite Hxan, length_map2, length_map, L1, Hlen. fold n. lia.
  - rewrite Hzan, !length_map2, !length_map, L5, L1, Hlen. fold n. lia.
Qed.

End AnyInput.

(** ** The plots of a finished run *)




(** ** NaN on the right of an operation *)

Lemma add_nan_r (v : float) : v + nan = nan.
Proof.
  apply Prim2SF_inj. rewrite add_spec. change (Prim2SF nan) with S754_nan.
  destruct (Prim2SF v); reflexivity.
Qed.

Lemma div_nan_l (v : float) : nan / v = nan.
Proof. apply Prim2SF_inj. rewrite div_spec. reflexivity. Qed.

(** [-0.0 * d]: a zero when [d] is finite, NaN when it is not. *)
Lemma negative_zero_times (d : float) :
  match Prim2SF d with
  | S754_nan | S754_infinity _ => - 0 * d = nan
  | S754_zero _ | S754_finite _ _ _ => (- 0 * d =? 0) = true
  end.
Proof.
  destruct (Prim2SF d) as [s | s | | s m e] eqn:E.
  - rewrite eqb_spec, mul_spec, E. destruct s; reflexivity.
  - apply Prim2SF_inj. rewrite mul_spec, E. reflexivity.
  - apply Prim2SF_inj. rewrite mul_spec, E. reflexivity.
  - rewrite eqb_spec, mul_spec, E. destruct s; reflexivity.
Qed.

(** ** The cells downstream of an all-NaN envelope *)

Section NanEnvelope.

Variable L : libm.
Variable l : ndarray.
Variable m : nat.
Hypothesis grid_length : length l = S m.

Lemma nan_waveform :
  map2 mul (repeat nan (S m)) (map (sin L) l) = repeat nan (S m).
Proof.
  apply map2_repeat_l;
    [apply mul_nan_l | rewrite length_map; exact grid_length].
Qed.

Lemma nan_pz (n : nat) :
  map (fun p => 0.5 * (p * p)) (repeat nan n) = repeat nan n.
Proof. rewrite map_repeat. reflexivity. Qed.

Lemma nan_gamma (n : nat) :
  map2 (fun p q => sqrt (1 + p * p + q * q)) (repeat nan n) (repeat nan n)
  = repeat nan n.
Proof.
  apply map2_repeat_l; [| apply repeat_length].
  intros v. cbv beta. change (1 + nan * nan) with nan.
  rewrite add_nan_l. reflexivity.
Qed.

Lemma nan_trajectory (d : float) :
  map (fun c => - c * d) (cumtrapz (repeat nan (S m)) 0)
  = - 0 * d :: repeat nan m.
Proof.
  rewrite cumtrapz_nan. cbn [map]. rewrite map_repeat.
  change (- nan) with nan. rewrite mul_nan_l. reflexivity.
Qed.

Lemma nan_xan :
  map2 mul (repeat nan (S m)) (map (cos L) l) = repeat nan (S m).
Proof.
  apply map2_repeat_l;
    [apply mul_nan_l | rewrite length_map; exact grid_length].
Qed.

Lemma nan_zan (w : ndarray) :
  length w = S m ->
  map2 add (repeat nan (S m))
    (map2 mul (map (fun e => 0.125 * (e * e)) w)
              (map (fun xi_i => sin L (2 * xi_i)) l))
  = repeat nan (S m).
Proof.
  intros Hw. apply map2_repeat_l; [apply add_nan_l |].
  rewrite length_map2, !length_map, Hw, grid_length. lia.
Qed.

End NanEnvelope.

(** The grid of a NaN pulse duration. *)
Lemma nan_linspace (Nint : Z) :
  (0 <= Nint)%Z ->
  linspace (4 * nan) (-4 * nan) Nint = Ok (repeat nan (Z.to_nat Nint)).
Proof.
  intros Hn. unfold linspace.
  destruct (Z.ltb_spec Nint 0); [lia |].
  change (4 * nan * 1) with nan. change (-4 * nan * 1) with nan.
  change (nan - nan) with nan.
  f_equal.
  assert (Hy : forall f : float -> float,
             (forall v, f v = nan) ->
             map (fun v => v + nan) (map f (arange (Z.to_nat Nint)))
             = repeat nan (Z.to_nat Nint)).
  { intros f Hf. rewrite map_map.
    rewrite <- (length_arange_float (Z.to_nat Nint)) at 2.
    apply map_Forall_const, Forall_forall. intros v _. apply add_nan_r. }
  assert (Hs : forall n, set_last (repeat nan n) nan = repeat nan n).
  { intros n. unfold set_last. destruct n as [| n]; [reflexivity |].
    rewrite removelast_repeat. cbn [repeat].
    rewrite <- repeat_cons. reflexivity. }
  destruct (0 <? Nint - 1)%Z.
  - rewrite div_nan_l. change (nan =? 0) with false. cbv iota.
    rewrite (Hy (fun v => v * nan)) by (intros; apply mul_nan_r).
    destruct (1 <? Nint)%Z; [apply Hs | reflexivity].
  - rewrite (Hy (fun v => v * nan)) by (intros; apply mul_nan_r).
    destruct (1 <? Nint)%Z; [apply Hs | reflexivity].
Qed.


(** X13.  The outcome of the cells on float64, for every amplitude,
    duration and pulse centre (zero, infinite or NaN alike) and every
    numeric library.  A negative [Nint] raises ValueError; [0 <= Nint < 3]
    raises IndexError; for [Nint >= 3], OverflowError is raised when
    [tau**2] overflows (in "define pulse") or, [tau**2] being a float,
    when [a_0**2] overflows (in the analytic solutions); otherwise the
    run completes, with every array of length [Nint]. *)
Theorem float_run_outcome (L : libm) (a_0 tau xi0 : float) (Nint : Z) :
  ((Nint < 0)%Z -> run L a_0 tau xi0 Nint = Raise ValueError) /\
  ((0 <= Nint < 3)%Z -> run L a_0 tau xi0 Nint = Raise IndexError) /\
  ((3 <= Nint)%Z ->
   match pow2 L tau, pow2 L a_0 with
   | Raise e, _ =>
       e = OverflowError /\ run L a_0 tau xi0 Nint = Raise OverflowError
   | Ok _, Raise e =>
       e = OverflowError /\ run L a_0 tau xi0 Nint = Raise OverflowError
   | Ok _, Ok _ =>
       exists nb,
         run L a_0 tau xi0 Nint = Ok nb /\
         let n := Z.to_nat Nint in
         length (xi nb) = n /\ length (a_ nb) = n /\ length (a nb) = n /\
         length (px nb) = n /\ length (pz nb) = n /\
         length (gamma nb) = n /\ length (x nb) = n /\
         length (z nb) = n /\ length (xan nb) = n /\
         length (zdrift nb) = n /\ length (zan nb) = n
   end).
Proof.
  split; [| split].
  - intros Hn. unfold run. rewrite float_grid_negative by exact Hn.
    reflexivity.
  - intros Hn. unfold run. rewrite float_grid_short by exact Hn.
    reflexivity.
  - intros Hn.
    destruct (float_grid_ok tau Nint Hn) as (l & v2 & v1 & Hg & Hlen & _).
    destruct (pow2 L tau) as [tau_2 | e] eqn:Ht.
    + destruct (pow2 L a_0) as [a_0_2 | e] eqn:Ha.
      * destruct (float_run_unfold L a_0 tau xi0 Nint l _ _ _ Hg Ht Ha)
          as (nb & Hrun & _).
        exists nb. split; [exact Hrun |].
        apply (float_run_lengths L a_0 tau xi0 Nint nb Hrun).
      * pose proof (pow2_raises L a_0 e Ha) as ->.
        split; [reflexivity |].
        apply (float_run_amplitude_overflow L a_0 tau xi0 Nint l _ _ _
                 Hg Ht Ha).
    + pose proof (pow2_raises L tau e Ht) as ->.
      split; [reflexivity |].
      apply (float_run_duration_overflow L a_0 tau xi0 Nint l _ _ Hg Ht).
Qed.

(** X14.  On float64, where the run completes (neither [tau**2] nor
    [a_0**2] overflows), the trajectories start at [-0.0 * dxi]:
    [x[0] == 0] and [z[0] == 0] hold whenever [dxi] is finite, and the
    first element of both is NaN otherwise (a NaN [dxi], as a NaN [tau]
    gives). *)
Theorem float_trajectories_start
  (L : libm) (a_0 tau xi0 tau_2 a_0_2 : float) (Nint : Z) :
  (3 <= Nint)%Z ->
  pow2 L tau = Ok tau_2 ->
  pow2 L a_0 = Ok a_0_2 ->
  exists nb x_0 z_0,
    run L a_0 tau xi0 Nint = Ok nb /\
    nth_error (x nb) 0 = Some x_0 /\
    nth_error (z nb) 0 = Some z_0 /\
    match Prim2SF (dxi nb) with
    | S754_zero _ | S754_finite _ _ _ =>
        (x_0 =? 0) = true /\ (z_0 =? 0) = true
    | _ => x_0 = nan /\ z_0 = nan
    end.
Proof.
  intros Hn Ht Ha.
  destruct (float_grid_ok tau Nint Hn) as (l & v2 & v1 & Hg & Hlen & _).
  destruct (float_run_unfold L a_0 tau xi0 Nint l _ _ _ Hg Ht Ha)
    as (nb & Hrun & _ & Hd & _ & _ & _ & _ & _ & Hx & Hz & _).
  exists nb, (- 0 * dxi nb), (- 0 * dxi nb).
  split; [exact Hrun |].
  split; [rewrite Hx, Hd; reflexivity |].
  split; [rewrite Hz, Hd; reflexivity |].
  pose proof (negative_zero_times (dxi nb)) as H.
  destruct (Prim2SF (dxi nb)); split; exact H.
Qed.

(** X14 with the series library, [tau = 1.0] and three samples. *)
Lemma float_trajectories_start_witness :
  exists nb x_0 z_0,
    run series_libm 4 1 0 3 = Ok nb /\
    nth_error (x nb) 0 = Some x_0 /\
    nth_error (z nb) 0 = Some z_0 /\
    match Prim2SF (dxi nb) with
    | S754_zero _ | S754_finite _ _ _ =>
        (x_0 =? 0) = true /\ (z_0 =? 0) = true
    | _ => x_0 = nan /\ z_0 = nan
    end.
Proof.
  apply (float_trajectories_start series_libm 4 1 0 1 16 3).
  - lia.
  - reflexivity.
  - reflexivity.
Defined.

(** X15.  A NaN peak amplitude on float64, with a duration whose square
    [tau**2] is a float: no cell raises ([nan**2] is NaN, not an error),
    the grid and [dxi] are those of any other amplitude, and NaN is the
    value of [a_], [a], [px], [pz], [gamma], [xan], [zdrift] and [zan] at
    every index and of [x] and [z] at every index after the first, for
    every pulse centre and numeric library. *)
Theorem nan_amplitude_propagates
  (L : libm) (tau xi0 tau_2 : float) (Nint : Z) :
  (3 <= Nint)%Z ->
  pow2 L tau = Ok tau_2 ->
  exists nb,
    run L nan tau xi0 Nint = Ok nb /\
    set_up_xi_space tau Nint = Ok (xi nb, dxi nb) /\
    forall i, (i < Z.to_nat Nint)%nat ->
      nth_error (a_ nb) i = Some nan /\
      nth_error (a nb) i = Some nan /\
      nth_error (px nb) i = Some nan /\
      nth_error (pz nb) i = Some nan /\
      nth_error (gamma nb) i = Some nan /\
      nth_error (xan nb) i = Some nan /\
      nth_error (zdrift nb) i = Some nan /\
      nth_error (zan nb) i = Some nan /\
      ((1 <= i)%nat ->
       nth_error (x nb) i = Some nan /\ nth_error (z nb) i = Some nan).
Proof.
  intros Hn Ht.
  destruct (float_grid_ok tau Nint Hn) as (l & v2 & v1 & Hg & Hlen & _).
  destruct (float_run_unfold L nan tau xi0 Nint l _ _ _ Hg Ht (pow2_nan L))
    as (nb & Hrun & Hxi & Hd & Ha_ & Ha & Hpx & Hpz & Hgam & Hx & Hz
        & Hxan & Hzd & Hzan).
  exists nb. split; [exact Hrun |].
  split; [rewrite Hxi, Hd; exact Hg |].
  destruct (Z.to_nat Nint) as [| m] eqn:En; [lia |].
  assert (Ea_ : a_ nb = repeat nan (S m)).
  { rewrite Ha_, <- Hlen.
    apply map_Forall_const. apply Forall_forall. intros v _.
    apply mul_nan_l. }
  assert (Ezd : zdrift nb = repeat nan (S m)).
  { rewrite Hzd, <- Hlen. apply map_Forall_const.
    apply Forall_forall. intros v _. cbv beta.
    change (- 0.125 * sqrt (pi / 2) * nan) with nan.
    rewrite !mul_nan_l. reflexivity. }
  assert (Ea : a nb = repeat nan (S m)).
  { rewrite Ha, Ea_. apply nan_waveform. exact Hlen. }
  rewrite Ea in Hpx. rewrite Hpx in Hpz, Hgam, Hx.
  rewrite nan_pz in Hpz. rewrite Hpz in Hgam, Hz.
  rewrite nan_gamma in Hgam.
  rewrite nan_trajectory in Hx, Hz.
  rewrite Ea_ in Hxan. rewrite (nan_xan L l m Hlen) in Hxan.
  rewrite Ezd in Hzan.
  rewrite (nan_zan L l m Hlen (a_ nb)) in Hzan
    by (rewrite Ea_; apply repeat_length).
  rewrite Ea_, Ea, Hpx, Hpz, Hgam, Hx, Hz, Hxan, Ezd, Hzan.
  intros i Hi.
  assert (Hnan : nth_error (repeat nan (S m)) i = Some nan)
    by (apply nth_error_repeat; exact Hi).
  repeat split; try exact Hnan.
  - destruct i as [| k]; [lia |]. apply nth_error_repeat. lia.
  - destruct i as [| k]; [lia |]. apply nth_error_repeat. lia.
Qed.

(** X15 with the series library, the duration and the sample count of
    the notebook. *)
Lemma nan_amplitude_propagates_witness :
  exists nb,
    run series_libm nan (5 * 2 * pi) 0 10000 = Ok nb /\
    set_up_xi_space (5 * 2 * pi) 10000 = Ok (xi nb, dxi nb) /\
    forall i, (i < Z.to_nat 10000)%nat ->
      nth_error (a_ nb) i = Some nan /\
      nth_error (a nb) i = Some nan /\
      nth_error (px nb) i = Some nan /\
      nth_error (pz nb) i = Some nan /\
      nth_error (gamma nb) i = Some nan /\
      nth_error (xan nb) i = Some nan /\
      nth_error (zdrift nb) i = Some nan /\
      nth_error (zan nb) i = Some nan /\
      ((1 <= i)%nat ->
       nth_error (x nb) i = Some nan /\ nth_error (z nb) i = Some nan).
Proof.
  apply (nan_amplitude_propagates series_libm (5 * 2 * pi) 0
           (5 * 2 * pi * (5 * 2 * pi)) 10000).
  - lia.
  - reflexivity.
Defined.

(** X16.  A NaN pulse duration on float64, with an amplitude whose
    square [a_0**2] is a float: no cell raises ([nan**2] is NaN, not an
    error), [dxi] is NaN, and every element of every array is NaN, the
    grid and the first elements of [x] and [z] included, for every pulse
    centre and numeric library. *)
Theorem nan_duration_propagates
  (L : libm) (a_0 xi0 a_0_2 : float) (Nint : Z) :
  (3 <= Nint)%Z ->
  pow2 L a_0 = Ok a_0_2 ->
  exists nb,
    run L a_0 nan xi0 Nint = Ok nb /\
    dxi nb = nan /\
    forall i, (i < Z.to_nat Nint)%nat ->
      nth_error (xi nb) i = Some nan /\
      nth_error (a_ nb) i = Some nan /\
      nth_error (a nb) i = Some nan /\
      nth_error (px nb) i = Some nan /\
      nth_error (pz nb) i = Some nan /\
      nth_error (gamma nb) i = Some nan /\
      nth_error (x nb) i = Some nan /\
      nth_error (z nb) i = Some nan /\
      nth_error (xan nb) i = Some nan /\
      nth_error (zdrift nb) i = Some nan /\
      nth_error (zan nb) i = Some nan.
Proof.
  intros Hn Hsq.
  destruct (Z.to_nat Nint) as [| m] eqn:En; [lia |].
  assert (Hg : set_up_xi_space nan Nint = Ok (repeat nan (S m), nan)).
  { unfold set_up_xi_space. rewrite nan_linspace by lia. rewrite En.
    cbn [bind]. unfold getitem.
    rewrite !nth_error_repeat by lia. reflexivity. }
  destruct (float_run_unfold L a_0 nan xi0 Nint _ _ _ _ Hg (pow2_nan L) Hsq)
    as (nb & Hrun & Hxi & Hd & Ha_ & Ha & Hpx & Hpz & Hgam & Hx & Hz
        & Hxan & Hzd & Hzan).
  exists nb. split; [exact Hrun | split; [exact Hd |]].
  assert (Hlen : length (repeat nan (S m)) = S m) by apply repeat_length.
  assert (Ea_ : a_ nb = repeat nan (S m)).
  { rewrite Ha_, map_repeat.
    rewrite sub_nan_l, mul_nan_l. change (- nan) with nan.
    rewrite div_nan_l, exp_nan, mul_nan_r. reflexivity. }
  assert (Ezd : zdrift nb = repeat nan (S m)).
  { rewrite Hzd, map_repeat.
    rewrite (mul_nan_r (- 0.125 * sqrt (pi / 2) * a_0_2)), mul_nan_l.
    reflexivity. }
  assert (Ea : a nb = repeat nan (S m)).
  { rewrite Ha, Ea_. apply nan_waveform. exact Hlen. }
  rewrite Ea in Hpx. rewrite Hpx in Hpz, Hgam, Hx.
  rewrite nan_pz in Hpz. rewrite Hpz in Hgam, Hz.
  rewrite nan_gamma in Hgam.
  rewrite nan_trajectory in Hx, Hz.
  change (- 0 * nan) with nan in Hx, Hz.
  rewrite Ea_ in Hxan. rewrite (nan_xan L _ m Hlen) in Hxan.
  rewrite Ezd in Hzan.
  rewrite (nan_zan L _ m Hlen (a_ nb)) in Hzan
    by (rewrite Ea_; apply repeat_length).
  rewrite Hxi, Ea_, Ea, Hpx, Hpz, Hgam, Hx, Hz, Hxan, Ezd, Hzan.
  intros i Hi.
  assert (Hnan : nth_error (repeat nan (S m)) i = Some nan)
    by (apply nth_error_repeat; exact Hi).
  change (nan :: repeat nan m) with (repeat nan (S m)).
  repeat split; exact Hnan.
Qed.

(** X16 with the series library and the parameters of the notebook. *)
Lemma nan_duration_propagates_witness :
  exists nb,
    run series_libm 4 nan 0 10000 = Ok nb /\
    dxi nb = nan /\
    forall i, (i < Z.to_nat 10000)%nat ->
      nth_error (xi nb) i = Some nan /\
      nth_error (a_ nb) i = Some nan /\
      nth_error (a nb) i = Some nan /\
      nth_error (px nb) i = Some nan /\
      nth_error (pz nb) i = Some nan /\
      nth_error (gamma nb) i = Some nan /\
      nth_error (x nb) i = Some nan /\
      nth_error (z nb) i = Some nan /\
      nth_error (xan nb) i = Some nan /\
      nth_error (zdrift nb) i = Some nan /\
      nth_error (zan nb) i = Some nan.
Proof.
  apply (nan_duration_propagates series_libm 4 0 16 10000).
  - lia.
  - reflexivity.
Defined.

End Binary64.
